(** * The audio relay of gemini-live-api: a shallow embedding

    The repository relays audio between a WebSocket client and a Gemini Live
    session.  Three variants of the relay live side by side:

    - [common.py] + [server.py]: the current server ([BaseWebSocketServer],
      tasks in an [asyncio.TaskGroup], an unbounded queue);
    - [common.py] + [archive/main.py]: the archived server (three tasks under
      an explicit supervisor, a queue of capacity 8, a turn sentinel);
    - [archive/main2.py]: a FastAPI endpoint with two pumps and no queue.

    Pure code is embedded as functions.  Awaited calls on the client transport
    and on the remote session are effects: they are recorded in a trace and
    their outcome (return or raise) is taken from an oracle.  Concurrent
    tasks are embedded as step relations whose interleavings are the
    schedules of the event loop. *)

From Stdlib Require Import ZArith Lia Floats.
From stdpp Require Import gmap strings list.

Set Warnings "-register-all".
Open Scope Z_scope.

(** ** Python values and exceptions *)

Definition bytes := list Byte.byte.

(** The exception classes the relay can meet.  [CancelledError] derives from
    [BaseException]; every other class here derives from [Exception]. *)
Inductive exn :=
| JSONDecodeError
| UnicodeDecodeError
| AttributeError
| TypeError
| ValueError
| BinasciiError
| UnboundLocalError
| ConnectionClosedOK
| ConnectionClosedError
| ExceptionGroup
| RuntimeError
| CancelledError.

Definition is_Exception (e : exn) : bool :=
  match e with CancelledError => false | _ => true end.

(** [except ConnectionClosed] in [common.py]. *)
Definition is_ConnectionClosed (e : exn) : bool :=
  match e with ConnectionClosedOK | ConnectionClosedError => true | _ => false end.

Inductive pyres (A : Type) :=
| Ret (a : A)
| Raise (e : exn).
Arguments Ret {A} a.
Arguments Raise {A} e.

(** What [json.loads] builds.  A JSON object becomes a [dict], modelled as a
    finite map. *)
Inductive json :=
| JNull
| JBool (b : bool)
| JInt (n : Z)
| JFloat (f : float)
| JStr (s : string)
| JArr (l : list json)
| JObj (kv : gmap string json).

(** Python truthiness ([if payload], [x or y]). *)
Definition truthy (v : json) : bool :=
  match v with
  | JNull => false
  | JBool b => b
  | JInt n => negb (n =? 0)
  | JFloat f => negb (PrimFloat.eqb f 0%float)
  | JStr s => negb (String.eqb s "")
  | JArr l => match l with [] => false | _ => true end
  | JObj kv => negb (bool_decide (kv = ∅))
  end.

(** [v == "literal"] for a string literal. *)
Definition eq_str (v : json) (lit : string) : bool :=
  match v with JStr s => String.eqb s lit | _ => false end.

(** [data.get(key, dflt)]: only a [dict] has [get]. *)
Definition dict_get (data : json) (key : string) (dflt : json) : pyres json :=
  match data with
  | JObj kv => Ret (default dflt (kv !! key))
  | _ => Raise AttributeError
  end.

(** ** Frames arriving from the client transport

    [websockets] hands a binary frame to the handler as [bytes] and a text
    frame as [str].  The standard-library decoders applied to a frame are not
    part of the repository; a frame carries what they return on it:
    [json_loads] is [json.loads(message)], [b64decode_data] is
    [base64.b64decode(data.get("data", ""))] and [int_rate] is
    [int(data.get("rate"))].  On [bytes], [json.loads] first decodes the text
    and can raise [UnicodeDecodeError], which is not a [JSONDecodeError]. *)
Inductive wire :=
| Binary (raw : bytes)
| Text.

Record frame := Frame {
  wire_of : wire;
  json_loads : pyres json;
  b64decode_data : pyres bytes;
  int_rate : pyres Z;
}.

(** [isinstance(message, bytes)] *)
Definition isinstance_bytes (message : frame) : option bytes :=
  match wire_of message with Binary raw => Some raw | Text => None end.

(** ** [asyncio.Queue]

    [maxsize <= 0] means unbounded.  [put] and [get] return [None] where the
    coroutine would suspend (queue full, queue empty). *)
Record queue (A : Type) := Queue {
  maxsize : Z;
  items : list A;
  unfinished_tasks : nat;
}.
Arguments Queue {A} maxsize items unfinished_tasks.
Arguments maxsize {A} q.
Arguments items {A} q.
Arguments unfinished_tasks {A} q.

Section AsyncioQueue.
Context {A : Type}.

Definition new_queue (maxsize : Z) : queue A := Queue maxsize [] 0.

Definition qsize (q : queue A) : Z := Z.of_nat (length (items q)).

Definition full (q : queue A) : bool :=
  if maxsize q <=? 0 then false else maxsize q <=? qsize q.

Definition put (q : queue A) (x : A) : option (queue A) :=
  if full q then None
  else Some (Queue (maxsize q) (items q ++ [x]) (S (unfinished_tasks q))).

Definition get (q : queue A) : option (A * queue A) :=
  match items q with
  | [] => None
  | x :: rest => Some (x, Queue (maxsize q) rest (unfinished_tasks q))
  end.

Definition task_done (q : queue A) : pyres (queue A) :=
  match unfinished_tasks q with
  | O => Raise ValueError
  | S n => Ret (Queue (maxsize q) (items q) n)
  end.

(** [k] successive [put]s, stopping at the first one that would block. *)
Fixpoint put_all (q : queue A) (xs : list A) : option (queue A) :=
  match xs with
  | [] => Some q
  | x :: rest => match put q x with Some q' => put_all q' rest | None => None end
  end.
End AsyncioQueue.

(** ** Effects: frames sent to the client, calls on the remote session *)

Inductive out_frame :=
| OReady                              (* {"type": "ready"} *)
| OConnected (model : string)          (* {"type": "connected", "model": MODEL} *)
| OAudio (data : bytes)                (* {"type": "audio", "data": b64encode(data)} *)
| OBinary (data : bytes)               (* raw PCM as a binary frame *)
| OText (data : string)                (* {"type": "text", "data": text} *)
| OTurnComplete                        (* {"type": "turn_complete"} *)
| OReadyForInput                       (* {"type": "ready_for_input"} *)
| OInterrupted (data : string)         (* {"type": "interrupted", "data": reason} *)
| OSessionId (data : string)           (* {"type": "session_id", "data": handle} *)
| OInputTranscript (text : string)     (* {"type": "input_transcript", "text": t} *)
| OOutputTranscript (text : string).   (* {"type": "output_transcript", "text": t} *)

(** [f"audio/pcm;rate={rate};channels=1"] and [f"audio/pcm;rate={rate}"] *)
Record mime := Mime { rate : Z; channels : option Z }.

Inductive event :=
| WsSend (f : out_frame)                        (* await websocket.send(...) *)
| WsClose                                       (* await websocket.close() *)
| SendRealtimeInput (data : bytes) (m : mime)   (* await session.send_realtime_input(...) *)
| SendEndOfTurn                                 (* await session.send(end_of_turn=True) *)
| SendText (input : json).                      (* await session.send(input=text, end_of_turn=True) *)

(** The environment: whether the [n]-th awaited call of a run returns
    ([None]) or raises. *)
Definition oracle := nat -> option exn.

Definition all_return : oracle := fun _ => None.

(** Computations that await calls: a trace of the calls issued so far is
    threaded through, the result is a value or a raised exception. *)
Definition M (A : Type) : Type := oracle -> list event -> pyres A * list event.

Definition ret {A} (a : A) : M A := fun _ t => (Ret a, t).

Definition raise {A} (e : exn) : M A := fun _ t => (Raise e, t).

Definition lift {A} (r : pyres A) : M A := fun _ t => (r, t).

Definition bind {A B} (m : M A) (f : A -> M B) : M B :=
  fun o t =>
    match m o t with
    | (Ret a, t') => f a o t'
    | (Raise e, t') => (Raise e, t')
    end.

Definition await (ev : event) : M unit :=
  fun o t =>
    (match o (length t) with None => Ret tt | Some e => Raise e end, t ++ [ev]).

(** [try: m except <classes>: handler], the classes given by [catches]. *)
Definition try_except {A} (m : M A) (catches : exn -> bool) (handler : M A) : M A :=
  fun o t =>
    match m o t with
    | (Raise e, t') => if catches e then handler o t' else (Raise e, t')
    | r => r
    end.

(** [try: m except A: ... except B: ...]: [handlers e] is the body of the
    first clause that matches [e], if any. *)
Definition try_except_as {A} (m : M A) (handlers : exn -> option (M A)) : M A :=
  fun o t =>
    match m o t with
    | (Raise e, t') =>
        match handlers e with
        | Some handler => handler o t'
        | None => (Raise e, t')
        end
    | r => r
    end.

Declare Scope py_scope.
Delimit Scope py_scope with py.
Notation "x <- m ;; k" := (bind m (fun x => k))
  (at level 100, m at level 99, k at level 200, right associativity) : py_scope.
Notation "m ;;; k" := (bind m (fun _ => k))
  (at level 100, k at level 200, right associativity) : py_scope.
Open Scope py_scope.

(** ** Events of the remote session ([LiveServerMessage])

    Optional attributes are options; a transcription object can be present
    with no text, a content can be present with no part list. *)
Record part := Part {
  inline_data : option (option bytes);   (* part.inline_data, then its .data *)
}.

Record server_content := ServerContent {
  model_turn : option (option (list part));    (* model_turn, then its .parts *)
  turn_complete : option bool;
  interrupted : option bool;
  output_transcription : option (option string);  (* the object, then its .text *)
  input_transcription : option (option string);
}.

Record resumption_update := ResumptionUpdate {
  resumable : option bool;
  new_handle : option string;
}.

Record response := Response {
  data : option bytes;                                  (* response.data *)
  content : option server_content;                      (* response.server_content *)
  session_resumption_update : option resumption_update;
  go_away : option string;                              (* its time_left *)
}.

(** Truthiness of an optional flag and of an optional text. *)
Definition flag (b : option bool) : bool := default false b.

Definition nonempty_text (t : option string) : option string :=
  match t with
  | Some s => if String.eqb s "" then None else Some s
  | None => None
  end.

(** [transcription and transcription.text], the text when both are truthy. *)
Definition transcript_text (tr : option (option string)) : option string :=
  match tr with Some t => nonempty_text t | None => None end.

(** [async for x in xs: body], the stream given as the list of what it yields. *)
Fixpoint async_for {A} (body : A -> M unit) (xs : list A) : M unit :=
  match xs with
  | [] => ret tt
  | x :: rest => body x ;;; async_for body rest
  end.

(** ** [archive/main.py] *)
Module Archive.

Definition MODEL : string := "gemini-live-2.5-flash-preview".

(** Assigned to [client_sample_rate] of [process_audio]. *)
Definition INPUT_SAMPLE_RATE_DEFAULT : Z := 16000.

(** The [8] of [asyncio.Queue(maxsize=8)]. *)
Definition QUEUE_MAXSIZE : Z := 8.

(** What travels on [audio_queue]: [(audio_bytes, sr)] or the sentinel [None]. *)
Inductive item :=
| Chunk (audio_bytes : bytes) (sr : Z)
| Sentinel.

(** How one iteration of the reader's [async for] ends.  The reader
    assigns [client_sample_rate], so the name is a local of [ws_reader]
    (there is no [nonlocal]); it is unbound ([None]) until the first
    assignment, and the value set in [process_audio] is never read. *)
Inductive control :=
| Continue (client_sample_rate : option Z)
| PutThenContinue (it : item) (client_sample_rate : option Z)
| Break.

(** The body of [async for message in websocket] in [ws_reader].  A raised
    exception leaves the loop: the handlers of [ws_reader] are outside it. *)
Definition ws_reader_body (client_sample_rate : option Z) (message : frame)
  : M control :=
  match json_loads message with
  | Raise JSONDecodeError => ret (Continue client_sample_rate)
  | Raise e => raise e
  | Ret data =>
      mtype <- lift (dict_get data "type" JNull) ;;
      if eq_str mtype "audio" then
        payload <- lift (dict_get data "data" (JStr "")) ;;
        if negb (truthy payload) then ret (Continue client_sample_rate)
        else
          audio_bytes <- lift (b64decode_data message) ;;
          declared <- lift (dict_get data "rate" JNull) ;;
          sr <- (if truthy declared then lift (int_rate message)
                 else match client_sample_rate with
                      | Some r => ret r
                      | None => raise UnboundLocalError
                      end) ;;
          ret (PutThenContinue (Chunk audio_bytes sr) (Some sr))
      else if eq_str mtype "end" then
        ret (PutThenContinue Sentinel client_sample_rate)
      else if eq_str mtype "text" then
        text <- lift (dict_get data "data" (JStr "")) ;;
        if truthy text then
          await (SendText text) ;;; ret (Continue client_sample_rate)
        else ret (Continue client_sample_rate)
      else if eq_str mtype "close" then
        (* try: await websocket.close()  finally: break *)
        fun o t => (Ret Break, snd (await WsClose o t))
      else ret (Continue client_sample_rate)
  end.

(** [audio_queue = asyncio.Queue(maxsize=8)] *)
Definition new_audio_queue : queue item := new_queue QUEUE_MAXSIZE.

(** The call the sender issues for a queue item. *)
Definition call_of (it : item) : event :=
  match it with
  | Chunk chunk sr => SendRealtimeInput chunk (Mime sr (Some 1))
  | Sentinel => SendEndOfTurn
  end.

(** One iteration of [while True] in [audio_sender], after
    [item = await audio_queue.get()] left the queue as [q]: the trace
    after the call, whether the loop goes on, and the queue after
    [task_done].  A failed audio send is logged and the loop goes on; a
    failed commit, a cancellation or a failed [task_done] ends the task. *)
Definition audio_sender_body (it : item) (q : queue item) (o : oracle)
    (t : list event) : bool * queue item * list event :=
  let '(r, t') := await (call_of it) o t in
  match task_done q with
  | Raise _ => (false, q, t')
  | Ret q' =>
      let goes_on :=
        match r, it with
        | Ret _, _ => true
        | Raise e, Chunk _ _ => is_Exception e
        | Raise _, Sentinel => false
        end in
      (goes_on, q', t')
  end.

(** The body of [async for response in session.receive()] in
    [model_receiver]. *)
Definition model_receiver_body (r : response) : M unit :=
  (match data r with
   | Some d => try_except (await (WsSend (OAudio d))) is_Exception (ret tt)
   | None => ret tt
   end) ;;;
  (match content r with
   | Some sc =>
       (match transcript_text (output_transcription sc) with
        | Some text => await (WsSend (OText text))
        | None => ret tt
        end) ;;;
       (if flag (turn_complete sc) then
          await (WsSend OTurnComplete) ;;; await (WsSend OReadyForInput)
        else ret tt)
   | None => ret tt
   end).

(** [model_receiver]: the loop, then [except CancelledError: pass] and
    [except Exception: log]. *)
Definition model_receiver (responses : list response) : M unit :=
  try_except (async_for model_receiver_body responses) (fun _ => true) (ret tt).

(** What the handlers around the loop of a task do with an exception that
    leaves the loop. *)
Inductive handled :=
| Pass            (* [except asyncio.CancelledError: pass] *)
| LogError        (* [except Exception as e: logger.error(...)] *)
| Propagate.      (* no clause matches: the task ends with the exception *)

(** [ws_reader] has [except Exception] only; [audio_sender] and
    [model_receiver] have [except asyncio.CancelledError: pass] before it. *)
Definition ws_reader_handlers (e : exn) : handled :=
  if is_Exception e then LogError else Propagate.

Definition audio_sender_handlers (e : exn) : handled :=
  match e with
  | CancelledError => Pass
  | _ => if is_Exception e then LogError else Propagate
  end.

Definition model_receiver_handlers (e : exn) : handled :=
  match e with
  | CancelledError => Pass
  | _ => if is_Exception e then LogError else Propagate
  end.

End Archive.

(** ** [server.py] *)
Module Server.

Definition MODEL : string := "gemini-live-2.5-flash-preview".
Definition SEND_SAMPLE_RATE : Z := 16000.

Inductive log_line :=
| LogEnd                    (* "Received end signal from client" *)
| LogText (data : json)     (* "Received text: ..." *)
| LogInvalidJSON            (* "Invalid JSON message received" *)
| LogError (e : exn).       (* "Error processing message: ..." *)

(** What one iteration of [handle_websocket_messages] does: the queue is
    unbounded, so [put] never suspends; nothing is awaited on the session. *)
Inductive action :=
| Enqueue (message : bytes)
| Log (l : log_line)
| Nothing.

(** [except json.JSONDecodeError: ...  except Exception as e: ...] *)
Definition handlers (e : exn) : option (M action) :=
  match e with
  | JSONDecodeError => Some (ret (Log LogInvalidJSON))
  | _ => if is_Exception e then Some (ret (Log (LogError e))) else None
  end.

Definition handle_websocket_messages_body (message : frame) : M action :=
  try_except_as
    (match isinstance_bytes message with
     | Some raw => ret (Enqueue raw)
     | None =>
         data <- lift (json_loads message) ;;
         ty <- lift (dict_get data "type" JNull) ;;
         if eq_str ty "end" then ret (Log LogEnd)
         else if eq_str ty "text" then
           d <- lift (dict_get data "data" JNull) ;; ret (Log (LogText d))
         else ret Nothing
     end)
    handlers.

(** [audio_queue = asyncio.Queue()] *)
Definition new_audio_queue : queue bytes := new_queue 0.

(** One iteration of [process_and_send_audio] after [await audio_queue.get()];
    an exception of the send leaves the loop before [task_done]. *)
Definition process_and_send_audio_body (message : bytes) (q : queue bytes)
  : M (queue bytes) :=
  await (SendRealtimeInput message (Mime SEND_SAMPLE_RATE None)) ;;;
  lift (task_done q).

Definition INTERRUPTED_REASON : string := "Response interrupted by user input".

(** [await websocket.send(part.inline_data.data)]: [send] rejects [None]
    with a [TypeError] before anything is written. *)
Definition send_part (p : part) : M unit :=
  match inline_data p with
  | Some (Some d) => await (WsSend (OBinary d))
  | Some None => raise TypeError
  | None => ret tt
  end.

(** The body of [async for response in session.receive()] in
    [receive_and_play]; nothing is caught. *)
Definition receive_and_play_body (r : response) : M unit :=
  (match session_resumption_update r with
   | Some update =>
       if flag (resumable update) then
         match nonempty_text (new_handle update) with
         | Some session_id => await (WsSend (OSessionId session_id))
         | None => ret tt
         end
       else ret tt
   | None => ret tt
   end) ;;;
  (match content r with
   | Some sc =>
       if flag (interrupted sc) then await (WsSend (OInterrupted INTERRUPTED_REASON))
       else ret tt
   | None => ret tt
   end) ;;;
  (match content r with
   | Some sc =>
       match model_turn sc with
       | Some (Some parts) => async_for send_part parts
       | Some None => raise TypeError       (* for part in None *)
       | None => ret tt
       end
   | None => ret tt
   end) ;;;
  (match content r with
   | Some sc =>
       if flag (turn_complete sc) then await (WsSend OTurnComplete) else ret tt
   | None => ret tt
   end) ;;;
  (match content r with
   | Some sc =>
       match transcript_text (output_transcription sc) with
       | Some text => await (WsSend (OText text))
       | None => ret tt
       end
   | None => ret tt
   end).

(** [receive_and_play]: [while True] around one [session.receive()] stream
    per turn; the streams are given as a list of lists. *)
Definition receive_and_play (turns : list (list response)) : M unit :=
  async_for (async_for receive_and_play_body) turns.

End Server.

(** ** [archive/main2.py] *)
Module Main2.

(** What [ws.receive()] returns: a disconnect notice or a received frame. *)
Inductive asgi_message :=
| Disconnect
| Receive (message : frame).

(** One iteration of [while True] in [pump_client_to_gemini]; [false] is
    [break].  There is no queue: audio goes straight to the session. *)
Definition pump_client_to_gemini_body (message : asgi_message) : M bool :=
  match message with
  | Disconnect => ret false
  | Receive m =>
      match wire_of m with
      | Binary raw =>
          try_except (await (SendRealtimeInput raw (Mime 16000 None)))
                     is_Exception (ret tt) ;;;
          ret true
      | Text =>
          match json_loads m with
          | Raise e => if is_Exception e then ret true else raise e
          | Ret text_data =>
              match dict_get text_data "type" JNull with
              | Raise e => if is_Exception e then ret true else raise e
              | Ret _ => ret true
              end
          end
      end
  end.

(** The body of [async for msg in session.receive()] in
    [pump_gemini_to_client]. *)
Definition pump_gemini_to_client_body (msg : response) : M unit :=
  (match data msg with
   | Some d => await (WsSend (OBinary d))
   | None => ret tt
   end) ;;;
  (match content msg with
   | Some sc =>
       (match transcript_text (input_transcription sc) with
        | Some text => await (WsSend (OInputTranscript text))
        | None => ret tt
        end) ;;;
       (match transcript_text (output_transcription sc) with
        | Some text => await (WsSend (OOutputTranscript text))
        | None => ret tt
        end)
   | None => ret tt
   end).

Definition pump_gemini_to_client (msgs : list response) : M unit :=
  try_except (async_for pump_gemini_to_client_body msgs) is_Exception
             (try_except (await WsClose) is_Exception (ret tt)).

End Main2.

(** ** The reader and the sender of [archive/main.py] running together

    The two tasks share [audio_queue] only.  A step is one iteration of a
    task: the reader handles one frame, or completes a [put] that was
    waiting for room; the sender takes one item, issues its call and marks
    the item done.  What the other task does while a call is awaited
    touches neither the trace position of that call nor the item taken, so
    an iteration is one step; the trace orders the calls as they are
    issued.  The schedules of the event loop are the step sequences.
    Frames not yet read wait in [inbox]; with an empty [inbox] the reader
    is suspended on the transport. *)
Module Pipeline.
Import Archive.

Inductive reader_state :=
| Reading (client_sample_rate : option Z)
| Putting (it : item) (client_sample_rate : option Z)
| ReaderDone.

Record state := State {
  inbox : list frame;          (* frames sent by the client, not yet read *)
  ws_task : reader_state;
  audio_queue : queue item;
  send_task : bool;            (* [audio_sender] is still in its loop *)
  calls : list event;          (* the awaited calls issued so far *)
}.

Definition after_body (r : pyres control) : reader_state :=
  match r with
  | Ret (Continue csr) => Reading csr
  | Ret (PutThenContinue it csr) => Putting it csr
  | Ret Break => ReaderDone
  | Raise _ => ReaderDone
  end.

Inductive step (o : oracle) : state -> state -> Prop :=
| step_read message rest csr q snd t r t' :
    ws_reader_body csr message o t = (r, t') ->
    step o (State (message :: rest) (Reading csr) q snd t)
           (State rest (after_body r) q snd t')
| step_put it csr inb q q' snd t :
    put q it = Some q' ->
    step o (State inb (Putting it csr) q snd t)
           (State inb (Reading csr) q' snd t)
| step_send it inb rd q q1 q2 goes_on t t' :
    get q = Some (it, q1) ->
    audio_sender_body it q1 o t = (goes_on, q2, t') ->
    step o (State inb rd q true t)
           (State inb rd q2 goes_on t').

Definition start (frames : list frame) : state :=
  State frames (Reading None) new_audio_queue true [].

Definition reachable (o : oracle) (frames : list frame) (s : state) : Prop :=
  rtc (step o) (start frames) s.

(** No task can run: each is suspended for good or has finished. *)
Definition quiescent (o : oracle) (s : state) : Prop :=
  forall s', ~ step o s s'.

(** The reader, from local state [csr], enqueues exactly [its] for
    [frames] and awaits nothing else: each frame either yields one item or
    is dropped (invalid JSON, unknown type, empty payload). *)
Inductive enqueues : option Z -> list frame -> list item -> Prop :=
| enqueues_nil csr : enqueues csr [] []
| enqueues_cons csr message it csr' rest its :
    (forall o t, ws_reader_body csr message o t = (Ret (PutThenContinue it csr'), t)) ->
    enqueues csr' rest its ->
    enqueues csr (message :: rest) (it :: its)
| enqueues_skip csr message rest its :
    (forall o t, ws_reader_body csr message o t = (Ret (Continue csr), t)) ->
    enqueues csr rest its ->
    enqueues csr (message :: rest) its.

Definition chunk_of (c : bytes * Z) : item := Chunk c.1 c.2.

End Pipeline.

(** ** [common.py]: the client registry and [handle_client] *)
Module Common.

(** A connection object; [id(websocket)] is its address, distinct for any
    two objects alive at the same time. *)
Inductive websocket := Websocket (address : Z).

Definition py_id (w : websocket) : Z := match w with Websocket a => a end.

(** [if client_id in self.active_clients: del self.active_clients[client_id]] *)
Definition removes (client_id : Z) (active_clients : gmap Z websocket) : bool :=
  bool_decide (is_Some (active_clients !! client_id)).

Definition cleanup (client_id : Z) (active_clients : gmap Z websocket)
  : gmap Z websocket :=
  if removes client_id active_clients then delete client_id active_clients
  else active_clients.

End Common.

(** ** One client connection, from [handle_client] to its [finally]

    The supervising coroutine ([handle_client] running [process_audio]) is a
    program counter over its suspension points.  The three tasks are kept by
    their status only; what they do while running is the environment's
    choice, as is the outcome of every awaited call.  The supervising
    coroutine itself is never cancelled from outside, and leaving the
    session block does not raise. *)
Module Lifecycle.
Import Common.

Inductive task := WsTask | SendTask | RecvTask.

Inductive status :=
| NotCreated
| Running
| CancelRequested          (* [cancel()] called, not yet observed *)
| Done (failed : bool).    (* finished; [failed]: by an exception other than a cancellation *)

Inductive session_state := NotOpened | Open | Closed.

Inductive note :=
| Sent (f : out_frame)     (* a frame written to the client transport *)
| Connected                (* [client.aio.live.connect] entered *)
| ConnectFailed
| Cancelled (t : task)     (* [t.cancel()] *)
| Finished (t : task)
| SessionClosed            (* the [async with] of the session left *)
| Unregistered             (* [del self.active_clients[client_id]] *)
| LoggedDisconnect         (* [logger.info("Client disconnected")] *)
| LoggedError              (* a [logger.error] of [process_audio] or [handle_client] *)
| TaskError (t : task).    (* a [logger.error] in the handlers around the loop of [t] *)

Inductive point :=
| AtSendReady
| AtRegister
| AtConnect
| AtSendConnected
| AtCreateTasks
| AtWait                   (* [asyncio.wait(..., FIRST_COMPLETED)] *)
| AtCancel
| AtGather                 (* [asyncio.gather(..., return_exceptions=True)] *)
| AtJoin                   (* leaving the [TaskGroup] block *)
| AtExitSession (raising : option exn)
| AtExcept (e : exn)       (* an exception reaches the handlers of [handle_client] *)
| AtFinally
| Returned
| Raised.                  (* [handle_client] itself raised *)

Record state := St {
  pc : point;
  active_clients : gmap Z websocket;
  session : session_state;
  ws_task : status;
  send_task : status;
  recv_task : status;
  trace : list note;
}.

Definition is_done (st : status) : bool :=
  match st with Done _ => true | _ => false end.

Definition has_failed (st : status) : bool :=
  match st with Done true => true | _ => false end.

Definition is_running (st : status) : bool :=
  match st with Running => true | _ => false end.

(** [if not t.done(): t.cancel()] *)
Definition cancel (st : status) : status :=
  match st with Running => CancelRequested | _ => st end.

Definition cancel_note (t : task) (st : status) : list note :=
  match st with Running => [Cancelled t] | _ => [] end.

Definition cancel_notes (s : state) : list note :=
  cancel_note WsTask (ws_task s) ++ cancel_note SendTask (send_task s)
  ++ cancel_note RecvTask (recv_task s).

Definition all_done (s : state) : bool :=
  is_done (ws_task s) && is_done (send_task s) && is_done (recv_task s).

Definition any_failed (s : state) : bool :=
  has_failed (ws_task s) || has_failed (send_task s) || has_failed (recv_task s).

Definition any_running (s : state) : bool :=
  is_running (ws_task s) || is_running (send_task s) || is_running (recv_task s).

Definition status_of (s : state) (t : task) : status :=
  match t with
  | WsTask => ws_task s
  | SendTask => send_task s
  | RecvTask => recv_task s
  end.

Definition set_status (s : state) (t : task) (st : status) (n : list note) : state :=
  match t with
  | WsTask => St (pc s) (active_clients s) (session s) st (send_task s) (recv_task s) (trace s ++ n)
  | SendTask => St (pc s) (active_clients s) (session s) (ws_task s) st (recv_task s) (trace s ++ n)
  | RecvTask => St (pc s) (active_clients s) (session s) (ws_task s) (send_task s) st (trace s ++ n)
  end.

(** The supervisor moves to [p], logging [n]. *)
Definition goto (s : state) (p : point) (n : list note) : state :=
  St p (active_clients s) (session s) (ws_task s) (send_task s) (recv_task s) (trace s ++ n).

Definition start (active : gmap Z websocket) : state :=
  St AtSendReady active NotOpened NotCreated NotCreated NotCreated [].

(** What the [except] clauses of [handle_client] log: one line for a
    disconnect; for any other [Exception] two calls of [logger.error], the
    message and then the traceback. *)
Definition except_note (e : exn) : list note :=
  if is_ConnectionClosed e then [LoggedDisconnect]
  else if is_Exception e then [LoggedError; LoggedError]
  else [].

(** The handlers around the loop of each task of [archive/main.py]. *)
Definition archive_handlers (t : task) : exn -> Archive.handled :=
  match t with
  | WsTask => Archive.ws_reader_handlers
  | SendTask => Archive.audio_sender_handlers
  | RecvTask => Archive.model_receiver_handlers
  end.

(** What a task of [archive/main.py] leaves in the log when it ends. *)
Definition task_notes (t : task) (outcome : option exn) : list note :=
  match outcome with
  | Some e =>
      match archive_handlers t e with
      | Archive.LogError => [TaskError t]
      | Archive.Pass | Archive.Propagate => []
      end
  | None => []
  end ++ [Finished t].

(** The number of tasks that [cancel] changes. *)
Definition running (st : status) : nat :=
  match st with Running => 1 | _ => 0 end.

Definition running_tasks (s : state) : nat :=
  (running (ws_task s) + running (send_task s) + running (recv_task s))%nat.

(** [for t in (ws_task, send_task, recv_task): if not t.done(): t.cancel()],
    the supervisor going on to [p]. *)
Definition cancel_all (p : point) (s : state) : state :=
  St p (active_clients s) (session s)
     (cancel (ws_task s)) (cancel (send_task s)) (cancel (recv_task s))
     (trace s ++ cancel_notes s).

Section Connection.
Variable websocket : websocket.
Let client_id := py_id websocket.

(** [handle_client] of [common.py], around [process_audio]. *)
Inductive handle_client : state -> state -> Prop :=
| ready_sent s :
    pc s = AtSendReady ->
    handle_client s (goto s AtRegister [Sent OReady])
| ready_raises s :
    pc s = AtSendReady ->
    handle_client s (goto s Raised [])
| registers s :
    (* the first statement of [process_audio] in both servers *)
    pc s = AtRegister ->
    handle_client s
      (St AtConnect (<[client_id := websocket]> (active_clients s)) (session s)
          (ws_task s) (send_task s) (recv_task s) (trace s))
| excepts s e :
    pc s = AtExcept e ->
    handle_client s (goto s AtFinally (except_note e))
| finally s :
    pc s = AtFinally ->
    handle_client s
      (St Returned (cleanup client_id (active_clients s)) (session s)
          (ws_task s) (send_task s) (recv_task s)
          (trace s ++ if removes client_id (active_clients s)
                      then [Unregistered] else [])).

(** Other connections add and remove their own entries. *)
Inductive peers : state -> state -> Prop :=
| peer_registers s w :
    py_id w <> client_id ->
    peers s (St (pc s) (<[py_id w := w]> (active_clients s)) (session s)
                (ws_task s) (send_task s) (recv_task s) (trace s))
| peer_cleans_up s w :
    py_id w <> client_id ->
    peers s (St (pc s) (cleanup (py_id w) (active_clients s)) (session s)
                (ws_task s) (send_task s) (recv_task s) (trace s)).

(** The receiver writes a frame to the client while it runs. *)
Inductive receiver_sends : state -> state -> Prop :=
| recv_sends s f :
    recv_task s = Running ->
    receiver_sends s (goto s (pc s) [Sent f]).

(** *** [process_audio] of [archive/main.py] *)
Inductive archive_supervisor : state -> state -> Prop :=
| a_common s s' : handle_client s s' -> archive_supervisor s s'
| a_connect_ok s :
    pc s = AtConnect ->
    archive_supervisor s
      (St AtSendConnected (active_clients s) Open
          (ws_task s) (send_task s) (recv_task s) (trace s ++ [Connected]))
| a_connect_fails s :
    (* caught by [except Exception] of [process_audio], which returns *)
    pc s = AtConnect ->
    archive_supervisor s (goto s AtFinally [ConnectFailed; LoggedError])
| a_connected_sent s :
    pc s = AtSendConnected ->
    archive_supervisor s (goto s AtCreateTasks [Sent (OConnected Archive.MODEL)])
| a_connected_raises s :
    (* [except Exception: pass] *)
    pc s = AtSendConnected ->
    archive_supervisor s (goto s AtCreateTasks [])
| a_create s :
    pc s = AtCreateTasks ->
    archive_supervisor s
      (St AtWait (active_clients s) (session s) Running Running Running (trace s))
| a_wait s :
    pc s = AtWait ->
    is_done (ws_task s) || is_done (recv_task s) = true ->
    archive_supervisor s (goto s AtCancel [])
| a_cancel s :
    pc s = AtCancel ->
    archive_supervisor s
      (St AtGather (active_clients s) (session s)
          (cancel (ws_task s)) (cancel (send_task s)) (cancel (recv_task s))
          (trace s ++ cancel_notes s))
| a_gather s :
    pc s = AtGather ->
    all_done s = true ->
    archive_supervisor s (goto s (AtExitSession None) [])
| a_exit s r :
    pc s = AtExitSession r ->
    archive_supervisor s
      (St AtFinally (active_clients s) Closed
          (ws_task s) (send_task s) (recv_task s) (trace s ++ [SessionClosed])).

(** Every task of [archive/main.py] handles its own exceptions: a
    running task finishes on its own (disconnect, end of stream, failed
    commit), a cancelled one when it observes the cancellation.  [outcome]
    is the exception that left the loop of the task, if any; the task logs
    an error where its handlers do, and in no case ends as failed. *)
Inductive archive_tasks : state -> state -> Prop :=
| a_finishes s t outcome :
    status_of s t = Running \/ status_of s t = CancelRequested ->
    archive_tasks s (set_status s t (Done false) (task_notes t outcome)).

Definition archive_step (s s' : state) : Prop :=
  archive_supervisor s s' \/ archive_tasks s s' \/ receiver_sends s s' \/ peers s s'.

(** *** [process_audio] of [server.py] *)
Inductive server_supervisor : state -> state -> Prop :=
| s_common s s' : handle_client s s' -> server_supervisor s s'
| s_connect_ok s :
    pc s = AtConnect ->
    server_supervisor s
      (St AtCreateTasks (active_clients s) Open
          (ws_task s) (send_task s) (recv_task s) (trace s ++ [Connected]))
| s_connect_fails s e :
    (* nothing in [process_audio] catches it *)
    pc s = AtConnect ->
    server_supervisor s (goto s (AtExcept e) [ConnectFailed])
| s_create s :
    pc s = AtCreateTasks ->
    server_supervisor s
      (St AtJoin (active_clients s) (session s) Running Running Running (trace s))
| s_abort s :
    (* a task failed: the group cancels the tasks still running *)
    pc s = AtJoin ->
    any_failed s = true ->
    any_running s = true ->
    server_supervisor s
      (St AtJoin (active_clients s) (session s)
          (cancel (ws_task s)) (cancel (send_task s)) (cancel (recv_task s))
          (trace s ++ cancel_notes s))
| s_join s :
    pc s = AtJoin ->
    all_done s = true ->
    server_supervisor s
      (goto s (AtExitSession (if any_failed s then Some ExceptionGroup else None)) [])
| s_exit s r :
    pc s = AtExitSession r ->
    server_supervisor s
      (St (match r with Some e => AtExcept e | None => AtFinally end)
          (active_clients s) Closed
          (ws_task s) (send_task s) (recv_task s) (trace s ++ [SessionClosed])).

(** The tasks of [server.py]: the router returns when the client closes
    cleanly; the sender and the receiver loop for ever; any task can
    fail with an exception, nothing being caught around the loops. *)
Inductive server_tasks : state -> state -> Prop :=
| s_router_returns s :
    ws_task s = Running ->
    server_tasks s (set_status s WsTask (Done false) [Finished WsTask])
| s_fails s t :
    status_of s t = Running ->
    server_tasks s (set_status s t (Done true) [Finished t])
| s_cancelled s t :
    status_of s t = CancelRequested ->
    server_tasks s (set_status s t (Done false) [Finished t]).

Definition server_step (s s' : state) : Prop :=
  server_supervisor s s' \/ server_tasks s s' \/ receiver_sends s s' \/ peers s s'.

End Connection.

(** *** Tearing down by cancellation

    What the supervising coroutine brings about by itself: its own steps,
    and the tasks it has cancelled observing the cancellation.  No task
    ends on its own in these steps. *)
Inductive archive_cancelled : state -> state -> Prop :=
| a_observes s t :
    status_of s t = CancelRequested ->
    archive_cancelled s
      (set_status s t (Done false) (task_notes t (Some CancelledError))).

Definition archive_teardown_step (w : websocket) (s s' : state) : Prop :=
  archive_supervisor w s s' \/ archive_cancelled s s'.

Inductive server_cancelled : state -> state -> Prop :=
| s_observes s t :
    status_of s t = CancelRequested ->
    server_cancelled s (set_status s t (Done false) [Finished t]).

Definition server_teardown_step (w : websocket) (s s' : state) : Prop :=
  server_supervisor w s s' \/ server_cancelled s s'.

(** The frames written to the client, in order. *)
Definition sent (tr : list note) : list out_frame :=
  omap (fun n => match n with Sent f => Some f | _ => None end) tr.

Definition is_close (n : note) : bool :=
  match n with SessionClosed => true | _ => false end.

Definition is_unregister (n : note) : bool :=
  match n with Unregistered => true | _ => false end.

Definition is_error (n : note) : bool :=
  match n with LoggedError => true | _ => false end.

Definition is_cancel (n : note) : bool :=
  match n with Cancelled _ => true | _ => false end.

Definition is_task_error (n : note) : bool :=
  match n with TaskError _ => true | _ => false end.

Fixpoint count (p : note -> bool) (tr : list note) : nat :=
  match tr with
  | [] => O
  | n :: rest => ((if p n then 1 else 0) + count p rest)%nat
  end.

End Lifecycle.


(** ** Vocabulary of the statements *)

(** What a queue can go through: a [put] or a [get] that does not suspend, a
    [task_done] that does not raise. *)
Inductive queue_step {A : Type} : queue A -> queue A -> Prop :=
| qs_put q x q' : put q x = Some q' -> queue_step q q'
| qs_get q x q' : get q = Some (x, q') -> queue_step q q'
| qs_task_done q q' : task_done q = Ret q' -> queue_step q q'.




(** A [text] control frame carrying the truthy payload [text]. *)
Definition text_frame (message : frame) (text : json) : Prop :=
  exists kv, wire_of message = Text
             /\ json_loads message = Ret (JObj kv)
             /\ kv !! "type" = Some (JStr "text")
             /\ kv !! "data" = Some text
             /\ truthy text = true.

(** ** Sample inputs *)

(** The text frame [{"type": "text", "data": "explain gravity"}]. *)
Definition gravity_frame : frame :=
  Frame Text
    (Ret (JObj (list_to_map [("type", JStr "text"); ("data", JStr "explain gravity")])))
    (Raise BinasciiError) (Raise TypeError).

(** A text frame that is not JSON, such as [hello]. *)
Definition garbage_frame : frame :=
  Frame Text (Raise JSONDecodeError) (Raise JSONDecodeError) (Raise JSONDecodeError).


(** The binary frame [b"RIFF"]: four bytes that are text but not JSON. *)
Definition riff_bytes : bytes := [Byte.x52; Byte.x49; Byte.x46; Byte.x46].

Definition riff_frame : frame :=
  Frame (Binary riff_bytes)
    (Raise JSONDecodeError) (Raise JSONDecodeError) (Raise JSONDecodeError).

(** The text frame [[]]: JSON, but a list and not an object. *)
Definition list_frame : frame :=
  Frame Text (Ret (JArr [])) (Raise AttributeError) (Raise AttributeError).

(** [{"type": "audio", "data": "AAAA"}] and
    [{"type": "audio", "data": "AAAA", "rate": 16000}]: three zero bytes. *)
Definition zeros : bytes := [Byte.x00; Byte.x00; Byte.x00].

Definition audio_frame_no_rate : frame :=
  Frame Text
    (Ret (JObj (list_to_map [("type", JStr "audio"); ("data", JStr "AAAA")])))
    (Ret zeros) (Raise TypeError).

Definition audio_frame : frame :=
  Frame Text
    (Ret (JObj (list_to_map [("type", JStr "audio"); ("data", JStr "AAAA");
                             ("rate", JInt 16000)])))
    (Ret zeros) (Ret 16000).

(** [{"type": "end"}] *)
Definition end_frame : frame :=
  Frame Text (Ret (JObj (list_to_map [("type", JStr "end")]))) (Ret []) (Raise TypeError).

(** ** Invariants of the reader/sender pipeline *)

(** The item the reader holds while its [put] waits for room. *)
Definition held (rd : Pipeline.reader_state) : list Archive.item :=
  match rd with Pipeline.Putting it _ => [it] | _ => [] end.

(** The reader is in its loop and will enqueue [its] for the frames left. *)
Definition reader_will_enqueue (s : Pipeline.state) (its : list Archive.item) : Prop :=
  match Pipeline.ws_task s with
  | Pipeline.Reading csr | Pipeline.Putting _ csr => Pipeline.enqueues csr (Pipeline.inbox s) its
  | Pipeline.ReaderDone => False
  end.

(** Everything not yet forwarded: queued, held by the reader, still to be read. *)
Definition pending (s : Pipeline.state) (its : list Archive.item) : list Archive.item :=
  items (Pipeline.audio_queue s) ++ held (Pipeline.ws_task s) ++ its.

(** [all] are the items of the whole run, in the order the reader enqueues
    them: the calls issued so far followed by the calls of the pending items
    are the calls of [all]; the sender runs as long as something is pending;
    the queue respects its capacity and its count of unfinished tasks. *)
Definition pipeline_inv (all : list Archive.item) (s : Pipeline.state) : Prop :=
  exists its,
    reader_will_enqueue s its
    /\ map Archive.call_of all
       = Pipeline.calls s ++ map Archive.call_of (pending s its)
    /\ (Pipeline.send_task s = true \/ pending s its = [])
    /\ maxsize (Pipeline.audio_queue s) = Archive.QUEUE_MAXSIZE
    /\ qsize (Pipeline.audio_queue s) <= Archive.QUEUE_MAXSIZE
    /\ unfinished_tasks (Pipeline.audio_queue s) = length (items (Pipeline.audio_queue s)).

(** The environment cancels nothing, and a commit that raises is the last
    call of the run. *)
Definition sender_survives (o : oracle) (all : list Archive.item) : Prop :=
  forall n e, o n = Some e ->
    e <> CancelledError
    /\ (map Archive.call_of all !! n = Some SendEndOfTurn -> S n = length all).

(** Steps still possible from a state, at most. *)
Definition fuel (s : Pipeline.state) : nat :=
  3 * length (Pipeline.inbox s)
  + 2 * length (held (Pipeline.ws_task s))
  + length (items (Pipeline.audio_queue s)).

(** The calls of a turn: one forward per chunk, then the commit. *)
Definition forward (c : bytes * Z) : event :=
  SendRealtimeInput c.1 (Mime c.2 (Some 1)).

Definition turn_calls (chunks : list (bytes * Z)) : list event :=
  map forward chunks ++ [SendEndOfTurn].

(** The items of a turn: its chunks, then the sentinel of the [end] frame. *)
Definition turn_items (chunks : list (bytes * Z)) : list Archive.item :=
  map Pipeline.chunk_of chunks ++ [Archive.Sentinel].

(** Two turns: three audio frames (the second without a rate) closed by
    [end], then a frame that is not JSON, one audio frame and [end]. *)
Definition sample_frames : list frame :=
  [audio_frame; audio_frame_no_rate; audio_frame; end_frame;
   garbage_frame; audio_frame_no_rate; end_frame].

Definition sample_turns : list (list (bytes * Z)) :=
  [[(zeros, 16000); (zeros, 16000); (zeros, 16000)]; [(zeros, 16000)]].

(** Nine audio frames in a row, and the state in which the reader has put
    eight chunks and holds the ninth while the sender has not run yet. *)
Definition nine_frames : list frame := replicate 9 audio_frame.

Definition blocked_state : Pipeline.state :=
  Pipeline.State [] (Pipeline.Putting (Archive.Chunk zeros 16000) (Some 16000))
    (Queue 8 (replicate 8 (Archive.Chunk zeros 16000)) 8) true [].

(** ** Vocabulary for traces of sent frames *)

(** Every [turn_complete] whose send returned is followed at once by
    [ready_for_input]. *)
Definition turn_complete_answered (o : oracle) (t : list event) : Prop :=
  forall i, t !! i = Some (WsSend OTurnComplete) -> o i = None ->
            t !! S i = Some (WsSend OReadyForInput).

(** Sum of a weight over a trace. *)
Fixpoint total (c : event -> nat) (t : list event) : nat :=
  match t with
  | [] => O
  | ev :: rest => (c ev + total c rest)%nat
  end.

Definition is_interrupted_frame (ev : event) : nat :=
  match ev with WsSend (OInterrupted _) => 1 | _ => 0 end.

Definition is_ready_for_input (ev : event) : nat :=
  match ev with WsSend OReadyForInput => 1 | _ => 0 end.

Definition is_turn_complete (ev : event) : nat :=
  match ev with WsSend OTurnComplete => 1 | _ => 0 end.

(** The response carries the interruption flag. *)
Definition interruption (r : response) : nat :=
  match content r with
  | Some sc => if flag (interrupted sc) then 1 else 0
  | None => 0
  end.

Definition interruptions (rs : list response) : nat :=
  sum_list_with interruption rs.

(** [m] extends the trace by calls of total weight at most [k], and of
    weight exactly [k] when it returns. *)
Definition adds {A} (c : event -> nat) (m : M A) (k : nat) : Prop :=
  forall o t, exists l,
    snd (m o t) = t ++ l
    /\ (total c l <= k)%nat
    /\ (forall a, fst (m o t) = Ret a -> total c l = k).

(** Sample responses of the remote session. *)
Definition turn_complete_response : response :=
  Response None
    (Some (ServerContent None (Some true) None (Some (Some "Hi")) None)) None None.

Definition interrupted_response : response :=
  Response None (Some (ServerContent None None (Some true) None None)) None None.

Definition audio_response : response :=
  Response (Some zeros)
    (Some (ServerContent (Some (Some [Part (Some (Some zeros))])) None None None None))
    None None.

(** [m], run under [o], keeps every returned [turn_complete] answered. *)
Definition keeps_answered {A} (o : oracle) (m : M A) : Prop :=
  forall t, turn_complete_answered o t -> turn_complete_answered o (snd (m o t)).

(** One turn of the remote session: two audio events, then an interruption. *)
Definition interrupted_turn : list (list response) :=
  [[audio_response; audio_response; interrupted_response]].

(** ** Invariants of a connection *)

Module Inv.
Import Common Lifecycle.

Definition not_created (st : status) : bool :=
  match st with NotCreated => true | _ => false end.

Definition running_or_done (st : status) : bool :=
  match st with Running | Done _ => true | _ => false end.

Definition cancelled_or_done (st : status) : bool :=
  match st with CancelRequested | Done _ => true | _ => false end.

Definition created (st : status) : bool :=
  match st with NotCreated => false | _ => true end.

(** All three tasks satisfy [f]. *)
Definition tasks (f : status -> bool) (s : state) : Prop :=
  f (ws_task s) = true /\ f (send_task s) = true /\ f (recv_task s) = true.

(** [ready] was the first thing that happened. *)
Definition ready_first (tr : list note) : Prop :=
  exists rest, tr = Sent OReady :: rest.

(** Nothing has been torn down yet: no close, no removal, no error logged. *)
Definition untouched (s : state) : Prop :=
  count is_close (trace s) = O
  /\ count is_unregister (trace s) = O
  /\ count is_error (trace s) = O.

(** The session block has been left: either the session was opened and is
    closed, once, with every task finished; or it was never opened. *)
Definition torn_down (s : state) : Prop :=
  (session s = Closed /\ count is_close (trace s) = 1%nat /\ tasks is_done s)
  \/ (session s = NotOpened /\ count is_close (trace s) = O /\ tasks not_created s).

Definition registered (w : websocket) (s : state) : Prop :=
  active_clients s !! py_id w = Some w.

Definition at_point (w : websocket) (s : state) : Prop :=
  match pc s with
  | AtSendReady | Raised =>
      trace s = [] /\ session s = NotOpened /\ tasks not_created s
  | AtRegister =>
      ready_first (trace s) /\ untouched s
      /\ session s = NotOpened /\ tasks not_created s
  | AtConnect =>
      ready_first (trace s) /\ untouched s /\ registered w s
      /\ session s = NotOpened /\ tasks not_created s
  | AtSendConnected | AtCreateTasks =>
      ready_first (trace s) /\ untouched s /\ registered w s
      /\ session s = Open /\ tasks not_created s
  | AtWait | AtCancel =>
      ready_first (trace s) /\ untouched s /\ registered w s
      /\ session s = Open /\ tasks running_or_done s
  | AtGather =>
      ready_first (trace s) /\ untouched s /\ registered w s
      /\ session s = Open /\ tasks cancelled_or_done s
  | AtJoin =>
      ready_first (trace s) /\ untouched s /\ registered w s
      /\ session s = Open /\ tasks created s
  | AtExitSession _ =>
      ready_first (trace s) /\ untouched s /\ registered w s
      /\ session s = Open /\ tasks is_done s
  | AtExcept _ | AtFinally =>
      ready_first (trace s) /\ count is_unregister (trace s) = O
      /\ registered w s /\ torn_down s
  | Returned =>
      ready_first (trace s) /\ count is_unregister (trace s) = 1%nat
      /\ active_clients s !! py_id w = None /\ torn_down s
  end.

(** On [archive/main.py] no exception reaches [handle_client], and an error
    is logged only when the session could not be opened. *)
Definition archive_quiet (s : state) : Prop :=
  (forall e, pc s <> AtExcept e) /\ pc s <> AtJoin
  /\ (session s <> NotOpened -> count is_error (trace s) = O).

End Inv.

(** A connection of [archive/main.py] in which the client disconnects and
    the remote stream ends before the supervisor runs again. *)
Definition sample_socket : Common.websocket := Common.Websocket 140230.

Definition both_ended_run : list Lifecycle.note :=
  [Lifecycle.Sent OReady; Lifecycle.Connected;
   Lifecycle.Sent (OConnected Archive.MODEL);
   Lifecycle.Finished Lifecycle.WsTask; Lifecycle.Finished Lifecycle.RecvTask;
   Lifecycle.Cancelled Lifecycle.SendTask; Lifecycle.Finished Lifecycle.SendTask;
   Lifecycle.SessionClosed; Lifecycle.Unregistered].

(** A connection of [server.py] after a clean disconnect of the client: the
    router has returned, the sender and the receiver are still running. *)
Definition disconnected_state : Lifecycle.state :=
  Lifecycle.St Lifecycle.AtJoin {[ 140230 := sample_socket ]} Lifecycle.Open
    (Lifecycle.Done false) Lifecycle.Running Lifecycle.Running
    [Lifecycle.Sent OReady; Lifecycle.Connected; Lifecycle.Finished Lifecycle.WsTask].

(** The state that [both_ended_run] leads to, from an empty registry. *)
Definition both_ended_state : Lifecycle.state :=
  Lifecycle.St Lifecycle.Returned ∅ Lifecycle.Closed
    (Lifecycle.Done false) (Lifecycle.Done false) (Lifecycle.Done false)
    both_ended_run.

(** The session of [archive/main.py] failed to open: [ready] was sent, the
    error logged, the entry removed. *)
Definition connect_failed_state : Lifecycle.state :=
  Lifecycle.St Lifecycle.Returned ∅ Lifecycle.NotOpened
    Lifecycle.NotCreated Lifecycle.NotCreated Lifecycle.NotCreated
    [Lifecycle.Sent OReady; Lifecycle.ConnectFailed; Lifecycle.LoggedError;
     Lifecycle.Unregistered].

(** A connection of [archive/main.py] in which the client has disconnected
    (the reader has ended) while the sender and the receiver are running. *)
Definition reader_ended_state : Lifecycle.state :=
  Lifecycle.St Lifecycle.AtWait {[ 140230 := sample_socket ]} Lifecycle.Open
    (Lifecycle.Done false) Lifecycle.Running Lifecycle.Running
    [Lifecycle.Sent OReady; Lifecycle.Connected;
     Lifecycle.Sent (OConnected Archive.MODEL);
     Lifecycle.Finished Lifecycle.WsTask].


(** ** More of the routers: vocabulary *)

(** An [audio] control frame whose payload is truthy and decodes to [b]. *)
Definition audio_payload (message : frame) (kv : gmap string json) (b : bytes) : Prop :=
  json_loads message = Ret (JObj kv)
  /\ kv !! "type" = Some (JStr "audio")
  /\ truthy (default (JStr "") (kv !! "data")) = true
  /\ b64decode_data message = Ret b.

(** [data.get("rate")] of the frame's object. *)
Definition declared_rate (kv : gmap string json) : json := default JNull (kv !! "rate").

(** [json.loads] returned something that is not a [dict]. *)
Definition not_an_object (data : json) : Prop :=
  match data with JObj _ => False | _ => True end.

(** The calls of the sender of [archive/main.py], as a weight. *)
Definition is_sender_call (ev : event) : nat :=
  match ev with SendRealtimeInput _ _ | SendEndOfTurn => 1 | _ => 0 end.

(** [{"type": "close"}] and [{"type": "audio"}] (no payload). *)
Definition close_frame : frame :=
  Frame Text (Ret (JObj (list_to_map [("type", JStr "close")]))) (Ret []) (Raise TypeError).

Definition empty_audio_frame : frame :=
  Frame Text (Ret (JObj (list_to_map [("type", JStr "audio")]))) (Ret []) (Raise TypeError).

(** [{"type": "audio", "data": "AAA"}]: a payload that is not base64. *)
Definition bad_base64_frame : frame :=
  Frame Text
    (Ret (JObj (list_to_map [("type", JStr "audio"); ("data", JStr "AAA")])))
    (Raise BinasciiError) (Raise TypeError).

(** ** The stream of the remote session

    What one [session.receive()] yields: the responses, and the exception
    that ends the iteration when the stream fails instead of ending. *)
Record stream := Stream {
  yielded : list response;
  failure : option exn;
}.

(** [async for response in session.receive(): body] *)
Definition async_for_stream (body : response -> M unit) (s : stream) : M unit :=
  async_for body (yielded s) ;;;
  match failure s with
  | Some e => raise e
  | None => ret tt
  end.

(** One of the streams fails with [e]. *)
Definition fails_with (turns : list stream) (e : exn) : Prop :=
  exists s, In s turns /\ failure s = Some e.

(** ** The loops of [server.py] *)
Module ServerTasks.

(** [handle_websocket_messages]: [async for message in websocket] over the
    frames the transport delivers; a [put] that would suspend (a queue with
    a capacity, full) stops the run where it is. *)
Fixpoint handle_websocket_messages (frames : list frame) (q : queue bytes)
  : M (queue bytes) :=
  match frames with
  | [] => ret q
  | message :: rest =>
      a <- Server.handle_websocket_messages_body message ;;
      match a with
      | Server.Enqueue raw =>
          match put q raw with
          | Some q' => handle_websocket_messages rest q'
          | None => ret q
          end
      | Server.Log _ | Server.Nothing => handle_websocket_messages rest q
      end
  end.

(** [process_and_send_audio]: at most [n] iterations of [while True]; the
    run stops where [get] would suspend (empty queue) and where an
    exception leaves the loop.  The queue is returned as the loop leaves
    it: an item whose send raised has been taken and not marked done. *)
Fixpoint process_and_send_audio (n : nat) (q : queue bytes) (o : oracle)
    (t : list event) : pyres unit * queue bytes * list event :=
  match n with
  | O => (Ret tt, q, t)
  | S n' =>
      match get q with
      | None => (Ret tt, q, t)
      | Some (data, q1) =>
          match Server.process_and_send_audio_body data q1 o t with
          | (Ret q2, t') => process_and_send_audio n' q2 o t'
          | (Raise e, t') => (Raise e, q1, t')
          end
      end
  end.

(** The call that forwards one chunk. *)
Definition forward (data : bytes) : event :=
  SendRealtimeInput data (Mime Server.SEND_SAMPLE_RATE None).

(** [receive_and_play] over streams that can fail: [while True] around one
    [session.receive()] per turn, nothing caught. *)
Definition receive_and_play (turns : list stream) : M unit :=
  async_for (async_for_stream Server.receive_and_play_body) turns.

End ServerTasks.

(** The payloads of the binary frames among [frames], in order. *)
Definition binaries (frames : list frame) : list bytes :=
  omap isinstance_bytes frames.

(** No decoder result of the frames is a cancellation. *)
Definition not_cancelled (frames : list frame) : Prop :=
  Forall (fun message => json_loads message <> Raise CancelledError) frames.

(** The calls from position [length t] on, [k] of them, all return. *)
Definition returns_from (o : oracle) (t : list event) (k : nat) : Prop :=
  forall i, (i < k)%nat -> o (length t + i)%nat = None.

(** Frames of a [server.py] session: audio, an [end], garbage, audio. *)
Definition server_frames : list frame :=
  [riff_frame; end_frame; garbage_frame; gravity_frame; riff_frame].

(** The [k]-th awaited call of a run raises [e], every other one returns. *)
Definition fails_at (k : nat) (e : exn) : oracle :=
  fun n => if (n =? k)%nat then Some e else None.

(** Three chunks waiting on the queue of [server.py]. *)
Definition three_chunks : queue bytes := Queue 0 [riff_bytes; zeros; riff_bytes] 3.

(** ** The router and the sender of [server.py] running together

    As for [archive/main.py], a step is one iteration of a task and the
    schedules of the event loop are the step sequences.  The router ends
    when an iteration raises past its handlers, the sender when its send
    or its [task_done] raises. *)
Module ServerPipeline.

Record state := State {
  inbox : list frame;          (* frames sent by the client, not yet read *)
  router : bool;               (* [handle_websocket_messages] is in its loop *)
  audio_queue : queue bytes;
  sender : bool;               (* [process_and_send_audio] is in its loop *)
  calls : list event;          (* the awaited calls issued so far *)
}.

(** What the router does to the queue for the action of a frame. *)
Definition route (a : Server.action) (q : queue bytes) : option (queue bytes) :=
  match a with
  | Server.Enqueue raw => put q raw
  | Server.Log _ | Server.Nothing => Some q
  end.

(** The queue and the status of the sender after an iteration that took
    an item and left the queue as [q1]. *)
Definition after_send (r : pyres (queue bytes)) (q1 : queue bytes)
  : queue bytes * bool :=
  match r with
  | Ret q2 => (q2, true)
  | Raise _ => (q1, false)
  end.

Inductive step (o : oracle) : state -> state -> Prop :=
| step_route message rest q snd t a t' q' :
    Server.handle_websocket_messages_body message o t = (Ret a, t') ->
    route a q = Some q' ->
    step o (State (message :: rest) true q snd t) (State rest true q' snd t')
| step_route_raises message rest q snd t e t' :
    Server.handle_websocket_messages_body message o t = (Raise e, t') ->
    step o (State (message :: rest) true q snd t) (State rest false q snd t')
| step_send data inb rt q q1 r t t' :
    get q = Some (data, q1) ->
    Server.process_and_send_audio_body data q1 o t = (r, t') ->
    step o (State inb rt q true t)
           (State inb rt (after_send r q1).1 (after_send r q1).2 t').

Definition start (frames : list frame) : state :=
  State frames true Server.new_audio_queue true [].

Definition reachable (o : oracle) (frames : list frame) (s : state) : Prop :=
  rtc (step o) (start frames) s.

Definition quiescent (o : oracle) (s : state) : Prop :=
  forall s', ~ step o s s'.

(** Steps still possible from a state, at most. *)
Definition fuel (s : state) : nat :=
  2 * length (inbox s) + length (items (audio_queue s)).

End ServerPipeline.

(** The calls [server.py] owes the session for [frames]. *)
Definition server_calls (frames : list frame) : list event :=
  map ServerTasks.forward (binaries frames).

(** What is still to be forwarded in a state of [server.py]. *)
Definition server_pending (s : ServerPipeline.state) : list bytes :=
  items (ServerPipeline.audio_queue s) ++ binaries (ServerPipeline.inbox s).

Definition server_pipeline_inv (frames : list frame) (s : ServerPipeline.state) : Prop :=
  server_calls frames
  = ServerPipeline.calls s ++ map ServerTasks.forward (server_pending s)
  /\ maxsize (ServerPipeline.audio_queue s) = 0
  /\ (ServerPipeline.sender s = true ->
      unfinished_tasks (ServerPipeline.audio_queue s)
      = length (items (ServerPipeline.audio_queue s))).

(** While every call returns and no frame cancels the router, both tasks
    stay in their loops. *)
Definition server_alive (s : ServerPipeline.state) : Prop :=
  ServerPipeline.router s = true /\ ServerPipeline.sender s = true
  /\ not_cancelled (ServerPipeline.inbox s).

(** [server_frames] handled and forwarded. *)
Definition server_final : ServerPipeline.state :=
  ServerPipeline.State [] true (Queue 0 [] 0) true
    [ServerTasks.forward riff_bytes; ServerTasks.forward riff_bytes].

(** ** Failures of awaited calls *)

(** Nothing is caught in [m]: a call that raises is the last call of [m]
    and its exception is the result of [m]; and [m] raises only what a call
    raised, or an exception of its own (one of [own]) after calls that all
    returned. *)
Definition fail_fast {A} (own : exn -> Prop) (m : M A) : Prop :=
  forall o t, exists l,
    snd (m o t) = t ++ l
    /\ (forall i e, (i < length l)%nat -> o (length t + i)%nat = Some e ->
          fst (m o t) = Raise e /\ S i = length l)
    /\ (forall e, fst (m o t) = Raise e ->
          (exists i, S i = length l /\ o (length t + i)%nat = Some e)
          \/ (own e /\ forall i, (i < length l)%nat -> o (length t + i)%nat = None)).

(** The environment cancels nothing: a call that raises raises an
    [Exception]. *)
Definition raises_only_exceptions (o : oracle) : Prop :=
  forall n e, o n = Some e -> is_Exception e = true.

Definition is_close_call (ev : event) : nat :=
  match ev with WsClose => 1 | _ => 0 end.

(** [response] as the receiver of [archive/main.py] sees it once its audio
    has been dealt with. *)
Definition without_data (r : response) : response :=
  Response None (content r) (session_resumption_update r) (go_away r).

(** ** The loops of [archive/main2.py] *)
Module Main2Tasks.

(** [while True: message = await ws.receive() ...] over the messages the
    transport delivers, up to the [break]. *)
Fixpoint client_loop (messages : list Main2.asgi_message) : M unit :=
  match messages with
  | [] => ret tt
  | message :: rest =>
      goes_on <- Main2.pump_client_to_gemini_body message ;;
      if goes_on then client_loop rest else ret tt
  end.

(** [pump_client_to_gemini]: the loop, then [except WebSocketDisconnect]
    and [except Exception], which both only log. *)
Definition pump_client_to_gemini (messages : list Main2.asgi_message) : M unit :=
  try_except (client_loop messages) is_Exception (ret tt).

(** The call that forwards one binary frame. *)
Definition forward (raw : bytes) : event := SendRealtimeInput raw (Mime 16000 None).

(** [pump_gemini_to_client] over a stream that can fail: the [try] encloses
    the iteration, [except Exception] closes the socket of the client. *)
Definition pump_gemini_to_client (s : stream) : M unit :=
  try_except (async_for_stream Main2.pump_gemini_to_client_body s) is_Exception
             (try_except (await WsClose) is_Exception (ret tt)).

End Main2Tasks.

(** The frames received before the client disconnects. *)
Fixpoint received (messages : list Main2.asgi_message) : list frame :=
  match messages with
  | Main2.Receive m :: rest => m :: received rest
  | _ => []
  end.

(** Audio, garbage, audio, the disconnect, and a frame that is never read. *)
Definition main2_messages : list Main2.asgi_message :=
  [Main2.Receive riff_frame; Main2.Receive garbage_frame; Main2.Receive riff_frame;
   Main2.Disconnect; Main2.Receive riff_frame].

(** ** One connection among others *)

(** A step of the connection itself, on either server: its supervising
    coroutine, one of its tasks, a frame written by its receiver. *)
Definition own_step (w : Common.websocket) (s s' : Lifecycle.state) : Prop :=
  Lifecycle.archive_supervisor w s s' \/ Lifecycle.server_supervisor w s s'
  \/ Lifecycle.archive_tasks s s' \/ Lifecycle.server_tasks s s'
  \/ Lifecycle.receiver_sends s s'.

(** Another client, connected before [sample_socket]. *)
Definition peer_socket : Common.websocket := Common.Websocket 7.

Definition registering_state : Lifecycle.state :=
  Lifecycle.St Lifecycle.AtRegister {[ 7 := peer_socket ]} Lifecycle.NotOpened
    Lifecycle.NotCreated Lifecycle.NotCreated Lifecycle.NotCreated
    [Lifecycle.Sent OReady].

Definition registered_state : Lifecycle.state :=
  Lifecycle.St Lifecycle.AtConnect
    (<[ 140230 := sample_socket ]> {[ 7 := peer_socket ]}) Lifecycle.NotOpened
    Lifecycle.NotCreated Lifecycle.NotCreated Lifecycle.NotCreated
    [Lifecycle.Sent OReady].

(** Where the [Client disconnected] line of [handle_client] can come from:
    it is logged only when the session could not be opened, and what
    leaves the task group is an exception group. *)
Definition disconnect_inv (s : Lifecycle.state) : Prop :=
  (In Lifecycle.LoggedDisconnect (Lifecycle.trace s) ->
   In Lifecycle.ConnectFailed (Lifecycle.trace s))
  /\ (forall e, Lifecycle.pc s = Lifecycle.AtExcept e ->
        e = ExceptionGroup \/ In Lifecycle.ConnectFailed (Lifecycle.trace s))
  /\ (forall e, Lifecycle.pc s = Lifecycle.AtExitSession (Some e) ->
        e = ExceptionGroup).

(** Before the session is opened, and for good when it could not be
    opened, the client has been sent [ready] and nothing else. *)
Definition only_ready_inv (s : Lifecycle.state) : Prop :=
  (Lifecycle.pc s = Lifecycle.AtRegister \/ Lifecycle.pc s = Lifecycle.AtConnect
   \/ In Lifecycle.ConnectFailed (Lifecycle.trace s) ->
   Lifecycle.sent (Lifecycle.trace s) = [OReady]
   /\ Lifecycle.recv_task s <> Lifecycle.Running)
  /\ (In Lifecycle.ConnectFailed (Lifecycle.trace s) ->
      (exists e, Lifecycle.pc s = Lifecycle.AtExcept e)
      \/ Lifecycle.pc s = Lifecycle.AtFinally \/ Lifecycle.pc s = Lifecycle.Returned).

(** A connection of [server.py] whose receiver has failed while the router
    and the sender are running. *)
Definition receiver_failed_state : Lifecycle.state :=
  Lifecycle.St Lifecycle.AtJoin {[ 140230 := sample_socket ]} Lifecycle.Open
    Lifecycle.Running Lifecycle.Running (Lifecycle.Done true)
    [Lifecycle.Sent OReady; Lifecycle.Connected; Lifecycle.Finished Lifecycle.RecvTask].

(** ** The sender of [archive/main.py] between [get] and [task_done]

    [Pipeline.step] runs an iteration of the sender as one step, which is
    enough for the order of the calls.  The count of unfinished tasks is
    about the inside of an iteration: the item has been taken, its call is
    awaited, [task_done] is still to come, and the reader runs meanwhile.
    Here an iteration is two steps. *)
Module InFlight.
Import Archive.

Inductive sender_state :=
| Waiting                                     (* at [await audio_queue.get()] *)
| Sending (it : item) (issued : list event)   (* in the call for [it], issued after [issued] *)
| SenderDone.

Record state := State {
  inbox : list frame;
  ws_task : Pipeline.reader_state;
  audio_queue : queue item;
  send_task : sender_state;
  calls : list event;
}.

Definition after_call (goes_on : bool) : sender_state :=
  if goes_on then Waiting else SenderDone.

Inductive step (o : oracle) : state -> state -> Prop :=
| step_read message rest csr q snd t r t' :
    ws_reader_body csr message o t = (r, t') ->
    step o (State (message :: rest) (Pipeline.Reading csr) q snd t)
           (State rest (Pipeline.after_body r) q snd t')
| step_put it csr inb q q' snd t :
    put q it = Some q' ->
    step o (State inb (Pipeline.Putting it csr) q snd t)
           (State inb (Pipeline.Reading csr) q' snd t)
| step_get it inb rd q q1 t :
    get q = Some (it, q1) ->
    step o (State inb rd q Waiting t)
           (State inb rd q1 (Sending it t) (t ++ [call_of it]))
| step_done it issued inb rd q t goes_on q' t' :
    audio_sender_body it q o issued = (goes_on, q', t') ->
    step o (State inb rd q (Sending it issued) t)
           (State inb rd q' (after_call goes_on) t).

Definition start (frames : list frame) : state :=
  State frames (Pipeline.Reading None) new_audio_queue Waiting [].

Definition reachable (o : oracle) (frames : list frame) (s : state) : Prop :=
  rtc (step o) (start frames) s.

(** The items taken and not yet marked done. *)
Definition in_flight (snd : sender_state) : nat :=
  match snd with Sending _ _ => 1 | _ => 0 end.

(** A state of [Pipeline], the sender being between two iterations. *)
Definition between (s : Pipeline.state) : state :=
  State (Pipeline.inbox s) (Pipeline.ws_task s) (Pipeline.audio_queue s)
        (after_call (Pipeline.send_task s)) (Pipeline.calls s).

End InFlight.

(** Nine audio frames in: the sender has taken the first chunk and is in
    its call, the reader has put the other eight meanwhile. *)
Definition in_flight_state : InFlight.state :=
  InFlight.State [] (Pipeline.Reading (Some 16000))
    (Queue 8 (replicate 8 (Archive.Chunk zeros 16000)) 9)
    (InFlight.Sending (Archive.Chunk zeros 16000) [])
    [Archive.call_of (Archive.Chunk zeros 16000)].





(** * Properties *)

(** ** The queue *)

Section QueueFacts.
Context {A : Type}.
Implicit Types q : queue A.

Lemma put_maxsize q x q' : put q x = Some q' -> maxsize q' = maxsize q.
Proof. unfold put. destruct (full q); [discriminate|]. by intros [= <-]. Qed.

Lemma get_maxsize q x q' : get q = Some (x, q') -> maxsize q' = maxsize q.
Proof. unfold get. destruct (items q); [discriminate|]. by intros [= _ <-]. Qed.

Lemma task_done_maxsize q q' : task_done q = Ret q' -> maxsize q' = maxsize q.
Proof. unfold task_done. destruct (unfinished_tasks q); [discriminate|]. by intros [= <-]. Qed.

Lemma put_items q x q' : put q x = Some q' -> items q' = items q ++ [x].
Proof. unfold put. destruct (full q); [discriminate|]. by intros [= <-]. Qed.

Lemma get_items q x q' : get q = Some (x, q') -> items q = x :: items q'.
Proof. unfold get. destruct (items q); [discriminate|]. by intros [= <- <-]. Qed.

Lemma task_done_items q q' : task_done q = Ret q' -> items q' = items q.
Proof. unfold task_done. destruct (unfinished_tasks q); [discriminate|]. by intros [= <-]. Qed.

(** A bounded queue refuses a [put] exactly when it holds [maxsize] items or more. *)
Lemma put_blocks_iff q x :
  0 < maxsize q -> (put q x = None <-> maxsize q <= qsize q).
Proof.
  intros Hk. unfold put, full.
  destruct (maxsize q <=? 0) eqn:H0; [lia|].
  destruct (maxsize q <=? qsize q) eqn:H1; split; try done; lia.
Qed.

(** An unbounded queue never refuses a [put]. *)
Lemma put_unbounded q x : maxsize q <= 0 -> is_Some (put q x).
Proof.
  intros Hk. unfold put, full.
  destruct (maxsize q <=? 0) eqn:H0; [eauto|lia].
Qed.

Lemma put_room q x q' : 0 < maxsize q -> put q x = Some q' -> qsize q' <= maxsize q.
Proof.
  intros Hk Hput. pose proof (put_items _ _ _ Hput) as Hi.
  unfold put, full in Hput.
  destruct (maxsize q <=? 0) eqn:H0; [lia|].
  destruct (maxsize q <=? qsize q) eqn:H1; [discriminate|].
  unfold qsize in *. rewrite Hi, length_app. simpl. lia.
Qed.

Lemma queue_step_bounded q q' :
  0 < maxsize q -> qsize q <= maxsize q -> queue_step q q' ->
  maxsize q' = maxsize q /\ qsize q' <= maxsize q'.
Proof.
  intros Hk Hb Hs.
  inversion Hs as [? x ? H|? x ? H|? ? H]; subst.
  - rewrite (put_maxsize _ _ _ H). split; [done|]. eapply put_room; eauto.
  - rewrite (get_maxsize _ _ _ H). split; [done|].
    unfold qsize in *. rewrite (get_items _ _ _ H) in Hb. simpl in Hb. lia.
  - rewrite (task_done_maxsize _ _ H). split; [done|].
    unfold qsize in *. by rewrite (task_done_items _ _ H).
Qed.

(** Whatever is done to a queue created with capacity [K > 0], it never
    holds more than [K] items. *)
Lemma queue_never_exceeds K q :
  0 < K -> rtc queue_step (new_queue K) q -> maxsize q = K /\ qsize q <= K.
Proof.
  intros HK. revert q. apply rtc_ind_r.
  - simpl. unfold qsize. simpl. lia.
  - intros q1 q2 Hr Hs [Hm Hb].
    destruct (queue_step_bounded q1 q2) as [Hm' Hb']; [lia|lia|done|].
    split; lia.
Qed.

(** After one [get] from a full queue exactly one [put] goes through. *)
Lemma full_get_put_put q x q1 y z :
  0 < maxsize q -> qsize q = maxsize q -> get q = Some (x, q1) ->
  exists q2, put q1 y = Some q2 /\ put q2 z = None.
Proof.
  intros Hk Hfull Hget.
  pose proof (get_items _ _ _ Hget) as Hi. pose proof (get_maxsize _ _ _ Hget) as Hm.
  assert (qsize q1 = maxsize q - 1) as Hs1.
  { unfold qsize in *. rewrite Hi in Hfull. simpl in Hfull. lia. }
  destruct (put q1 y) as [q2|] eqn:Hput.
  - exists q2. split; [done|].
    apply put_blocks_iff; rewrite (put_maxsize _ _ _ Hput); [lia|].
    unfold qsize in *. rewrite (put_items _ _ _ Hput), length_app. simpl. lia.
  - apply put_blocks_iff in Hput; lia.
Qed.

End QueueFacts.

(** ** The routers *)





(** Frames outside these two classes are not dropped by [archive/main.py]:
    the handlers of [ws_reader] sit outside its loop, so an exception other
    than [JSONDecodeError] ends the reader.  A JSON value that is not an
    object has no [get]; the first audio frame that declares no rate reads
    the local [client_sample_rate] before any assignment.  [server.py]
    catches every exception per frame. *)
Lemma frames_that_end_the_archive_reader :
  Archive.ws_reader_body None list_frame all_return [] = (Raise AttributeError, [])
  /\ Archive.ws_reader_body None audio_frame_no_rate all_return []
     = (Raise UnboundLocalError, [])
  /\ Archive.ws_reader_body (Some 44100) audio_frame_no_rate all_return []
     = (Ret (Archive.PutThenContinue (Archive.Chunk zeros 44100) (Some 44100)), [])
  /\ Pipeline.after_body (Raise UnboundLocalError) = Pipeline.ReaderDone
  /\ Server.handle_websocket_messages_body list_frame all_return []
     = (Ret (Server.Log (Server.LogError AttributeError)), []).
Proof. repeat split. Qed.

(** C6 fails on [server.py]: the sample text frame is logged and nothing
    else; no call on the session is awaited, the trace of calls stays
    empty.  On [archive/main.py] the same frame is sent to the session. *)
Lemma server_text_frame_only_logged :
  Server.handle_websocket_messages_body gravity_frame all_return []
  = (Ret (Server.Log (Server.LogText (JStr "explain gravity"))), [])
  /\ Archive.ws_reader_body None gravity_frame all_return []
     = (Ret (Archive.Continue None), [SendText (JStr "explain gravity")]).
Proof. split; reflexivity. Qed.

(** C6, amended. For a [text] control frame with a truthy payload: the
    reader of [archive/main.py] awaits exactly one
    [session.send(input=text, end_of_turn=True)] and puts nothing on the
    queue (it goes on when the call returns and stops when it raises);
    the routers of [server.py] and [archive/main2.py] send nothing to the
    session and put nothing on a queue, [server.py] only logging the text. *)
Theorem text_frame_routing (message : frame) (text : json) :
  text_frame message text ->
  (forall csr o t,
      Archive.ws_reader_body csr message o t
      = (match o (length t) with
         | None => Ret (Archive.Continue csr)
         | Some e => Raise e
         end, t ++ [SendText text]))
  /\ (forall o t,
      Server.handle_websocket_messages_body message o t
      = (Ret (Server.Log (Server.LogText text)), t))
  /\ (forall o t,
      Main2.pump_client_to_gemini_body (Main2.Receive message) o t = (Ret true, t)).
Proof.
  intros (kv & Hw & Hj & Hty & Hd & Htr). repeat split.
  - intros csr o t. unfold Archive.ws_reader_body. rewrite Hj.
    unfold bind, lift, dict_get, await, ret. rewrite Hty, Hd. simpl. rewrite Htr.
    by destruct (o (length t)).
  - intros o t. unfold Server.handle_websocket_messages_body, isinstance_bytes.
    rewrite Hw. unfold try_except_as, bind, lift, dict_get, ret.
    rewrite Hj, Hty, Hd. reflexivity.
  - intros o t. unfold Main2.pump_client_to_gemini_body.
    rewrite Hw, Hj. unfold dict_get. reflexivity.
Qed.

Lemma text_frame_routing_witness :
  Archive.ws_reader_body (Some 16000) gravity_frame all_return []
  = (Ret (Archive.Continue (Some 16000)), [SendText (JStr "explain gravity")])
  /\ Server.handle_websocket_messages_body gravity_frame all_return []
     = (Ret (Server.Log (Server.LogText (JStr "explain gravity"))), []).
Proof.
  destruct (text_frame_routing gravity_frame (JStr "explain gravity"))
    as (Harchive & Hserver & _).
  - eexists. repeat split; reflexivity.
  - split; [apply Harchive|apply Hserver].
Defined.

(** C8 fails on [archive/main.py]: the binary frame [b"RIFF"] reaches
    [json.loads], is rejected as invalid JSON and dropped; nothing is put
    on the queue.  On [server.py] the same frame is enqueued. *)
Lemma archive_binary_frame_dropped :
  Archive.ws_reader_body (Some 16000) riff_frame all_return []
  = (Ret (Archive.Continue (Some 16000)), [])
  /\ Server.handle_websocket_messages_body riff_frame all_return []
     = (Ret (Server.Enqueue riff_bytes), []).
Proof. split; reflexivity. Qed.

(** C8, amended. On [server.py] every binary frame is put on the audio
    queue as its raw bytes, with no rate attached, whatever the bytes are; the sender forwards
    a dequeued chunk with the fixed rate [SEND_SAMPLE_RATE] = 16000. *)
Theorem server_binary_frame_enqueued (raw : bytes) (loads : pyres json)
    (b64 : pyres bytes) (rt : pyres Z) :
  (forall o t,
      Server.handle_websocket_messages_body (Frame (Binary raw) loads b64 rt) o t
      = (Ret (Server.Enqueue raw), t))
  /\ (forall q : queue bytes, maxsize q = 0 -> is_Some (put q raw))
  /\ (forall q o t,
      snd (Server.process_and_send_audio_body raw q o t)
      = t ++ [SendRealtimeInput raw (Mime Server.SEND_SAMPLE_RATE None)]).
Proof.
  refine (conj _ (conj _ _)).
  - done.
  - intros q Hq. apply put_unbounded. lia.
  - intros q o t. unfold Server.process_and_send_audio_body, bind, await, lift.
    destruct (o (length t)); [done|]. by destruct (task_done q).
Qed.

(** ** The reader and the sender of [archive/main.py] *)

Section PipelineFacts.
Import Archive Pipeline.
Variable o : oracle.

Lemma audio_sender_body_spec it q t goes_on q' t' :
  audio_sender_body it q o t = (goes_on, q', t') ->
  t' = t ++ [call_of it]
  /\ maxsize q' = maxsize q /\ items q' = items q
  /\ (unfinished_tasks q = S (unfinished_tasks q') \/
      (unfinished_tasks q = O /\ q' = q /\ goes_on = false))
  /\ (unfinished_tasks q <> O -> o (length t) = None -> goes_on = true)
  /\ (unfinished_tasks q <> O -> forall e, o (length t) = Some e ->
        goes_on = match it with Chunk _ _ => is_Exception e | Sentinel => false end).
Proof.
  unfold audio_sender_body, await, task_done.
  destruct (unfinished_tasks q) as [|n] eqn:Hu.
  - intros [= <- <- <-]. repeat split; auto; try done.
  - destruct (o (length t)) as [e|] eqn:Ho; intros [= <- <- <-]; simpl;
      repeat split; auto; try done.
    all: try (intros _ e' [= <-]; by destruct it).
    all: try by destruct it.
Qed.

Lemma step_fuel s s' : step o s s' -> (fuel s' < fuel s)%nat.
Proof.
  intros Hs. destruct Hs as [m rest csr q snd t r t' Hb|it csr inb q q' snd t Hp
                            |it inb rd q q1 q2 g t t' Hg Hb]; unfold fuel; simpl.
  - destruct r as [[| |]|]; simpl; lia.
  - rewrite (put_items _ _ _ Hp), length_app. simpl. lia.
  - apply audio_sender_body_spec in Hb as (_ & _ & Hi & _).
    rewrite Hi, (get_items _ _ _ Hg). simpl. lia.
Qed.

Lemma step_or_quiescent s : (exists s', step o s s') \/ quiescent o s.
Proof.
  destruct s as [inb rd q snd t].
  destruct (decide (snd = true /\ items q <> [])) as [[-> Hne]|Hsend].
  { left. destruct (get q) as [[it q1]|] eqn:Hg.
    - destruct (audio_sender_body it q1 o t) as [[g q2] t'] eqn:Hb.
      eexists. by eapply step_send.
    - unfold get in Hg. by destruct (items q). }
  destruct rd as [csr|it csr|].
  - destruct inb as [|m rest].
    + right. intros s' Hs. inversion Hs; subst. apply Hsend.
      split; [done|]. rewrite (get_items _ _ _ H5). done.
    + left. destruct (ws_reader_body csr m o t) as [r t'] eqn:Hb.
      eexists. by eapply step_read.
  - destruct (put q it) as [q'|] eqn:Hp.
    + left. eexists. by eapply step_put.
    + right. intros s' Hs. inversion Hs; subst; [congruence|].
      apply Hsend. split; [done|]. rewrite (get_items _ _ _ H5). done.
  - right. intros s' Hs. inversion Hs; subst. apply Hsend.
    split; [done|]. rewrite (get_items _ _ _ H5). done.
Qed.

(** Every schedule ends: from any state a quiescent state is reached. *)
Lemma runs_to_quiescence s : exists s', rtc (step o) s s' /\ quiescent o s'.
Proof.
  remember (fuel s) as n eqn:Hn. revert s Hn.
  induction n as [n IH] using lt_wf_ind. intros s ->.
  destruct (step_or_quiescent s) as [[s1 Hs]|Hq].
  - destruct (IH (fuel s1) (step_fuel _ _ Hs) s1 eq_refl) as (s' & Hr & Hq).
    exists s'. split; [by eapply rtc_l|done].
  - exists s. split; [apply rtc_refl|done].
Qed.

End PipelineFacts.

Section PipelineOrder.
Import Archive Pipeline.
Variable o : oracle.
Variable all : list item.
Hypothesis Hsurvives : sender_survives o all.

Lemma not_cancelled_is_Exception e : e <> CancelledError -> is_Exception e = true.
Proof. by destruct e. Qed.

Lemma pipeline_inv_start frames :
  enqueues None frames all -> pipeline_inv all (start frames).
Proof.
  intros He. exists all. unfold pending, reader_will_enqueue. simpl.
  repeat split; auto. unfold qsize, QUEUE_MAXSIZE. simpl. lia.
Qed.

Lemma pipeline_inv_step s s' :
  pipeline_inv all s -> step o s s' -> pipeline_inv all s'.
Proof.
  intros (its & Hrd & Hcalls & Halive & Hmax & Hsize & Hunf) Hs.
  destruct Hs as [m rest csr q snd t r t' Hb|it csr inb q q' snd t Hp
                 |it inb rd q q1 q2 g t t' Hg Hb];
    unfold pending, reader_will_enqueue in *; simpl in *.
  - (* the reader handles a frame *)
    inversion Hrd as [|? ? it csr' ? its' Hbody Hrest|? ? ? ? Hbody Hrest]; subst;
      rewrite Hbody in Hb; injection Hb as <- <-.
    + exists its'. unfold pending, reader_will_enqueue. simpl. repeat split; auto.
    + exists its. unfold pending, reader_will_enqueue. simpl. repeat split; auto.
  - (* the reader completes a put *)
    exists its. unfold pending, reader_will_enqueue. simpl.
    rewrite (put_items _ _ _ Hp), (put_maxsize _ _ _ Hp).
    rewrite <- !app_assoc. simpl in *. repeat split; auto.
    + pose proof (put_room q it q' ltac:(rewrite Hmax; done) Hp) as Hr.
      by rewrite Hmax in Hr.
    + unfold put in Hp. destruct (full q); [done|]. injection Hp as <-.
      simpl. rewrite length_app. simpl. lia.
  - (* the sender forwards an item *)
    pose proof (get_items _ _ _ Hg) as Hi.
    pose proof (get_maxsize _ _ _ Hg) as Hm.
    assert (unfinished_tasks q1 = unfinished_tasks q) as Hu1.
    { unfold get in Hg. destruct (items q); [done|]. by injection Hg as _ <-. }
    apply audio_sender_body_spec in Hb
      as (-> & Hm2 & Hi2 & Hu2 & Hok & Hexn).
    rewrite Hi in *. simpl in *.
    destruct Hu2 as [Hu2|(Hu2 & _)]; [|lia].
    exists its. unfold pending, reader_will_enqueue. simpl.
    rewrite Hi2, Hm2, Hm. rewrite <- app_assoc. simpl.
    repeat split; auto.
    + destruct (o (length t)) as [e|] eqn:Ho.
      * destruct (Hsurvives _ _ Ho) as [Hnc Hlast].
        rewrite (Hexn ltac:(lia) e eq_refl). destruct it.
        { left. by apply not_cancelled_is_Exception. }
        right. simpl in Hcalls.
        assert (map call_of all !! length t = Some SendEndOfTurn) as Hl.
        { rewrite Hcalls. by rewrite list_lookup_middle. }
        apply Hlast in Hl.
        apply (f_equal length) in Hcalls.
        rewrite length_map, !length_app in Hcalls. simpl in Hcalls.
        rewrite length_map in Hcalls.
        destruct (items q1 ++ held rd ++ its); [done|simpl in *; lia].
      * left. apply Hok; [lia|done].
    + unfold qsize in *. rewrite Hi2. rewrite ?Hi in Hsize. simpl in Hsize. lia.
    + rewrite ?Hi in Hunf. simpl in Hunf. lia.
Qed.

Lemma pipeline_inv_reachable frames s :
  enqueues None frames all -> reachable o frames s -> pipeline_inv all s.
Proof.
  intros He. unfold reachable. revert s. apply rtc_ind_r.
  - by apply pipeline_inv_start.
  - intros s1 s2 _ Hs IH. by eapply pipeline_inv_step.
Qed.

(** In a quiescent state nothing is pending. *)
Lemma pipeline_inv_quiescent s :
  pipeline_inv all s -> quiescent o s -> calls s = map call_of all.
Proof.
  intros (its & Hrd & Hcalls & Halive & Hmax & Hsize & Hunf) Hq.
  destruct s as [inb rd q snd t]. unfold pending, reader_will_enqueue in *.
  simpl in *.
  assert (items q = [] \/ snd = false) as Hsend.
  { destruct (items q) as [|it rest] eqn:Hi; [by left|]. destruct snd; [|by right].
    exfalso.
    destruct (audio_sender_body it (Queue (maxsize q) rest (unfinished_tasks q)) o t)
      as [[g q2] t'] eqn:Hb.
    eapply Hq. eapply step_send; [|exact Hb]. unfold get. by rewrite Hi. }
  assert (items q ++ held rd ++ its = []) as Hnil.
  { destruct Halive as [->|?]; [|done].
    destruct Hsend as [Hi|?]; [|done]. rewrite Hi. simpl.
    destruct rd as [csr|it csr|]; simpl in *; [| |done].
    - destruct Hrd as [|? m it csr' rest its' Hbody Hrest|? m rest its' Hbody Hrest];
        [done|exfalso; eapply Hq; eapply step_read; apply Hbody..].
    - exfalso. destruct (put q it) as [q'|] eqn:Hp.
      + eapply Hq. by eapply step_put.
      + apply put_blocks_iff in Hp; [|by rewrite Hmax].
        unfold qsize in Hp. rewrite Hi, Hmax in Hp. simpl in Hp.
        unfold QUEUE_MAXSIZE in Hp. lia. }
  rewrite Hcalls, Hnil. simpl. by rewrite app_nil_r.
Qed.

(** Forwarding is FIFO: every schedule ends, every schedule that has ended
    issued the calls of the enqueued items in the order of the frames, and
    at any time the calls issued are a prefix of them. *)
Lemma pipeline_fifo frames :
  enqueues None frames all ->
  (exists s, reachable o frames s /\ quiescent o s)
  /\ (forall s, reachable o frames s -> quiescent o s -> calls s = map call_of all)
  /\ (forall s, reachable o frames s -> calls s `prefix_of` map call_of all).
Proof.
  intros He. repeat split.
  - apply runs_to_quiescence.
  - intros s Hr Hq. eapply pipeline_inv_quiescent; [|done].
    by eapply pipeline_inv_reachable.
  - intros s Hr. destruct (pipeline_inv_reachable _ _ He Hr) as (its & _ & Hc & _).
    rewrite Hc. by eexists.
Qed.

End PipelineOrder.

Lemma turn_calls_of_items chunks :
  map Archive.call_of (turn_items chunks) = turn_calls chunks.
Proof.
  unfold turn_calls, turn_items. rewrite map_app, map_map. simpl. f_equal.
Qed.

Lemma turns_calls_of_items turns :
  map Archive.call_of (concat (map turn_items turns)) = concat (map turn_calls turns).
Proof.
  induction turns as [|chunks turns IH]; simpl; [done|].
  by rewrite map_app, turn_calls_of_items, IH.
Qed.

(** For one turn alone, a commit is the last call anyway. *)
Lemma turn_survives o chunks :
  (forall n, o n <> Some CancelledError) ->
  sender_survives o (turn_items chunks).
Proof.
  intros Hnc n e Ho. split; [intros ->; by eapply Hnc|].
  rewrite turn_calls_of_items. unfold turn_calls, turn_items.
  rewrite length_app, length_map. simpl.
  destruct (decide (n < length chunks)%nat) as [Hlt|Hge].
  - rewrite lookup_app_l by (by rewrite length_map).
    rewrite list_lookup_fmap.
    destruct (chunks !! n) as [c|]; simpl; [|done]. discriminate.
  - rewrite lookup_app_r by (rewrite length_map; lia).
    rewrite length_map.
    destruct (n - length chunks)%nat as [|k] eqn:Hk; simpl; [lia|].
    by destruct k.
Qed.

(** C1. On one connection of [archive/main.py], let the reader enqueue, turn
    after turn, the [N] audio chunks of the turn and then the sentinel of
    its [end] frame.  As long as the sender survives (nothing is cancelled,
    no commit raises before the last one), every schedule of the reader and
    the sender ends, and when it has ended the sender has issued, for each
    turn in order, exactly the [N] forward calls in the order of the frames
    followed by one commit call; at any time before, the calls issued are a
    prefix of that sequence, so each commit comes after the [N]-th forward
    of its turn. *)
Theorem audio_turns_forwarded_in_order (o : oracle) (frames : list frame)
    (turns : list (list (bytes * Z))) :
  sender_survives o (concat (map turn_items turns)) ->
  Pipeline.enqueues None frames (concat (map turn_items turns)) ->
  (exists s, Pipeline.reachable o frames s /\ Pipeline.quiescent o s)
  /\ (forall s, Pipeline.reachable o frames s -> Pipeline.quiescent o s ->
        Pipeline.calls s = concat (map turn_calls turns))
  /\ (forall s, Pipeline.reachable o frames s ->
        Pipeline.calls s `prefix_of` concat (map turn_calls turns)).
Proof.
  intros Hs He. rewrite <- turns_calls_of_items. by apply pipeline_fifo.
Qed.

(** For a single turn of [N] chunks it is enough that nothing is cancelled. *)
Corollary audio_turn_forwarded_in_order (o : oracle) (frames : list frame)
    (chunks : list (bytes * Z)) :
  (forall n, o n <> Some CancelledError) ->
  Pipeline.enqueues None frames (turn_items chunks) ->
  (exists s, Pipeline.reachable o frames s /\ Pipeline.quiescent o s)
  /\ (forall s, Pipeline.reachable o frames s -> Pipeline.quiescent o s ->
        Pipeline.calls s = turn_calls chunks).
Proof.
  intros Hnc He. rewrite <- turn_calls_of_items.
  destruct (pipeline_fifo o (turn_items chunks) (turn_survives o chunks Hnc) frames He)
    as (Hex & Hq & _).
  by split.
Qed.

Lemma sample_frames_enqueue :
  Pipeline.enqueues None sample_frames (concat (map turn_items sample_turns)).
Proof.
  unfold sample_frames, sample_turns. simpl.
  do 4 (eapply Pipeline.enqueues_cons; [intros o t; reflexivity|]).
  eapply Pipeline.enqueues_skip; [intros o t; reflexivity|].
  do 2 (eapply Pipeline.enqueues_cons; [intros o t; reflexivity|]).
  apply Pipeline.enqueues_nil.
Qed.

Lemma audio_turns_forwarded_in_order_witness :
  (exists s, Pipeline.reachable all_return sample_frames s
             /\ Pipeline.quiescent all_return s)
  /\ (forall s, Pipeline.reachable all_return sample_frames s ->
        Pipeline.quiescent all_return s ->
        Pipeline.calls s = concat (map turn_calls sample_turns))
  /\ (forall s, Pipeline.reachable all_return sample_frames s ->
        Pipeline.calls s `prefix_of` concat (map turn_calls sample_turns)).
Proof.
  apply (audio_turns_forwarded_in_order all_return sample_frames sample_turns).
  - intros n e Ho. discriminate Ho.
  - apply sample_frames_enqueue.
Defined.

(** ** The capacity of the queue *)

Lemma pipeline_queue_bounded o frames s :
  Pipeline.reachable o frames s ->
  maxsize (Pipeline.audio_queue s) = Archive.QUEUE_MAXSIZE
  /\ qsize (Pipeline.audio_queue s) <= Archive.QUEUE_MAXSIZE.
Proof.
  unfold Pipeline.reachable. revert s. apply rtc_ind_r.
  - simpl. unfold qsize, Archive.QUEUE_MAXSIZE. simpl. lia.
  - intros s1 s2 _ Hs [Hm Hb].
    destruct Hs as [m rest csr q snd t r t' Hb'|it csr inb q q' snd t Hp
                   |it inb rd q q1 q2 g t t' Hg Hb']; simpl in *.
    + done.
    + rewrite (put_maxsize _ _ _ Hp). split; [done|].
      rewrite <- Hm. eapply put_room; [|done]. by rewrite Hm.
    + apply audio_sender_body_spec in Hb' as (_ & Hm2 & Hi2 & _).
      rewrite Hm2, (get_maxsize _ _ _ Hg). split; [done|].
      unfold qsize in *. rewrite Hi2. rewrite (get_items _ _ _ Hg) in Hb.
      simpl in Hb. lia.
Qed.

Lemma blocked_state_reachable :
  Pipeline.reachable all_return nine_frames blocked_state.
Proof.
  unfold Pipeline.reachable, Pipeline.start, nine_frames, blocked_state. simpl.
  do 8 (eapply rtc_l; [eapply Pipeline.step_read; reflexivity|]; simpl;
        eapply rtc_l; [eapply Pipeline.step_put; reflexivity|]; simpl).
  eapply rtc_l; [eapply Pipeline.step_read; reflexivity|]. simpl.
  apply rtc_refl.
Qed.

Lemma put_all_unbounded {A} (xs : list A) (q : queue A) :
  maxsize q <= 0 ->
  exists q', put_all q xs = Some q' /\ items q' = items q ++ xs.
Proof.
  revert q. induction xs as [|x xs IH]; intros q Hq; simpl.
  - exists q. by rewrite app_nil_r.
  - destruct (put_unbounded q x Hq) as [q1 Hp]. rewrite Hp.
    destruct (IH q1) as (q' & Hall & Hi); [by rewrite (put_maxsize _ _ _ Hp)|].
    exists q'. split; [done|].
    by rewrite Hi, (put_items _ _ _ Hp), <- app_assoc.
Qed.

(** C3 fails on [server.py]: its queue is created without [maxsize]; any
    number of [put]s in a row goes through, none suspends, and the queue
    holds them all. *)
Lemma server_queue_unbounded :
  maxsize Server.new_audio_queue = 0
  /\ (forall xs : list bytes,
        exists q, put_all Server.new_audio_queue xs = Some q /\ items q = xs)
  /\ (exists q, put_all Server.new_audio_queue (replicate 9 riff_bytes) = Some q
                /\ qsize q = 9).
Proof.
  split; [done|]. split.
  - intros xs. by apply (put_all_unbounded xs Server.new_audio_queue).
  - eexists. split; reflexivity.
Qed.

(** C3, amended. The queue of [archive/main.py] has capacity 8: whatever
    is done to it, and in every state the reader and the sender can reach,
    it holds at most 8 items; a
    [put] on a queue that holds 8 suspends the reader, and a reader held up
    this way is reachable and moves only after the sender has taken an
    item; after one [get] from the full queue one more
    [put] goes through and the next one suspends.  The queue of [server.py]
    is unbounded: no [put] on it suspends. *)
Theorem archive_queue_bounded :
  (forall q : queue Archive.item,
      rtc queue_step Archive.new_audio_queue q -> qsize q <= Archive.QUEUE_MAXSIZE)
  /\ (forall o frames s,
      Pipeline.reachable o frames s ->
      qsize (Pipeline.audio_queue s) <= Archive.QUEUE_MAXSIZE)
  /\ (forall (q : queue Archive.item) x,
      maxsize q = Archive.QUEUE_MAXSIZE -> qsize q = Archive.QUEUE_MAXSIZE ->
      put q x = None)
  /\ (Pipeline.reachable all_return nine_frames blocked_state
      /\ forall s', Pipeline.step all_return blocked_state s' ->
           Pipeline.ws_task s' = Pipeline.ws_task blocked_state
           /\ qsize (Pipeline.audio_queue s') = 7)
  /\ (forall (q : queue Archive.item) x q1 y z,
      maxsize q = Archive.QUEUE_MAXSIZE -> qsize q = Archive.QUEUE_MAXSIZE ->
      get q = Some (x, q1) ->
      exists q2, put q1 y = Some q2 /\ put q2 z = None)
  /\ (forall (q : queue bytes) x, maxsize q = 0 -> is_Some (put q x)).
Proof.
  refine (conj _ (conj _ (conj _ (conj (conj _ _) (conj _ _))))).
  - intros q Hr. by apply (queue_never_exceeds Archive.QUEUE_MAXSIZE q).
  - intros o frames s Hr. by apply (pipeline_queue_bounded o frames s).
  - intros q x Hm Hs. apply put_blocks_iff; rewrite Hm, ?Hs; done.
  - apply blocked_state_reachable.
  - intros s' Hs.
    inversion Hs as [ |? ? ? ? ? ? ? Hp|it inb rd q q1 q2 g t t' Hg Hb]; subst.
    + discriminate Hp.
    + apply audio_sender_body_spec in Hb as (_ & _ & Hi & _).
      injection Hg as _ <-. simpl in *. split; [done|].
      unfold qsize. by rewrite Hi.
  - intros q x q1 y z Hm Hs Hg. eapply full_get_put_put; [| |done].
    + by rewrite Hm.
    + by rewrite Hm.
  - intros q x Hm. apply put_unbounded. lia.
Qed.

(** ** Traces of computations *)

Section Adds.
Context (c : event -> nat).

Lemma total_app l1 l2 : total c (l1 ++ l2) = (total c l1 + total c l2)%nat.
Proof. induction l1 as [|x l1 IH]; simpl; lia. Qed.

Lemma adds_ret {A} (a : A) : adds c (ret a) 0.
Proof. intros o t. exists []. simpl. by rewrite app_nil_r. Qed.

Lemma adds_raise {A} e : adds c (@raise A e) 0.
Proof. intros o t. exists []. simpl. by rewrite app_nil_r. Qed.

Lemma adds_lift {A} (r : pyres A) : adds c (lift r) 0.
Proof. intros o t. exists []. simpl. by rewrite app_nil_r. Qed.

Lemma adds_await ev : adds c (await ev) (c ev).
Proof. intros o t. exists [ev]. simpl. repeat split; auto; lia. Qed.

Lemma adds_bind {A B} (m : M A) (f : A -> M B) k1 k2 :
  adds c m k1 -> (forall a, adds c (f a) k2) -> adds c (bind m f) (k1 + k2).
Proof.
  intros Hm Hf o t. unfold bind.
  destruct (Hm o t) as (l1 & Ht1 & Hle1 & Heq1).
  destruct (m o t) as [[a|e] t1]; simpl in *; subst t1.
  - destruct (Hf a o (t ++ l1)) as (l2 & Ht2 & Hle2 & Heq2).
    exists (l1 ++ l2). rewrite Ht2, app_assoc, total_app.
    specialize (Heq1 a eq_refl). repeat split; [lia|].
    intros b Hb. rewrite (Heq2 b Hb). lia.
  - exists l1. repeat split; [lia|]. intros a; discriminate.
Qed.

Lemma adds_try_except {A} (m h : M A) catches :
  adds c m 0 -> adds c h 0 -> adds c (try_except m catches h) 0.
Proof.
  intros Hm Hh o t. unfold try_except.
  destruct (Hm o t) as (l1 & Ht1 & Hle1 & Heq1).
  destruct (m o t) as [[a|e] t1]; simpl in *; subst t1.
  - exists l1. repeat split; [lia|]. intros; lia.
  - destruct (catches e).
    + destruct (Hh o (t ++ l1)) as (l2 & Ht2 & Hle2 & Heq2).
      exists (l1 ++ l2). rewrite Ht2, app_assoc, total_app.
      repeat split; [lia|]. intros; lia.
    + exists l1. repeat split; [lia|]. intros; lia.
Qed.

Lemma adds_async_for {A} (body : A -> M unit) (k : A -> nat) xs :
  (forall x, adds c (body x) (k x)) ->
  adds c (async_for body xs) (sum_list_with k xs).
Proof.
  intros Hb. induction xs as [|x xs IH]; simpl.
  - apply adds_ret.
  - apply adds_bind; [apply Hb|]. intros _. apply IH.
Qed.

End Adds.

Lemma adds_eq {A} c (m : M A) k k' : adds c m k -> k = k' -> adds c m k'.
Proof. by intros H <-. Qed.

Lemma adds_async_for_0 {A} c (body : A -> M unit) xs :
  (forall x, adds c (body x) 0) -> adds c (async_for body xs) 0.
Proof.
  intros Hb. induction xs as [|x xs IH]; simpl.
  - apply adds_ret.
  - apply (adds_bind c _ _ 0 0); [apply Hb|]. intros _. apply IH.
Qed.

(** Computations that send no frame of weight one. *)
Ltac adds0 :=
  repeat first
    [ exact (adds_ret _ _)
    | exact (adds_raise _ _)
    | exact (adds_lift _ _)
    | exact (adds_await _ _)
    | apply adds_try_except
    | apply adds_async_for_0; intros ?
    | apply (adds_bind _ _ _ 0 0); [|intros ?]
    | match goal with
      | |- adds _ (match ?x with _ => _ end) _ => destruct x
      end ].

(** ** The receivers *)

Lemma server_send_part_adds c p :
  (forall d, c (WsSend (OBinary d)) = O) -> adds c (Server.send_part p) 0.
Proof.
  intros Hc. unfold Server.send_part.
  destruct (inline_data p) as [[d|]|]; [|adds0..].
  eapply adds_eq; [apply adds_await|apply Hc].
Qed.

Lemma server_body_interruptions r :
  adds is_interrupted_frame (Server.receive_and_play_body r) (interruption r).
Proof.
  unfold Server.receive_and_play_body, interruption.
  apply adds_eq with (k := (0 + (interruption r + 0))%nat); [|unfold interruption; lia].
  apply adds_bind; [adds0|]. intros _.
  apply adds_bind.
  - unfold interruption. destruct (content r) as [sc|]; [|adds0].
    destruct (flag (interrupted sc)); [exact (adds_await _ _)|adds0].
  - intros _. apply (adds_bind _ _ _ 0 0).
    + destruct (content r) as [sc|]; [|adds0].
      destruct (model_turn sc) as [[parts|]|]; [|adds0..].
      apply adds_async_for_0. intros p. by apply server_send_part_adds.
    + intros _. adds0.
Qed.

Lemma server_receiver_interruptions turns :
  adds is_interrupted_frame (Server.receive_and_play turns)
       (interruptions (concat turns)).
Proof.
  unfold Server.receive_and_play, interruptions.
  induction turns as [|rs turns IH]; simpl; [apply adds_ret|].
  rewrite sum_list_with_app.
  apply adds_bind; [|intros _; apply IH].
  apply adds_async_for. apply server_body_interruptions.
Qed.

Lemma archive_receiver_adds c responses :
  (forall d, c (WsSend (OAudio d)) = O) -> (forall s, c (WsSend (OText s)) = O) ->
  c (WsSend OTurnComplete) = O -> c (WsSend OReadyForInput) = O ->
  adds c (Archive.model_receiver responses) 0.
Proof.
  intros Ha Ht Hc Hr. unfold Archive.model_receiver.
  apply adds_try_except; [|adds0]. apply adds_async_for_0. intros r.
  unfold Archive.model_receiver_body.
  apply (adds_bind _ _ _ 0 0).
  - destruct (data r); [|adds0]. apply adds_try_except; [|adds0].
    eapply adds_eq; [apply adds_await|apply Ha].
  - intros _. destruct (content r) as [sc|]; [|adds0].
    apply (adds_bind _ _ _ 0 0).
    + destruct (transcript_text _); [|adds0].
      eapply adds_eq; [apply adds_await|apply Ht].
    + intros _. destruct (flag _); [|adds0].
      apply (adds_bind _ _ _ 0 0); [|intros _].
      * eapply adds_eq; [apply adds_await|apply Hc].
      * eapply adds_eq; [apply adds_await|apply Hr].
Qed.

Lemma main2_receiver_adds c msgs :
  (forall d, c (WsSend (OBinary d)) = O) ->
  (forall s, c (WsSend (OInputTranscript s)) = O) ->
  (forall s, c (WsSend (OOutputTranscript s)) = O) ->
  c WsClose = O ->
  adds c (Main2.pump_gemini_to_client msgs) 0.
Proof.
  intros Hb Hi Ho Hc. unfold Main2.pump_gemini_to_client.
  apply adds_try_except.
  - apply adds_async_for_0. intros r. unfold Main2.pump_gemini_to_client_body.
    apply (adds_bind _ _ _ 0 0).
    + destruct (data r); [|adds0]. eapply adds_eq; [apply adds_await|apply Hb].
    + intros _. destruct (content r) as [sc|]; [|adds0].
      apply (adds_bind _ _ _ 0 0); [|intros _].
      * destruct (transcript_text _); [|adds0].
        eapply adds_eq; [apply adds_await|apply Hi].
      * destruct (transcript_text _); [|adds0].
        eapply adds_eq; [apply adds_await|apply Ho].
  - apply adds_try_except; [|adds0]. eapply adds_eq; [apply adds_await|apply Hc].
Qed.

Lemma server_receiver_never_ready turns :
  adds is_ready_for_input (Server.receive_and_play turns) 0.
Proof.
  unfold Server.receive_and_play. apply adds_async_for_0. intros rs.
  apply adds_async_for_0. intros r. unfold Server.receive_and_play_body.
  apply (adds_bind _ _ _ 0 0); [adds0|intros _].
  apply (adds_bind _ _ _ 0 0); [adds0|intros _].
  apply (adds_bind _ _ _ 0 0); [|intros _; adds0].
  destruct (content r) as [sc|]; [|adds0].
  destruct (model_turn sc) as [[parts|]|]; [|adds0..].
  apply adds_async_for_0. intros p. by apply server_send_part_adds.
Qed.

Lemma adds_zero_total {A} c (m : M A) o :
  adds c m 0 -> total c (snd (m o [])) = O.
Proof. intros H. destruct (H o []) as (l & -> & Hle & _). simpl. lia. Qed.

(** C4 fails on [archive/main.py]: an interruption of the remote session
    produces no frame at all, the receiver does not look at the flag. *)
Lemma archive_ignores_interruption :
  Archive.model_receiver [audio_response; interrupted_response] all_return []
  = (Ret tt, [WsSend (OAudio zeros)])
  /\ interruption interrupted_response = 1%nat.
Proof. split; reflexivity. Qed.

(** C4, amended. On [server.py], when the receiver has handled every
    response of the remote session (no send raised), it has sent exactly one
    [interrupted] frame per response that carries the interruption flag,
    whatever audio it sent before, and in any case never more than that;
    the receivers of [archive/main.py] and [archive/main2.py] never send an
    [interrupted] frame. *)
Theorem interruption_reported_once (o : oracle) (turns : list (list response)) :
  fst (Server.receive_and_play turns o []) = Ret tt ->
  total is_interrupted_frame (snd (Server.receive_and_play turns o []))
  = interruptions (concat turns)
  /\ (forall o',
        (total is_interrupted_frame (snd (Server.receive_and_play turns o' []))
         <= interruptions (concat turns))%nat)
  /\ (forall o' responses,
        total is_interrupted_frame (snd (Archive.model_receiver responses o' [])) = O)
  /\ (forall o' msgs,
        total is_interrupted_frame (snd (Main2.pump_gemini_to_client msgs o' [])) = O).
Proof.
  intros Hret. repeat split.
  - destruct (server_receiver_interruptions turns o []) as (l & Hl & _ & Heq).
    rewrite Hl. simpl. by apply (Heq tt).
  - intros o'.
    destruct (server_receiver_interruptions turns o' []) as (l & Hl & Hle & _).
    rewrite Hl. simpl. done.
  - intros o' responses. apply adds_zero_total.
    by apply archive_receiver_adds.
  - intros o' msgs. apply adds_zero_total. by apply main2_receiver_adds.
Qed.

Lemma interruption_reported_once_witness :
  total is_interrupted_frame (snd (Server.receive_and_play interrupted_turn all_return []))
  = 1%nat.
Proof.
  apply (interruption_reported_once all_return interrupted_turn). reflexivity.
Defined.

(** ** Turn completion *)

Section Answered.
Variable o : oracle.

Lemma answered_snoc t ev :
  ev <> WsSend OTurnComplete ->
  turn_complete_answered o t -> turn_complete_answered o (t ++ [ev]).
Proof.
  intros Hev Ht i Hi Ho.
  destruct (decide (i < length t)%nat) as [Hlt|Hge].
  - rewrite lookup_app_l in Hi by done.
    specialize (Ht i Hi Ho). apply lookup_app_l_Some. done.
  - destruct (decide (i = length t)) as [->|Hne].
    + rewrite list_lookup_middle in Hi by done. congruence.
    + rewrite lookup_ge_None_2 in Hi; [done|]. rewrite length_app. simpl. lia.
Qed.

Lemma answered_raised t :
  o (length t) <> None ->
  turn_complete_answered o t -> turn_complete_answered o (t ++ [WsSend OTurnComplete]).
Proof.
  intros Hr Ht i Hi Ho.
  destruct (decide (i < length t)%nat) as [Hlt|Hge].
  - rewrite lookup_app_l in Hi by done.
    specialize (Ht i Hi Ho). apply lookup_app_l_Some. done.
  - destruct (decide (i = length t)) as [->|Hne]; [done|].
    rewrite lookup_ge_None_2 in Hi; [done|]. rewrite length_app. simpl. lia.
Qed.

Lemma answered_pair t :
  turn_complete_answered o t ->
  turn_complete_answered o ((t ++ [WsSend OTurnComplete]) ++ [WsSend OReadyForInput]).
Proof.
  intros Ht i Hi Ho. rewrite <- app_assoc in *. simpl in *.
  destruct (decide (i < length t)%nat) as [Hlt|Hge].
  - rewrite lookup_app_l in Hi by done.
    specialize (Ht i Hi Ho). apply lookup_app_l_Some. done.
  - destruct (decide (i = length t)) as [->|Hne].
    + rewrite lookup_app_r by lia.
      replace (S (length t) - length t)%nat with 1%nat by lia. done.
    + rewrite lookup_app_r in Hi by lia.
      destruct (i - length t)%nat as [|[|k]] eqn:Hk; simpl in Hi; [lia|done|done].
Qed.

Lemma keeps_ret {A} (a : A) : keeps_answered o (ret a).
Proof. by intros t Ht. Qed.

Lemma keeps_await ev : ev <> WsSend OTurnComplete -> keeps_answered o (await ev).
Proof. intros Hev t Ht. simpl. by apply answered_snoc. Qed.

Lemma keeps_bind {A B} (m : M A) (f : A -> M B) :
  keeps_answered o m -> (forall a, keeps_answered o (f a)) -> keeps_answered o (bind m f).
Proof.
  intros Hm Hf t Ht. unfold bind. specialize (Hm t Ht).
  destruct (m o t) as [[a|e] t1]; simpl in *; [by apply Hf|done].
Qed.

Lemma keeps_try_except {A} (m h : M A) catches :
  keeps_answered o m -> keeps_answered o h -> keeps_answered o (try_except m catches h).
Proof.
  intros Hm Hh t Ht. unfold try_except. specialize (Hm t Ht).
  destruct (m o t) as [[a|e] t1]; simpl in *; [done|].
  destruct (catches e); [by apply Hh|done].
Qed.

Lemma keeps_async_for {A} (body : A -> M unit) xs :
  (forall x, keeps_answered o (body x)) -> keeps_answered o (async_for body xs).
Proof.
  intros Hb. induction xs as [|x xs IH]; simpl; [apply keeps_ret|].
  apply keeps_bind; [apply Hb|]. intros _. apply IH.
Qed.

(** The two sends of the turn boundary, taken together. *)
Lemma keeps_turn_boundary :
  keeps_answered o (await (WsSend OTurnComplete) ;;; await (WsSend OReadyForInput)).
Proof.
  intros t Ht. unfold bind, await.
  destruct (o (length t)) as [e|] eqn:Ho; simpl.
  - apply answered_raised; [congruence|done].
  - by apply answered_pair.
Qed.

Lemma archive_receiver_keeps responses :
  keeps_answered o (Archive.model_receiver responses).
Proof.
  unfold Archive.model_receiver.
  apply keeps_try_except; [|apply keeps_ret].
  apply keeps_async_for. intros r. unfold Archive.model_receiver_body.
  apply keeps_bind.
  - destruct (data r); [|apply keeps_ret].
    apply keeps_try_except; [|apply keeps_ret]. by apply keeps_await.
  - intros _. destruct (content r) as [sc|]; [|apply keeps_ret].
    apply keeps_bind.
    + destruct (transcript_text _); [|apply keeps_ret]. by apply keeps_await.
    + intros _. destruct (flag _); [|apply keeps_ret]. apply keeps_turn_boundary.
Qed.

End Answered.

(** C2 fails on [server.py]: a turn-complete event yields [turn_complete]
    alone, the next frame is the transcript text and [ready_for_input] is
    never sent.  On [archive/main.py] the pair is sent. *)
Lemma server_turn_complete_unanswered :
  Server.receive_and_play [[turn_complete_response]] all_return []
  = (Ret tt, [WsSend OTurnComplete; WsSend (OText "Hi")])
  /\ Archive.model_receiver [turn_complete_response] all_return []
     = (Ret tt, [WsSend (OText "Hi"); WsSend OTurnComplete; WsSend OReadyForInput]).
Proof. split; reflexivity. Qed.

Lemma archive_turn_boundary_sent r sc t :
  content r = Some sc -> flag (turn_complete sc) = true ->
  exists l, snd (Archive.model_receiver_body r all_return t)
            = t ++ l ++ [WsSend OTurnComplete; WsSend OReadyForInput].
Proof.
  intros Hc Hf. unfold Archive.model_receiver_body. rewrite Hc, Hf.
  unfold bind, try_except, await, ret, all_return.
  destruct (data r) as [d|]; destruct (transcript_text _) as [s|]; simpl.
  - exists [WsSend (OAudio d); WsSend (OText s)]. by rewrite <- !app_assoc.
  - exists [WsSend (OAudio d)]. by rewrite <- !app_assoc.
  - exists [WsSend (OText s)]. by rewrite <- !app_assoc.
  - exists []. by rewrite <- !app_assoc.
Qed.

(** C2, amended. On [archive/main.py], in every run of the receiver, each
    [turn_complete] whose send returned is followed at once by
    [ready_for_input], no other call in between, and a turn-complete event
    handled on a working transport ends with exactly these two frames.
    The receiver of [server.py] sends [turn_complete] alone and never
    [ready_for_input]; that of [archive/main2.py] sends neither. *)
Theorem turn_complete_then_ready (o : oracle) (responses : list response) :
  turn_complete_answered o (snd (Archive.model_receiver responses o []))
  /\ (forall r sc t,
        content r = Some sc -> flag (turn_complete sc) = true ->
        exists l, snd (Archive.model_receiver_body r all_return t)
                  = t ++ l ++ [WsSend OTurnComplete; WsSend OReadyForInput])
  /\ (forall turns,
        total is_ready_for_input (snd (Server.receive_and_play turns o [])) = O)
  /\ (forall msgs,
        total is_ready_for_input (snd (Main2.pump_gemini_to_client msgs o [])) = O
        /\ total is_turn_complete (snd (Main2.pump_gemini_to_client msgs o [])) = O).
Proof.
  split; [|split; [|split]].
  - apply archive_receiver_keeps. intros i Hi. done.
  - apply archive_turn_boundary_sent.
  - intros turns. apply adds_zero_total. apply server_receiver_never_ready.
  - intros msgs. split; apply adds_zero_total; by apply main2_receiver_adds.
Qed.

(** ** One client connection *)

Lemma count_app p l1 l2 :
  Lifecycle.count p (l1 ++ l2) = (Lifecycle.count p l1 + Lifecycle.count p l2)%nat.
Proof. induction l1 as [|x l1 IH]; simpl; lia. Qed.

Lemma ready_first_app tr l : Inv.ready_first tr -> Inv.ready_first (tr ++ l).
Proof. intros [rest ->]. by exists (rest ++ l). Qed.

Ltac inv_simpl :=
  unfold Inv.untouched, Inv.registered, Inv.tasks, Lifecycle.goto in *; simpl in *;
  rewrite ?count_app in *; simpl in *.

Ltac break_inv :=
  inv_simpl; unfold Inv.torn_down in *; inv_simpl;
  repeat match goal with
         | H : _ /\ _ |- _ => destruct H
         | H : _ \/ _ |- _ => destruct H
         end.

Ltac close_inv :=
  inv_simpl; unfold Inv.torn_down; inv_simpl;
  repeat match goal with
         | |- _ /\ _ => split
         | |- Inv.ready_first (_ ++ _) => by apply ready_first_app
         | H : ?x = Lifecycle.Running |- _ => rewrite H in *; simpl in *
         | H : ?x = Lifecycle.CancelRequested |- _ => rewrite H in *; simpl in *
         end;
  try done; try lia; try congruence.

Section LifecycleFacts.
Import Common Lifecycle Inv.
Variable w : websocket.



Lemma cleanup_absent id (reg : gmap Z websocket) :
  reg !! id = None -> cleanup id reg = reg.
Proof.
  intros H. unfold cleanup, removes. rewrite bool_decide_eq_false_2; [done|].
  rewrite H. by intros [? ?].
Qed.

Lemma cleanup_lookup id (reg : gmap Z websocket) : cleanup id reg !! id = None.
Proof.
  unfold cleanup, removes. case_bool_decide as H.
  - apply lookup_delete_eq.
  - by apply eq_None_not_Some.
Qed.

Lemma cleanup_lookup_ne id id' (reg : gmap Z websocket) :
  id <> id' -> cleanup id reg !! id' = reg !! id'.
Proof.
  intros Hne. unfold cleanup. destruct (removes id reg); [|done].
  by apply lookup_delete_ne.
Qed.

Lemma cleanup_idempotent id (reg : gmap Z websocket) :
  cleanup id (cleanup id reg) = cleanup id reg.
Proof. apply cleanup_absent, cleanup_lookup. Qed.

Lemma removes_registered id (reg : gmap Z websocket) x :
  reg !! id = Some x -> removes id reg = true.
Proof. intros H. unfold removes. apply bool_decide_eq_true_2. by rewrite H. Qed.

Lemma torn_down_goto s p n :
  count is_close n = O -> torn_down s -> torn_down (goto s p n).
Proof.
  intros Hn [(? & ? & ? & ? & ?)|(? & ? & ? & ? & ?)]; [left|right]; simpl;
    rewrite count_app, Hn; repeat split; auto; lia.
Qed.


Lemma at_point_handle_client s s' :
  at_point w s -> handle_client w s s' -> at_point w s'.
Proof.
  intros Hinv Hs. unfold at_point in *.
  destruct Hs as [s Hpc|s Hpc|s Hpc|s e Hpc|s Hpc]; rewrite Hpc in Hinv; simpl.
  - destruct Hinv as (Ht & Hsess & Htasks). inv_simpl. rewrite Ht. simpl.
    split; [by exists []|]. tauto.
  - destruct Hinv as (Ht & Hsess & Htasks). inv_simpl. rewrite Ht. done.
  - destruct Hinv as (Hr & Hu & Hsess & Htasks). inv_simpl.
    repeat split; try tauto. apply lookup_insert_eq.
  - destruct Hinv as (Hr & Hu & Hreg & Htd).
    repeat split.
    + by apply ready_first_app.
    + simpl. rewrite count_app, Hu. unfold except_note.
      destruct (is_ConnectionClosed e); [done|]. by destruct (is_Exception e).
    + done.
    + apply torn_down_goto; [|done]. unfold except_note.
      destruct (is_ConnectionClosed e); [done|]. by destruct (is_Exception e).
  - destruct Hinv as (Hr & Hu & Hreg & Htd). unfold registered in Hreg.
    rewrite (removes_registered _ _ _ Hreg). simpl.
    repeat split.
    + by apply ready_first_app.
    + rewrite count_app, Hu. done.
    + apply cleanup_lookup.
    + destruct Htd as [(? & ? & ? & ? & ?)|(? & ? & ? & ? & ?)]; [left|right];
        inv_simpl; repeat split; auto; lia.
Qed.



Lemma at_point_peers s s' : at_point w s -> peers w s s' -> at_point w s'.
Proof.
  intros Hinv Hs. unfold at_point in *.
  destruct Hs as [s w' Hne|s w' Hne]; simpl; destruct (pc s);
    break_inv; close_inv;
    rewrite ?lookup_insert_ne, ?cleanup_lookup_ne by done; try done;
    try (left; close_inv; done); try (right; close_inv; done).
Qed.

Lemma at_point_receiver_sends s s' :
  at_point w s -> receiver_sends s s' -> at_point w s'.
Proof.
  intros Hinv Hs. unfold at_point in *.
  destruct Hs as [s f Hrun]; simpl; destruct (pc s);
    break_inv; close_inv;
    try (left; close_inv; done); try (right; close_inv; done).
Qed.

Lemma count_task_notes p t outcome :
  p (TaskError t) = false -> p (Finished t) = false ->
  count p (task_notes t outcome) = O.
Proof.
  intros He Hf. unfold task_notes. rewrite count_app. simpl. rewrite Hf.
  destruct outcome as [e|]; [|done].
  destruct (archive_handlers t e); simpl; rewrite ?He; done.
Qed.

Lemma at_point_set_status s t st n :
  at_point w s ->
  (status_of s t = Running \/ status_of s t = CancelRequested) ->
  count is_close n = O -> count is_unregister n = O -> count is_error n = O ->
  at_point w (set_status s t (Done st) n).
Proof.
  intros Hinv Hst Hc Hu He. unfold at_point in *.
  destruct t; simpl in *; destruct (pc s); break_inv; close_inv.
Qed.

Lemma cancel_cancelled_or_done st :
  running_or_done st = true -> cancelled_or_done (cancel st) = true.
Proof. by destruct st. Qed.

Lemma cancel_created st : created st = true -> created (cancel st) = true.
Proof. by destruct st. Qed.

Lemma count_cancel_notes p s :
  (forall t, p (Cancelled t) = false) -> count p (cancel_notes s) = O.
Proof.
  intros Hp. unfold cancel_notes, cancel_note.
  destruct (ws_task s), (send_task s), (recv_task s); simpl; rewrite ?Hp; done.
Qed.

Lemma all_done_tasks s : all_done s = true -> tasks is_done s.
Proof.
  unfold all_done, tasks. intros H.
  apply andb_prop in H as [H ?]. apply andb_prop in H as [? ?]. done.
Qed.

Lemma at_point_archive_supervisor s s' :
  at_point w s -> archive_supervisor w s s' -> at_point w s'.
Proof.
  intros Hinv Hs.
  destruct Hs as [s s' Hc|s Hpc|s Hpc|s Hpc|s Hpc|s Hpc|s Hpc Hd|s Hpc|s Hpc Hd|s r Hpc];
    [by eapply at_point_handle_client|..];
    unfold at_point in *; rewrite Hpc in Hinv; simpl;
    try (break_inv; close_inv; fail).
  - break_inv. close_inv. right. close_inv.
  - break_inv. close_inv; rewrite ?count_cancel_notes by done;
      try lia; by apply cancel_cancelled_or_done.
  - apply all_done_tasks in Hd. break_inv. close_inv.
  - break_inv. close_inv. left. close_inv.
Qed.

Lemma at_point_archive_step s s' :
  at_point w s -> archive_step w s s' -> at_point w s'.
Proof.
  intros Hinv [Hs|[Hs|[Hs|Hs]]].
  - by eapply at_point_archive_supervisor.
  - destruct Hs as [s t outcome Hst].
    apply at_point_set_status; try done; by apply count_task_notes.
  - by eapply at_point_receiver_sends.
  - by eapply at_point_peers.
Qed.

Lemma at_point_server_supervisor s s' :
  at_point w s -> server_supervisor w s s' -> at_point w s'.
Proof.
  intros Hinv Hs.
  destruct Hs as [s s' Hc|s Hpc|s e Hpc|s Hpc|s Hpc Hf Hr|s Hpc Hd|s r Hpc];
    [by eapply at_point_handle_client|..];
    unfold at_point in *; rewrite Hpc in Hinv; simpl;
    try (break_inv; close_inv; fail).
  - break_inv. close_inv. right. close_inv.
  - break_inv. close_inv; rewrite ?count_cancel_notes by done;
      try lia; by apply cancel_created.
  - apply all_done_tasks in Hd. break_inv. close_inv.
  - destruct r; simpl; break_inv; close_inv; left; close_inv.
Qed.

Lemma at_point_server_step s s' :
  at_point w s -> server_step w s s' -> at_point w s'.
Proof.
  intros Hinv [Hs|[Hs|[Hs|Hs]]].
  - by eapply at_point_server_supervisor.
  - destruct Hs as [s Hst|s t Hst|s t Hst].
    + apply (at_point_set_status s WsTask); try done. by left.
    + apply at_point_set_status; try done. by left.
    + apply at_point_set_status; try done. by right.
  - by eapply at_point_receiver_sends.
  - by eapply at_point_peers.
Qed.

Lemma at_point_start active : at_point w (start active).
Proof. unfold at_point. simpl. repeat split. Qed.

Lemma at_point_archive active s :
  rtc (archive_step w) (start active) s -> at_point w s.
Proof.
  revert s. apply rtc_ind_r; [apply at_point_start|].
  intros s1 s2 _ Hs IH. by eapply at_point_archive_step.
Qed.

Lemma at_point_server active s :
  rtc (server_step w) (start active) s -> at_point w s.
Proof.
  revert s. apply rtc_ind_r; [apply at_point_start|].
  intros s1 s2 _ Hs IH. by eapply at_point_server_step.
Qed.

End LifecycleFacts.

Section LifecycleRuns.
Import Common Lifecycle Inv.
Variable w : websocket.

Lemma archive_quiet_step s s' :
  at_point w s -> archive_quiet s -> archive_step w s s' -> archive_quiet s'.
Proof.
  intros Hinv (Hne & Hnj & Herr) [Hs|[Hs|[Hs|Hs]]]; unfold archive_quiet.
  - destruct Hs as [s s' Hc|s Hpc|s Hpc|s Hpc|s Hpc|s Hpc|s Hpc Hd|s Hpc|s Hpc Hd|s r Hpc];
      [destruct Hc as [s Hpc|s Hpc|s Hpc|s e Hpc|s Hpc]|..]; simpl;
      try (by destruct (Hne e));
      unfold at_point in Hinv; rewrite Hpc in Hinv; break_inv;
      repeat split; try done; intros; rewrite ?count_app; simpl;
      rewrite ?count_cancel_notes by done; try lia; try congruence.
    all: try (rewrite Herr by congruence; simpl; lia).
    all: try (destruct (removes _ _); simpl; rewrite Herr by congruence; lia).
  - destruct Hs as [s t outcome Hst]. destruct t; simpl; repeat split; try done;
      intros; rewrite count_app, count_task_notes by done; rewrite Herr; auto.
  - destruct Hs as [s f Hrun]. simpl. repeat split; try done.
    intros. rewrite count_app. simpl. rewrite Herr; auto.
  - destruct Hs as [s w' Hn|s w' Hn]; simpl; repeat split; done.
Qed.

Lemma archive_quiet_reachable active s :
  rtc (archive_step w) (start active) s -> archive_quiet s.
Proof.
  intros Hr. cut (at_point w s /\ archive_quiet s); [tauto|].
  revert s Hr. apply rtc_ind_r.
  - split; [apply at_point_start|]. repeat split; done.
  - intros s1 s2 _ Hs [Hi Hq]. split.
    + by eapply at_point_archive_step.
    + by eapply archive_quiet_step.
Qed.

(** Once the reader or the receiver has finished, the supervisor runs to
    the end by itself: it cancels what is running, the cancelled tasks
    observe it, the session is closed and [handle_client] returns. *)
Lemma archive_teardown_forced s :
  pc s = AtWait -> is_done (ws_task s) || is_done (recv_task s) = true ->
  tasks running_or_done s ->
  exists s', rtc (archive_teardown_step w) s s'
             /\ pc s' = Returned /\ session s' = Closed /\ all_done s' = true
             /\ count is_cancel (trace s')
                = (count is_cancel (trace s) + running_tasks s)%nat
             /\ count is_task_error (trace s') = count is_task_error (trace s)
             /\ count is_error (trace s') = count is_error (trace s).
Proof.
  intros Hpc Hd (Hw & Hs & Hr).
  destruct s as [p reg sess ws snd rcv tr]. simpl in *. subst p.
  destruct ws, snd, rcv; try discriminate;
    (eexists; split;
     [ eapply rtc_l; [left; by apply a_wait|]; cbn;
       eapply rtc_l; [left; by apply a_cancel|]; cbn;
       try (eapply rtc_l; [right; apply (a_observes _ WsTask); reflexivity|]; cbn);
       try (eapply rtc_l; [right; apply (a_observes _ SendTask); reflexivity|]; cbn);
       try (eapply rtc_l; [right; apply (a_observes _ RecvTask); reflexivity|]; cbn);
       eapply rtc_l; [left; by apply a_gather|]; cbn;
       eapply rtc_l; [left; by eapply a_exit|]; cbn;
       eapply rtc_once; left; apply a_common; by apply finally
     | cbn; repeat split; try done;
       rewrite !count_app; destruct (removes _ _); simpl; lia ]).
Qed.

Lemma archive_teardown_step_included s s' :
  archive_teardown_step w s s' -> archive_step w s s'.
Proof.
  intros [Hs|Hs]; [by left|]. right. left. destruct Hs as [s t Hst].
  apply a_finishes. by right.
Qed.

Lemma archive_teardown_run_included s s' :
  rtc (archive_teardown_step w) s s' -> rtc (archive_step w) s s'.
Proof.
  induction 1 as [|s1 s2 s3 Hs Hr IH]; [done|].
  eapply rtc_l; [by apply archive_teardown_step_included|done].
Qed.

Lemma any_running_cancel_all p s : any_running (cancel_all p s) = false.
Proof.
  unfold any_running, cancel_all. simpl.
  by destruct (ws_task s), (send_task s), (recv_task s).
Qed.

Lemma count_is_cancel_notes s : count is_cancel (cancel_notes s) = running_tasks s.
Proof.
  unfold cancel_notes, cancel_note, running_tasks.
  by destruct (ws_task s), (send_task s), (recv_task s).
Qed.

Lemma any_failed_set_status s t st n :
  status_of s t = Running \/ status_of s t = CancelRequested ->
  any_failed s = true -> any_failed (set_status s t st n) = true.
Proof.
  unfold any_failed. intros Hst Hf.
  destruct t; simpl in *; destruct Hst as [Hst|Hst]; rewrite Hst in Hf; simpl in *;
    destruct (ws_task s) as [| | |[|]], (send_task s) as [| | |[|]],
      (recv_task s) as [| | |[|]], st as [| | |[|]]; simpl in *; done.
Qed.

(** On [server.py] nothing is cancelled before a task has failed. *)
Lemma server_cancel_needs_failure_step s s' :
  at_point w s -> server_step w s s' ->
  (count is_cancel (trace s) <> O -> any_failed s = true) ->
  count is_cancel (trace s') <> O -> any_failed s' = true.
Proof.
  intros Hinv [Hs|[Hs|[Hs|Hs]]] IH.
  - destruct Hs as [s s' Hc|s Hpc|s e Hpc|s Hpc|s Hpc Hf Hr|s Hpc Hd|s r Hpc];
      [destruct Hc as [s Hpc|s Hpc|s Hpc|s e Hpc|s Hpc]|..]; simpl;
      rewrite ?count_app; simpl; rewrite ?Nat.add_0_r; try done.
    + unfold except_note. destruct (is_ConnectionClosed e);
        [|destruct (is_Exception e)]; simpl; rewrite ?Nat.add_0_r; done.
    + destruct (removes _ _); simpl; rewrite ?Nat.add_0_r; done.
    + intros Hc. specialize (IH Hc). unfold at_point in Hinv. rewrite Hpc in Hinv.
      destruct Hinv as (_ & _ & _ & _ & Ht). unfold tasks in Ht.
      unfold any_failed in IH.
      destruct (ws_task s), (send_task s), (recv_task s); simpl in *;
        destruct Ht as (? & ? & ?); done.
    + intros _. unfold any_failed in *. simpl.
      by destruct (ws_task s) as [| | |[|]], (send_task s) as [| | |[|]],
           (recv_task s) as [| | |[|]].
  - destruct Hs as [s Hst|s t Hst|s t Hst].
    + intros Hc. apply (any_failed_set_status s WsTask); [by left|]. apply IH.
      simpl in Hc. by rewrite count_app, Nat.add_0_r in Hc.
    + intros _. unfold any_failed. by destruct t; simpl; rewrite ?orb_true_r.
    + intros Hc. apply any_failed_set_status; [by right|]. apply IH.
      destruct t; simpl in Hc; by rewrite count_app, Nat.add_0_r in Hc.
  - destruct Hs as [s f Hrun]. simpl. by rewrite count_app, Nat.add_0_r.
  - by destruct Hs as [s w' Hn|s w' Hn].
Qed.

Lemma server_cancel_needs_failure active s :
  rtc (server_step w) (start active) s ->
  count is_cancel (trace s) <> O -> any_failed s = true.
Proof.
  intros Hr.
  cut (at_point w s /\ (count is_cancel (trace s) <> O -> any_failed s = true));
    [tauto|].
  revert s Hr. apply rtc_ind_r.
  - split; [apply at_point_start|done].
  - intros s1 s2 _ Hs [Hi IH]. split.
    + by eapply at_point_server_step.
    + by eapply server_cancel_needs_failure_step.
Qed.

End LifecycleRuns.

(** *** Sample runs *)

Ltac supervisor_step c :=
  eapply rtc_l; [left; c; reflexivity|]; cbn.

Lemma both_ended_reachable :
  rtc (Lifecycle.archive_step sample_socket) (Lifecycle.start ∅) both_ended_state.
Proof.
  unfold Lifecycle.start, both_ended_state, both_ended_run.
  supervisor_step ltac:(apply Lifecycle.a_common; apply Lifecycle.ready_sent).
  supervisor_step ltac:(apply Lifecycle.a_common; apply Lifecycle.registers).
  supervisor_step ltac:(apply Lifecycle.a_connect_ok).
  supervisor_step ltac:(apply Lifecycle.a_connected_sent).
  supervisor_step ltac:(apply Lifecycle.a_create).
  eapply rtc_l; [right; left; apply (Lifecycle.a_finishes _ Lifecycle.WsTask None); by left|]; cbn.
  eapply rtc_l; [right; left; apply (Lifecycle.a_finishes _ Lifecycle.RecvTask None); by left|]; cbn.
  eapply rtc_l; [left; by apply Lifecycle.a_wait|]; cbn.
  supervisor_step ltac:(apply Lifecycle.a_cancel).
  eapply rtc_l; [right; left; apply (Lifecycle.a_finishes _ Lifecycle.SendTask (Some CancelledError)); by right|]; cbn.
  eapply rtc_l; [left; by apply Lifecycle.a_gather|]; cbn.
  supervisor_step ltac:(eapply Lifecycle.a_exit).
  eapply rtc_l; [left; apply Lifecycle.a_common; by apply Lifecycle.finally|]; cbn.
  apply rtc_refl.
Qed.

Lemma reader_ended_reachable :
  rtc (Lifecycle.archive_step sample_socket) (Lifecycle.start ∅) reader_ended_state.
Proof.
  unfold Lifecycle.start, reader_ended_state.
  supervisor_step ltac:(apply Lifecycle.a_common; apply Lifecycle.ready_sent).
  supervisor_step ltac:(apply Lifecycle.a_common; apply Lifecycle.registers).
  supervisor_step ltac:(apply Lifecycle.a_connect_ok).
  supervisor_step ltac:(apply Lifecycle.a_connected_sent).
  supervisor_step ltac:(apply Lifecycle.a_create).
  eapply rtc_l; [right; left; apply (Lifecycle.a_finishes _ Lifecycle.WsTask None); by left|]; cbn.
  apply rtc_refl.
Qed.

Lemma connect_failed_reachable :
  rtc (Lifecycle.archive_step sample_socket) (Lifecycle.start ∅) connect_failed_state.
Proof.
  unfold Lifecycle.start, connect_failed_state.
  supervisor_step ltac:(apply Lifecycle.a_common; apply Lifecycle.ready_sent).
  supervisor_step ltac:(apply Lifecycle.a_common; apply Lifecycle.registers).
  supervisor_step ltac:(apply Lifecycle.a_connect_fails).
  eapply rtc_l; [left; apply Lifecycle.a_common; by apply Lifecycle.finally|]; cbn.
  apply rtc_refl.
Qed.

Lemma disconnected_reachable :
  rtc (Lifecycle.server_step sample_socket) (Lifecycle.start ∅) disconnected_state.
Proof.
  unfold Lifecycle.start, disconnected_state.
  supervisor_step ltac:(apply Lifecycle.s_common; apply Lifecycle.ready_sent).
  supervisor_step ltac:(apply Lifecycle.s_common; apply Lifecycle.registers).
  supervisor_step ltac:(apply Lifecycle.s_connect_ok).
  supervisor_step ltac:(apply Lifecycle.s_create).
  eapply rtc_l; [right; left; by apply Lifecycle.s_router_returns|]; cbn.
  apply rtc_refl.
Qed.

(** C9 fails on [server.py]: after a clean disconnect of the client the
    supervising coroutine can do nothing; the group cancels no task, and
    the sender and the receiver keep running with the session open. *)
Lemma server_disconnect_cancels_nothing :
  rtc (Lifecycle.server_step sample_socket) (Lifecycle.start ∅) disconnected_state
  /\ Lifecycle.ws_task disconnected_state = Lifecycle.Done false
  /\ Lifecycle.send_task disconnected_state = Lifecycle.Running
  /\ Lifecycle.recv_task disconnected_state = Lifecycle.Running
  /\ Lifecycle.session disconnected_state = Lifecycle.Open
  /\ Lifecycle.count Lifecycle.is_cancel (Lifecycle.trace disconnected_state) = O
  /\ (forall s', ~ Lifecycle.server_supervisor sample_socket disconnected_state s').
Proof.
  split; [apply disconnected_reachable|]. repeat split.
  intros s' Hs.
  inversion Hs as [? ? Hc|? Hpc|? ? Hpc|? Hpc|? Hpc Hf Hr|? Hpc Hd|? ? Hpc];
    subst; try discriminate.
  inversion Hc; subst; discriminate.
Qed.

Section LifecycleTheorems.
Import Common Lifecycle Inv.

Lemma at_point_trace w s : at_point w s -> trace s = [] \/ ready_first (trace s).
Proof. unfold at_point. destruct (pc s); intros H; break_inv; auto. Qed.

Lemma at_point_closed w s : at_point w s -> session s = Closed -> all_done s = true.
Proof.
  unfold at_point, all_done. destruct (pc s); intros H Hc; break_inv;
    try congruence; by repeat (apply andb_true_intro; split).
Qed.

Lemma at_point_opened w s :
  at_point w s -> session s <> NotOpened -> ready_first (trace s).
Proof. unfold at_point. destruct (pc s); intros H Hc; break_inv; done. Qed.

Lemma at_point_counts w s :
  at_point w s ->
  (count is_close (trace s) <= 1 /\ count is_unregister (trace s) <= 1)%nat.
Proof.
  unfold at_point. destruct (pc s); intros H; break_inv;
    repeat match goal with H : trace _ = [] |- _ => rewrite H end; simpl; lia.
Qed.

Lemma at_point_returned w s :
  at_point w s -> pc s = Returned ->
  count is_unregister (trace s) = 1%nat
  /\ active_clients s !! py_id w = None
  /\ (session s <> NotOpened -> count is_close (trace s) = 1%nat).
Proof.
  unfold at_point. intros H Hpc. rewrite Hpc in H. break_inv; repeat split; try done.
Qed.

Lemma at_point_unregistered w s :
  at_point w s -> count is_unregister (trace s) <> O -> session s <> Open.
Proof.
  unfold at_point. destruct (pc s); intros H Hc; break_inv; try congruence;
    try lia.
  all: match goal with H : trace _ = [] |- _ => rewrite H in Hc; simpl in Hc; lia end.
Qed.

Lemma at_point_gather w s :
  at_point w s -> pc s = AtGather -> any_running s = false.
Proof.
  unfold at_point, any_running. intros H Hpc. rewrite Hpc in H. break_inv.
  destruct (ws_task s), (send_task s), (recv_task s); done.
Qed.

(** C9, amended. On [archive/main.py] the supervisor waits for the first of
    the reader and the receiver to finish: while neither has, it has no
    step; as soon as one has, the other still running or not, its step is to
    go and cancel.  It then cancels every task that is still running, each
    once, and none is left running; it leaves [gather] only when all three
    have finished; and from the first completion on it reaches the end by
    itself, no task having to end on its own: the cancelled tasks observe
    the cancellation, the session is closed, the client removed and
    [handle_client] returns, with one cancellation per task that was
    running and no error logged, neither by a task nor by the supervisor.
    A task that ends by the cancellation logs no error.  The session is
    never closed while one of the three tasks is not finished, the client
    is removed only when the session is no longer open, and the supervisor
    logs no error once the session was opened.  On [server.py] the session
    is likewise closed only after the three tasks have finished and the
    client removed only after that, but there is no first-completed race:
    nothing is cancelled before a task has failed, and when a task has
    failed while another is running, the one step of the supervisor is to
    cancel every task that is running. *)
Theorem teardown_after_all_tasks (w : websocket) (active : gmap Z websocket)
    (s : state) :
  rtc (archive_step w) (start active) s ->
  (pc s = AtWait ->
     (is_done (ws_task s) || is_done (recv_task s) = true ->
        archive_supervisor w s (goto s AtCancel []))
     /\ (is_done (ws_task s) || is_done (recv_task s) = false ->
         forall s', ~ archive_supervisor w s s')
     /\ (is_done (ws_task s) || is_done (recv_task s) = true ->
         exists s', rtc (archive_teardown_step w) s s'
                    /\ pc s' = Returned /\ session s' = Closed
                    /\ all_done s' = true
                    /\ active_clients s' !! py_id w = None
                    /\ count is_cancel (trace s')
                       = (count is_cancel (trace s) + running_tasks s)%nat
                    /\ count is_task_error (trace s')
                       = count is_task_error (trace s)
                    /\ count is_error (trace s') = O))
  /\ (pc s = AtCancel ->
      archive_supervisor w s (cancel_all AtGather s)
      /\ any_running (cancel_all AtGather s) = false
      /\ count is_cancel (cancel_notes s) = running_tasks s
      /\ forall s', archive_supervisor w s s' -> s' = cancel_all AtGather s)
  /\ (pc s = AtGather ->
      any_running s = false
      /\ forall s', archive_supervisor w s s' -> all_done s = true)
  /\ (session s = Closed -> all_done s = true)
  /\ (count is_unregister (trace s) <> O -> session s <> Open)
  /\ (session s <> NotOpened -> count is_error (trace s) = O)
  /\ (forall t, task_notes t (Some CancelledError) = [Finished t])
  /\ (forall s2, rtc (server_step w) (start active) s2 ->
        (session s2 = Closed -> all_done s2 = true)
        /\ (count is_unregister (trace s2) <> O -> session s2 <> Open)
        /\ (count is_cancel (trace s2) <> O -> any_failed s2 = true)
        /\ (pc s2 = AtJoin -> any_running s2 = true ->
            (any_failed s2 = true ->
               server_supervisor w s2 (cancel_all AtJoin s2))
            /\ forall s', server_supervisor w s2 s' ->
                 any_failed s2 = true /\ s' = cancel_all AtJoin s2)).
Proof.
  intros Hr. pose proof (at_point_archive w active s Hr) as Hinv.
  refine (conj _ (conj _ (conj _ (conj _ (conj _ (conj _ (conj _ _))))))).
  - intros Hpc. refine (conj _ (conj _ _)).
    + intros Hd. by apply a_wait.
    + intros Hd s' Hs.
      inversion Hs as [? ? Hc|? Hp|? Hp|? Hp|? Hp|? Hp|? Hp Hd'|? Hp|? Hp Hd'|? ? Hp];
        subst; try congruence; try reflexivity.
      inversion Hc; subst; congruence.
    + intros Hd.
      assert (tasks running_or_done s) as Ht.
      { unfold at_point in Hinv. rewrite Hpc in Hinv. tauto. }
      destruct (archive_teardown_forced w s Hpc Hd Ht)
        as (s' & Hr' & Hp & Hs & Ha & Hc & Hte & He).
      exists s'.
      assert (at_point w s') as Hinv'.
      { eapply at_point_archive. eapply rtc_trans; [exact Hr|].
        by apply archive_teardown_run_included. }
      destruct (at_point_returned w s' Hinv' Hp) as (_ & Hreg & _).
      repeat split; try done. rewrite He.
      apply (archive_quiet_reachable w active s Hr).
      unfold at_point in Hinv. rewrite Hpc in Hinv.
      destruct Hinv as (_ & _ & _ & Hopen & _). by rewrite Hopen.
  - intros Hpc. refine (conj _ (conj _ (conj _ _))).
    + by apply a_cancel.
    + apply any_running_cancel_all.
    + apply count_is_cancel_notes.
    + intros s' Hs.
      inversion Hs as [? ? Hc|? Hp|? Hp|? Hp|? Hp|? Hp|? Hp Hd'|? Hp|? Hp Hd'|? ? Hp];
        subst; try congruence; try reflexivity.
      inversion Hc; subst; congruence.
  - intros Hpc. split; [by apply (at_point_gather w)|].
    intros s' Hs.
    inversion Hs as [? ? Hc|? Hp|? Hp|? Hp|? Hp|? Hp|? Hp Hd'|? Hp|? Hp Hd'|? ? Hp];
      subst; try congruence; try done.
    inversion Hc; subst; congruence.
  - by apply (at_point_closed w).
  - by apply (at_point_unregistered w).
  - by apply (archive_quiet_reachable w active s Hr).
  - by intros [].
  - intros s2 Hr2. pose proof (at_point_server w active s2 Hr2) as Hinv2.
    refine (conj _ (conj _ (conj _ _))).
    + by apply (at_point_closed w).
    + by apply (at_point_unregistered w).
    + by apply (server_cancel_needs_failure w active).
    + intros Hpc Hrun. split.
      * intros Hf. by apply s_abort.
      * intros s' Hs.
        inversion Hs as [? ? Hc|? Hp|? ? Hp|? Hp|? Hp Hf Hr'|? Hp Hd|? ? Hp];
          subst; try congruence.
        -- inversion Hc; subst; congruence.
        -- done.
        -- exfalso. unfold all_done, any_running in *.
           destruct (ws_task s2), (send_task s2), (recv_task s2); done.
Qed.

Lemma teardown_after_all_tasks_witness :
  all_done both_ended_state = true
  /\ count is_error (trace both_ended_state) = O
  /\ archive_supervisor sample_socket reader_ended_state
       (goto reader_ended_state AtCancel []).
Proof.
  destruct (teardown_after_all_tasks sample_socket ∅ both_ended_state
              both_ended_reachable) as (_ & _ & _ & Hclosed & _ & Hquiet & _).
  destruct (teardown_after_all_tasks sample_socket ∅ reader_ended_state
              reader_ended_reachable) as (Hwait & _).
  split; [by apply Hclosed|]. split; [apply Hquiet; discriminate|].
  destruct (Hwait eq_refl) as (Hfirst & _). by apply Hfirst.
Defined.

(** C5. Teardown happens once: in every run of a connection the session
    is closed at most once and the registry entry removed at most once;
    when [handle_client] has returned, the entry has been removed exactly
    once and is absent, and a session that was opened has been closed
    exactly once, also when the client disconnects and the remote stream
    ends together; cleaning up an identifier that is absent leaves the
    registry unchanged. *)
Theorem teardown_once (w : websocket) (active : gmap Z websocket) (s : state) :
  rtc (archive_step w) (start active) s \/ rtc (server_step w) (start active) s ->
  (count is_close (trace s) <= 1 /\ count is_unregister (trace s) <= 1)%nat
  /\ (pc s = Returned ->
      count is_unregister (trace s) = 1%nat
      /\ active_clients s !! py_id w = None
      /\ (session s <> NotOpened -> count is_close (trace s) = 1%nat))
  /\ (forall id (reg : gmap Z websocket), reg !! id = None -> cleanup id reg = reg)
  /\ (forall id (reg : gmap Z websocket), cleanup id (cleanup id reg) = cleanup id reg).
Proof.
  intros Hr.
  assert (at_point w s) as Hinv.
  { destruct Hr; [by eapply at_point_archive|by eapply at_point_server]. }
  refine (conj _ (conj _ (conj _ _))).
  - by apply (at_point_counts w).
  - by apply (at_point_returned w).
  - apply cleanup_absent.
  - apply cleanup_idempotent.
Qed.

Lemma teardown_once_witness :
  count is_unregister (trace both_ended_state) = 1%nat
  /\ count is_close (trace both_ended_state) = 1%nat
  /\ active_clients both_ended_state !! py_id sample_socket = None.
Proof.
  destruct (teardown_once sample_socket ∅ both_ended_state
              (or_introl both_ended_reachable)) as (_ & Hret & _).
  destruct (Hret eq_refl) as (Hu & Hreg & Hc).
  split; [done|]. split; [|done]. apply Hc. discriminate.
Defined.

(** C10. On every connection handled by [handle_client], with the
    [process_audio] of [archive/main.py] or of [server.py], the first thing
    that happens is the send of [{"type": "ready"}]: it is the first frame
    written to the client, it precedes the opening of the session, and when
    the session fails to open the frame has been sent before the failure. *)
Theorem ready_is_first (w : websocket) (active : gmap Z websocket) (s : state) :
  rtc (archive_step w) (start active) s \/ rtc (server_step w) (start active) s ->
  (trace s = [] \/ ready_first (trace s))
  /\ (forall f, head (sent (trace s)) = Some f -> f = OReady)
  /\ (session s <> NotOpened -> ready_first (trace s))
  /\ (In Connected (trace s) ->
      exists rest, trace s = Sent OReady :: rest /\ In Connected rest)
  /\ (In ConnectFailed (trace s) ->
      exists rest, trace s = Sent OReady :: rest /\ In ConnectFailed rest).
Proof.
  intros Hr.
  assert (at_point w s) as Hinv.
  { destruct Hr; [by eapply at_point_archive|by eapply at_point_server]. }
  pose proof (at_point_trace w s Hinv) as Ht.
  refine (conj _ (conj _ (conj _ (conj _ _)))).
  - done.
  - intros f Hf. destruct Ht as [Ht|[rest Ht]]; rewrite Ht in Hf; simpl in Hf.
    + discriminate.
    + by injection Hf as <-.
  - by apply (at_point_opened w).
  - intros Hin. destruct Ht as [Ht|[rest Ht]]; rewrite Ht in Hin |- *.
    + destruct Hin.
    + exists rest. split; [done|]. destruct Hin as [Hin|Hin]; [discriminate|done].
  - intros Hin. destruct Ht as [Ht|[rest Ht]]; rewrite Ht in Hin |- *.
    + destruct Hin.
    + exists rest. split; [done|]. destruct Hin as [Hin|Hin]; [discriminate|done].
Qed.

Lemma ready_is_first_witness :
  exists rest, trace connect_failed_state = Sent OReady :: rest
               /\ In ConnectFailed rest.
Proof.
  destruct (ready_is_first sample_socket ∅ connect_failed_state
              (or_introl connect_failed_reachable)) as (_ & _ & _ & _ & Hfail).
  apply Hfail. simpl. tauto.
Defined.

End LifecycleTheorems.


(** * Further properties of the code *)

(** ** The reader of [archive/main.py], frame by frame *)

Lemma audio_payload_body message kv b csr o t :
  audio_payload message kv b ->
  Archive.ws_reader_body csr message o t
  = match (if truthy (declared_rate kv) then int_rate message
           else match csr with
                | Some r => Ret r
                | None => Raise UnboundLocalError
                end) with
    | Ret sr => (Ret (Archive.PutThenContinue (Archive.Chunk b sr) (Some sr)), t)
    | Raise e => (Raise e, t)
    end.
Proof.
  intros (Hj & Hty & Hp & Hb).
  unfold Archive.ws_reader_body, declared_rate, bind, lift, ret, raise, dict_get.
  rewrite Hj, Hty. simpl. rewrite Hp. simpl. rewrite Hb.
  destruct (truthy (default JNull (kv !! "rate"))).
  - by destruct (int_rate message).
  - by destruct csr.
Qed.



(** X2. The first audio frame of a connection must declare its rate: with
    none declared and none seen before, reading the local
    [client_sample_rate] raises [UnboundLocalError] (the default of
    [process_audio] is not visible in [ws_reader]); nothing is enqueued, the
    reader ends, and the frames behind it are never read. *)
Theorem first_audio_frame_needs_rate (message : frame) (kv : gmap string json)
    (b : bytes) :
  audio_payload message kv b ->
  truthy (declared_rate kv) = false ->
  (forall o t, Archive.ws_reader_body None message o t = (Raise UnboundLocalError, t))
  /\ (forall o rest,
        Pipeline.step o (Pipeline.start (message :: rest))
          (Pipeline.State rest Pipeline.ReaderDone Archive.new_audio_queue true []))
  /\ (forall o inb q snd t s',
        Pipeline.step o (Pipeline.State inb Pipeline.ReaderDone q snd t) s' ->
        Pipeline.inbox s' = inb /\ Pipeline.ws_task s' = Pipeline.ReaderDone).
Proof.
  intros Hp Hd.
  assert (forall o t,
    Archive.ws_reader_body None message o t = (Raise UnboundLocalError, t)) as Hbody.
  { intros o t. rewrite (audio_payload_body message kv b None o t Hp). by rewrite Hd. }
  refine (conj Hbody (conj _ _)).
  - intros o rest.
    exact (Pipeline.step_read o message rest None Archive.new_audio_queue true []
             (Raise UnboundLocalError) [] (Hbody o [])).
  - intros o inb q snd t s' Hs. by inversion Hs; subst.
Qed.

Lemma first_audio_frame_needs_rate_witness :
  Archive.ws_reader_body None audio_frame_no_rate all_return []
  = (Raise UnboundLocalError, []).
Proof.
  eapply (first_audio_frame_needs_rate audio_frame_no_rate _ zeros).
  - repeat split; reflexivity.
  - reflexivity.
Defined.

(** X3. An audio frame whose payload is missing or falsy is skipped before
    anything is decoded: nothing is enqueued, nothing raised whatever the
    decoders would do, and a rate it declares is not recorded. *)
Theorem audio_frame_without_payload_skipped (message : frame)
    (kv : gmap string json) (csr : option Z) :
  json_loads message = Ret (JObj kv) ->
  kv !! "type" = Some (JStr "audio") ->
  truthy (default (JStr "") (kv !! "data")) = false ->
  forall o t, Archive.ws_reader_body csr message o t = (Ret (Archive.Continue csr), t).
Proof.
  intros Hj Hty Hp o t.
  unfold Archive.ws_reader_body, bind, lift, ret, dict_get.
  rewrite Hj, Hty. simpl. by rewrite Hp.
Qed.

Lemma audio_frame_without_payload_skipped_witness :
  Archive.ws_reader_body (Some 16000) empty_audio_frame all_return []
  = (Ret (Archive.Continue (Some 16000)), []).
Proof.
  eapply (audio_frame_without_payload_skipped empty_audio_frame); reflexivity.
Defined.

(** X4. A [close] frame always ends the reader's loop normally, after
    exactly one [websocket.close()]: whatever that call raises, a
    cancellation included, is discarded by the [break] in its [finally]. *)
Theorem close_frame_always_breaks (message : frame) (kv : gmap string json)
    (csr : option Z) :
  json_loads message = Ret (JObj kv) ->
  kv !! "type" = Some (JStr "close") ->
  forall o t,
    Archive.ws_reader_body csr message o t = (Ret Archive.Break, t ++ [WsClose]).
Proof.
  intros Hj Hty o t.
  unfold Archive.ws_reader_body, bind, lift, ret, dict_get.
  rewrite Hj, Hty. reflexivity.
Qed.

Lemma close_frame_always_breaks_witness :
  Archive.ws_reader_body None close_frame (fun _ => Some CancelledError) []
  = (Ret Archive.Break, [WsClose]).
Proof.
  eapply (close_frame_always_breaks close_frame); reflexivity.
Defined.

(** X5. A frame that is JSON but not an object (a list, a string, a number,
    [null]) has no [get]: on [archive/main.py] the [AttributeError] ends the
    reader, on [server.py] it is logged for that frame and the router goes
    on. *)
Theorem non_object_frame (message : frame) (data : json) :
  json_loads message = Ret data ->
  not_an_object data ->
  (forall csr o t,
      Archive.ws_reader_body csr message o t = (Raise AttributeError, t))
  /\ (wire_of message = Text ->
      forall o t,
        Server.handle_websocket_messages_body message o t
        = (Ret (Server.Log (Server.LogError AttributeError)), t)).
Proof.
  intros Hj Hn. split.
  - intros csr o t. unfold Archive.ws_reader_body. rewrite Hj.
    by destruct data.
  - intros Hw o t.
    unfold Server.handle_websocket_messages_body, isinstance_bytes, try_except_as.
    rewrite Hw. unfold bind, lift. rewrite Hj. by destruct data.
Qed.

Lemma non_object_frame_witness :
  Archive.ws_reader_body (Some 16000) list_frame all_return []
  = (Raise AttributeError, []).
Proof.
  eapply (non_object_frame list_frame (JArr [])); [reflexivity|exact I].
Defined.

(** X6. On [archive/main.py] a decoding failure inside an audio frame is
    not recovered per frame: when [base64.b64decode] raises, or when the
    payload decodes but [int] raises on the declared rate, the exception
    leaves the loop and ends the reader with nothing enqueued. *)
Theorem undecodable_audio_ends_reader (message : frame) (kv : gmap string json)
    (csr : option Z) (e : exn) :
  json_loads message = Ret (JObj kv) ->
  kv !! "type" = Some (JStr "audio") ->
  truthy (default (JStr "") (kv !! "data")) = true ->
  b64decode_data message = Raise e
  \/ (exists b, b64decode_data message = Ret b
                /\ truthy (declared_rate kv) = true
                /\ int_rate message = Raise e) ->
  forall o t, Archive.ws_reader_body csr message o t = (Raise e, t).
Proof.
  intros Hj Hty Hp [Hb|(b & Hb & Hd & Hi)] o t.
  - unfold Archive.ws_reader_body, bind, lift, ret, dict_get.
    rewrite Hj, Hty. simpl. rewrite Hp. simpl. by rewrite Hb.
  - rewrite (audio_payload_body message kv b csr o t); [|done].
    by rewrite Hd, Hi.
Qed.

Lemma undecodable_audio_ends_reader_witness :
  Archive.ws_reader_body (Some 16000) bad_base64_frame all_return []
  = (Raise BinasciiError, []).
Proof.
  eapply (undecodable_audio_ends_reader bad_base64_frame); try reflexivity.
  left. reflexivity.
Defined.

(** ** A sender that has stopped *)

Lemma reader_issues_no_sender_call csr message :
  adds is_sender_call (Archive.ws_reader_body csr message) 0.
Proof.
  unfold Archive.ws_reader_body.
  destruct (json_loads message) as [data|e]; [|destruct e; adds0].
  apply (adds_bind _ _ _ 0 0); [adds0|]. intros mtype.
  destruct (eq_str mtype "audio").
  { apply (adds_bind _ _ _ 0 0); [adds0|]. intros payload.
    destruct (negb (truthy payload)); [adds0|].
    apply (adds_bind _ _ _ 0 0); [adds0|]. intros b.
    apply (adds_bind _ _ _ 0 0); [adds0|]. intros declared.
    apply (adds_bind _ _ _ 0 0); [|intros sr; adds0].
    destruct (truthy declared); [adds0|]. destruct csr; adds0. }
  destruct (eq_str mtype "end"); [adds0|].
  destruct (eq_str mtype "text").
  { apply (adds_bind _ _ _ 0 0); [adds0|]. intros text.
    destruct (truthy text); adds0. }
  destruct (eq_str mtype "close"); [|adds0].
  intros o t. exists [WsClose]. simpl. repeat split; auto.
Qed.

Lemma stopped_sender_step o s s' :
  Pipeline.send_task s = false -> Pipeline.step o s s' ->
  Pipeline.send_task s' = false
  /\ total is_sender_call (Pipeline.calls s') = total is_sender_call (Pipeline.calls s)
  /\ exists more, items (Pipeline.audio_queue s')
                  = items (Pipeline.audio_queue s) ++ more.
Proof.
  intros Hdead Hs.
  destruct Hs as [m rest csr q snd t r t' Hb|it csr inb q q' snd t Hp
                 |it inb rd q q1 q2 g t t' Hg Hb]; simpl in *; [| |done].
  - split; [done|]. split; [|exists []; by rewrite app_nil_r].
    destruct (reader_issues_no_sender_call csr m o t) as (l & Hl & Hle & _).
    rewrite Hb in Hl. simpl in Hl. subst t'. rewrite total_app. lia.
  - split; [done|]. split; [done|]. exists [it]. by apply put_items.
Qed.

(** X7. A forward that raises an exception does not stop the sender of
    [archive/main.py], a commit that raises does; and once the sender has
    stopped, under every schedule no audio is forwarded and no turn
    committed any more, while the queue only grows. *)
Theorem stopped_sender_forwards_nothing (o : oracle) (s s' : Pipeline.state) :
  Pipeline.send_task s = false ->
  rtc (Pipeline.step o) s s' ->
  (Pipeline.send_task s' = false
   /\ total is_sender_call (Pipeline.calls s') = total is_sender_call (Pipeline.calls s)
   /\ exists more, items (Pipeline.audio_queue s')
                   = items (Pipeline.audio_queue s) ++ more)
  /\ (forall q t e, o (length t) = Some e ->
        (Archive.audio_sender_body Archive.Sentinel q o t).1.1 = false)
  /\ (forall c sr q t e, o (length t) = Some e -> is_Exception e = true ->
        unfinished_tasks q <> O ->
        (Archive.audio_sender_body (Archive.Chunk c sr) q o t).1.1 = true).
Proof.
  intros Hdead Hr. refine (conj _ (conj _ _)).
  - revert Hdead. induction Hr as [s|s1 s2 s3 Hs Hr IH]; intros Hdead.
    + split; [done|]. split; [done|]. exists []. by rewrite app_nil_r.
    + destruct (stopped_sender_step o s1 s2 Hdead Hs) as (Hd2 & Ht2 & more2 & Hq2).
      destruct (IH Hd2) as (Hd3 & Ht3 & more3 & Hq3).
      split; [done|]. split; [lia|].
      exists (more2 ++ more3). by rewrite Hq3, Hq2, app_assoc.
  - intros q t e Ho. unfold Archive.audio_sender_body, await. rewrite Ho.
    by destruct (task_done q).
  - intros c sr q t e Ho He Hu. unfold Archive.audio_sender_body, await, task_done.
    rewrite Ho. by destruct (unfinished_tasks q).
Qed.

Lemma stopped_sender_forwards_nothing_witness :
  exists more,
    [Archive.Chunk zeros 16000] = items (@new_queue Archive.item 8) ++ more.
Proof.
  destruct (stopped_sender_forwards_nothing all_return
              (Pipeline.State [audio_frame] (Pipeline.Reading None)
                 Archive.new_audio_queue false [])
              (Pipeline.State [] (Pipeline.Reading (Some 16000))
                 (Queue 8 [Archive.Chunk zeros 16000] 1) false []))
    as ((_ & _ & Hq) & _).
  - reflexivity.
  - eapply rtc_l; [eapply Pipeline.step_read; reflexivity|]. simpl.
    eapply rtc_l; [eapply Pipeline.step_put; reflexivity|]. simpl.
    apply rtc_refl.
  - exact Hq.
Defined.

(** ** The router and the sender of [server.py] *)

Lemma server_body_text message o t :
  wire_of message = Text ->
  json_loads message <> Raise CancelledError ->
  exists a, Server.handle_websocket_messages_body message o t = (Ret a, t)
            /\ forall raw, a <> Server.Enqueue raw.
Proof.
  intros Hw Hnc.
  unfold Server.handle_websocket_messages_body, isinstance_bytes, try_except_as.
  rewrite Hw. unfold bind, lift.
  destruct (json_loads message) as [data|e].
  - unfold dict_get. destruct data; simpl; try (eexists; split; [reflexivity|done]).
    destruct (eq_str _ "end"); [eexists; split; [reflexivity|done]|].
    destruct (eq_str _ "text"); eexists; (split; [reflexivity|done]).
  - destruct e; simpl; try (eexists; split; [reflexivity|done]). done.
Qed.

Lemma server_body_binary message raw o t :
  wire_of message = Binary raw ->
  Server.handle_websocket_messages_body message o t = (Ret (Server.Enqueue raw), t).
Proof.
  intros Hw.
  unfold Server.handle_websocket_messages_body, isinstance_bytes, try_except_as.
  by rewrite Hw.
Qed.

(** X8. The router of [server.py] never fails on a frame and never touches
    the session: whatever the frames hold, it returns having put exactly
    the payloads of the binary frames on the queue, in arrival order, and
    having awaited no call; text frames of any content ([end], [text],
    garbage) change nothing. *)
Theorem server_router_enqueues_binaries (frames : list frame) (q : queue bytes)
    (o : oracle) (t : list event) :
  maxsize q <= 0 ->
  not_cancelled frames ->
  exists q',
    ServerTasks.handle_websocket_messages frames q o t = (Ret q', t)
    /\ items q' = items q ++ binaries frames
    /\ unfinished_tasks q' = (unfinished_tasks q + length (binaries frames))%nat
    /\ maxsize q' = maxsize q.
Proof.
  intros Hq Hnc. revert q Hq.
  induction Hnc as [|message rest Hm Hrest IH]; intros q Hq; simpl.
  - exists q. rewrite app_nil_r. repeat split; auto.
  - unfold bind. destruct (wire_of message) as [raw|] eqn:Hw.
    + unfold isinstance_bytes. rewrite Hw.
      rewrite (server_body_binary message raw o t Hw).
      destruct (put_unbounded q raw Hq) as [q1 Hp]. rewrite Hp.
      destruct (IH q1) as (q' & Hrun & Hi & Hu & Hmx).
      { by rewrite (put_maxsize _ _ _ Hp). }
      assert (unfinished_tasks q1 = S (unfinished_tasks q)) as Hu1.
      { unfold put in Hp. destruct (full q); [done|]. by injection Hp as <-. }
      exists q'. split; [done|].
      rewrite Hi, Hu, Hmx, Hu1, (put_items _ _ _ Hp), (put_maxsize _ _ _ Hp).
      rewrite <- app_assoc. simpl. repeat split; auto; lia.
    + unfold isinstance_bytes. rewrite Hw.
      destruct (server_body_text message o t Hw Hm) as (a & Ha & Hne).
      rewrite Ha. destruct (IH q Hq) as (q' & Hrun & Hi & Hu & Hmx).
      exists q'. destruct a as [raw| |]; [by destruct (Hne raw)|done..].
Qed.

Lemma server_router_enqueues_binaries_witness :
  exists q',
    ServerTasks.handle_websocket_messages server_frames Server.new_audio_queue
      all_return [] = (Ret q', [])
    /\ items q' = [riff_bytes; riff_bytes].
Proof.
  destruct (server_router_enqueues_binaries server_frames Server.new_audio_queue
              all_return []) as (q' & Hrun & Hi & _).
  - simpl. lia.
  - unfold not_cancelled, server_frames. repeat constructor; discriminate.
  - exists q'. split; [exact Hrun|exact Hi].
Defined.

Lemma returns_from_S o t ev k :
  returns_from o t (S k) -> o (length t) = None /\ returns_from o (t ++ [ev]) k.
Proof.
  intros H. split.
  - specialize (H 0%nat). rewrite Nat.add_0_r in H. apply H. lia.
  - intros i Hi. rewrite length_app. simpl.
    replace (length t + 1 + i)%nat with (length t + S i)%nat by lia. apply H. lia.
Qed.

Lemma process_and_send_audio_run n q o t :
  (length (items q) <= unfinished_tasks q)%nat ->
  (length (items q) <= n)%nat ->
  returns_from o t (length (items q)) ->
  exists q',
    ServerTasks.process_and_send_audio n q o t
    = (Ret tt, q', t ++ map ServerTasks.forward (items q))
    /\ items q' = []
    /\ unfinished_tasks q' = (unfinished_tasks q - length (items q))%nat
    /\ maxsize q' = maxsize q.
Proof.
  revert q t. induction n as [|n IH]; intros [m its u] t; simpl; intros Hu Hn Hr.
  - destruct its; [|simpl in Hn; lia]. eexists. rewrite app_nil_r.
    repeat split; simpl; lia.
  - destruct its as [|x rest]; simpl in *.
    + eexists. rewrite app_nil_r. repeat split; simpl; lia.
    + unfold get. simpl.
      unfold Server.process_and_send_audio_body, bind, await, lift, task_done. simpl.
      destruct (returns_from_S o t (ServerTasks.forward x) _ Hr) as [H0 Hr'].
      rewrite H0. destruct u as [|u]; [lia|].
      destruct (IH (Queue m rest u) (t ++ [ServerTasks.forward x])) as
        (q' & Hrun & Hi & Hu' & Hm); simpl; try lia; [done|].
      exists q'. unfold ServerTasks.forward in *. rewrite Hrun, <- app_assoc.
      simpl in *. repeat split; auto.
Qed.

(** X9. The sender of [server.py] forwards what is on the queue in queue
    order, one [send_realtime_input] per chunk, each declared as PCM at
    16000 Hz whatever the client recorded at; when every send returns it
    leaves the queue empty, every chunk marked done, and is suspended on
    [get]. *)
Theorem server_sender_drains_queue (n : nat) (q : queue bytes) (o : oracle)
    (t : list event) :
  (length (items q) <= unfinished_tasks q)%nat ->
  (length (items q) <= n)%nat ->
  returns_from o t (length (items q)) ->
  exists q',
    ServerTasks.process_and_send_audio n q o t
    = (Ret tt, q',
       t ++ map (fun data => SendRealtimeInput data (Mime 16000 None)) (items q))
    /\ get q' = None
    /\ unfinished_tasks q' = (unfinished_tasks q - length (items q))%nat.
Proof.
  intros Hu Hn Hr.
  destruct (process_and_send_audio_run n q o t Hu Hn Hr) as (q' & Hrun & Hi & Hu' & _).
  exists q'. split; [exact Hrun|]. split; [|done]. unfold get. by rewrite Hi.
Qed.

Lemma server_sender_drains_queue_witness :
  exists q',
    ServerTasks.process_and_send_audio 5 three_chunks all_return []
    = (Ret tt, q',
       [SendRealtimeInput riff_bytes (Mime 16000 None);
        SendRealtimeInput zeros (Mime 16000 None);
        SendRealtimeInput riff_bytes (Mime 16000 None)])
    /\ unfinished_tasks q' = O.
Proof.
  destruct (server_sender_drains_queue 5 three_chunks all_return [])
    as (q' & Hrun & _ & Hu).
  - simpl. lia.
  - simpl. lia.
  - intros i _. reflexivity.
  - exists q'. split; [exact Hrun|exact Hu].
Defined.

(** X10. A send that raises ends the sender of [server.py] at once: the
    chunks before it were forwarded, the chunk whose send raised has been
    taken from the queue and is never marked done, and the chunks behind it
    stay on the queue unsent, so that the queue counts more unfinished
    tasks than it holds items. *)
Theorem server_sender_stops_at_failed_send (n : nat) (q : queue bytes)
    (o : oracle) (t : list event) (pre : list bytes) (x : bytes)
    (post : list bytes) (e : exn) :
  items q = pre ++ x :: post ->
  (length (items q) <= unfinished_tasks q)%nat ->
  (length pre < n)%nat ->
  returns_from o t (length pre) ->
  o (length t + length pre)%nat = Some e ->
  exists q',
    ServerTasks.process_and_send_audio n q o t
    = (Raise e, q', t ++ map ServerTasks.forward pre ++ [ServerTasks.forward x])
    /\ items q' = post
    /\ unfinished_tasks q' = (unfinished_tasks q - length pre)%nat
    /\ (length (items q') < unfinished_tasks q')%nat.
Proof.
  revert n q t. induction pre as [|y pre IH]; intros n [m its u] t; simpl;
    intros Hi Hu Hn Hr Ho; subst its; (destruct n as [|n]; [lia|]); simpl.
  - unfold get. simpl.
    unfold Server.process_and_send_audio_body, bind, await. simpl.
    rewrite Nat.add_0_r in Ho. rewrite Ho.
    eexists. split; [reflexivity|]. simpl in *. repeat split; lia.
  - unfold get. simpl.
    unfold Server.process_and_send_audio_body, bind, await, lift, task_done. simpl.
    destruct (returns_from_S o t (ServerTasks.forward y) _ Hr) as [H0 Hr'].
    rewrite H0. simpl in Hu. destruct u as [|u]; [lia|].
    destruct (IH n (Queue m (pre ++ x :: post) u) (t ++ [ServerTasks.forward y]))
      as (q' & Hrun & Hi' & Hu' & Hlt); simpl; try lia; [done|done| |].
    { rewrite length_app. simpl. rewrite <- Ho. f_equal. lia. }
    exists q'. unfold ServerTasks.forward in *. rewrite Hrun, <- app_assoc.
    simpl in *. repeat split; auto.
Qed.

Lemma server_sender_stops_at_failed_send_witness :
  exists q',
    ServerTasks.process_and_send_audio 5 three_chunks
      (fails_at 1 ConnectionClosedError) []
    = (Raise ConnectionClosedError, q',
       [ServerTasks.forward riff_bytes; ServerTasks.forward zeros])
    /\ items q' = [riff_bytes]
    /\ unfinished_tasks q' = 2%nat.
Proof.
  destruct (server_sender_stops_at_failed_send 5 three_chunks
              (fails_at 1 ConnectionClosedError) [] [riff_bytes] zeros [riff_bytes]
              ConnectionClosedError)
    as (q' & Hrun & Hi & Hu & _).
  - reflexivity.
  - simpl. lia.
  - simpl. lia.
  - intros i Hi. simpl in Hi. by replace i with 0%nat by lia.
  - reflexivity.
  - exists q'. split; [exact Hrun|]. split; [exact Hi|exact Hu].
Defined.

(** ** [server.py] under every schedule *)

Lemma server_body_cases message o t :
  (exists raw, wire_of message = Binary raw
     /\ Server.handle_websocket_messages_body message o t
        = (Ret (Server.Enqueue raw), t))
  \/ (wire_of message = Text
      /\ exists r, Server.handle_websocket_messages_body message o t = (r, t)
           /\ (forall raw, r <> Ret (Server.Enqueue raw))
           /\ (json_loads message <> Raise CancelledError -> exists a, r = Ret a)).
Proof.
  destruct (wire_of message) as [raw|] eqn:Hw.
  - left. exists raw. split; [done|]. by apply server_body_binary.
  - right. split; [done|].
    unfold Server.handle_websocket_messages_body, isinstance_bytes, try_except_as.
    rewrite Hw. unfold bind, lift.
    destruct (json_loads message) as [data|e].
    + unfold dict_get. destruct data; simpl;
        try (eexists; split; [reflexivity|split; [done|by eexists]]).
      destruct (eq_str _ "end");
        [eexists; split; [reflexivity|split; [done|by eexists]]|].
      destruct (eq_str _ "text");
        eexists; (split; [reflexivity|split; [done|by eexists]]).
    + destruct e; simpl;
        eexists; (split; [reflexivity|split; [done|]]);
        first [intros H; by destruct H|by eexists].
Qed.

Lemma binaries_cons_binary message raw rest :
  wire_of message = Binary raw -> binaries (message :: rest) = raw :: binaries rest.
Proof. intros Hw. unfold binaries. simpl. unfold isinstance_bytes. by rewrite Hw. Qed.

Lemma binaries_cons_text message rest :
  wire_of message = Text -> binaries (message :: rest) = binaries rest.
Proof. intros Hw. unfold binaries. simpl. unfold isinstance_bytes. by rewrite Hw. Qed.

Lemma server_send_body data q1 o t :
  exists r, Server.process_and_send_audio_body data q1 o t
            = (r, t ++ [ServerTasks.forward data])
    /\ (forall q2, r = Ret q2 ->
          items q2 = items q1 /\ maxsize q2 = maxsize q1
          /\ unfinished_tasks q1 = S (unfinished_tasks q2))
    /\ (o (length t) = None -> unfinished_tasks q1 <> O -> exists q2, r = Ret q2).
Proof.
  unfold Server.process_and_send_audio_body, bind, await, lift, task_done.
  destruct (o (length t)) as [e|].
  - eexists. split; [reflexivity|]. split; [done|]. done.
  - destruct (unfinished_tasks q1) as [|u] eqn:Hu.
    + eexists. split; [reflexivity|]. split; [done|]. done.
    + eexists. split; [reflexivity|]. split.
      * intros q2 [= <-]. simpl. done.
      * intros _ _. by eexists.
Qed.

Section ServerPipelineFacts.
Import ServerPipeline.
Variable o : oracle.
Variable frames : list frame.
#[local] Arguments binaries : simpl never.

Lemma server_step_fuel s s' : step o s s' -> (fuel s' < fuel s)%nat.
Proof.
  intros Hs. destruct Hs as [m rest q snd t a t' q' Hb Hr|m rest q snd t e t' Hb
                            |data inb rt q q1 r t t' Hg Hb]; unfold fuel; simpl.
  - destruct a as [raw| |]; simpl in Hr.
    + rewrite (put_items _ _ _ Hr), length_app. simpl. lia.
    + injection Hr as <-. lia.
    + injection Hr as <-. lia.
  - lia.
  - rewrite (get_items _ _ _ Hg). simpl.
    destruct (server_send_body data q1 o t) as (r' & Hb' & Hret & _).
    rewrite Hb in Hb'. injection Hb' as <- _.
    destruct r as [q2|e]; simpl; [|lia].
    destruct (Hret q2 eq_refl) as (-> & _). lia.
Qed.

Lemma server_pipeline_inv_start : server_pipeline_inv frames (start frames).
Proof. unfold server_pipeline_inv, server_pending, server_calls. simpl. done. Qed.

Lemma server_pipeline_inv_step s s' :
  server_pipeline_inv frames s -> step o s s' -> server_pipeline_inv frames s'.
Proof.
  intros (Hc & Hm & Hu) Hs.
  destruct Hs as [m rest q snd t a t' q' Hb Hr|m rest q snd t e t' Hb
                 |data inb rt q q1 r t t' Hg Hb];
    unfold server_pipeline_inv, server_pending in *; simpl in *.
  - destruct (server_body_cases m o t) as [(raw & Hw & Hb')|(Hw & r & Hb' & Hne & _)];
      rewrite Hb in Hb'.
    + injection Hb' as -> ->. simpl in Hr.
      rewrite (binaries_cons_binary _ _ _ Hw) in Hc.
      rewrite (put_items _ _ _ Hr), (put_maxsize _ _ _ Hr), <- app_assoc.
      split; [done|]. split; [done|]. intros Hsnd. rewrite length_app. simpl.
      unfold put in Hr. destruct (full q); [done|]. injection Hr as <-. simpl.
      rewrite (Hu Hsnd). lia.
    + injection Hb' as <- ->. rewrite (binaries_cons_text _ _ Hw) in Hc.
      destruct a as [raw| |]; [by destruct (Hne raw)|..]; by injection Hr as <-.
  - destruct (server_body_cases m o t) as [(raw & Hw & Hb')|(Hw & r & Hb' & _)];
      rewrite Hb in Hb'; [done|].
    injection Hb' as _ ->. by rewrite (binaries_cons_text _ _ Hw) in Hc.
  - destruct (server_send_body data q1 o t) as (r' & Hb' & Hret & _).
    rewrite Hb in Hb'. injection Hb' as <- ->.
    rewrite (get_items _ _ _ Hg) in Hc, Hu. simpl in Hc, Hu.
    rewrite <- (get_maxsize _ _ _ Hg) in Hm.
    assert (unfinished_tasks q1 = unfinished_tasks q) as Hu1.
    { unfold get in Hg. destruct (items q); [done|]. by injection Hg as _ <-. }
    destruct r as [q2|e]; simpl.
    + destruct (Hret q2 eq_refl) as (Hi2 & Hm2 & Hu2).
      rewrite Hi2, Hm2, <- app_assoc. simpl. split; [done|]. split; [done|].
      intros _. specialize (Hu eq_refl). lia.
    + rewrite <- app_assoc. simpl. done.
Qed.

Lemma server_pipeline_inv_reachable s :
  reachable o frames s -> server_pipeline_inv frames s.
Proof.
  unfold reachable. revert s. apply rtc_ind_r.
  - apply server_pipeline_inv_start.
  - intros s1 s2 _ Hs IH. by eapply server_pipeline_inv_step.
Qed.

Hypothesis Hreturns : returns_from o [] (length (binaries frames)).

Lemma server_call_returns s :
  server_pipeline_inv frames s -> items (audio_queue s) <> [] ->
  o (length (calls s)) = None.
Proof.
  intros (Hc & _) Hne. apply (Hreturns (length (calls s))).
  apply (f_equal length) in Hc. unfold server_calls, server_pending in Hc.
  rewrite length_app, !length_map, length_app in Hc.
  destruct (items (audio_queue s)); [done|]. simpl in Hc. lia.
Qed.

Lemma server_alive_step s s' :
  server_pipeline_inv frames s -> server_alive s -> step o s s' -> server_alive s'.
Proof.
  intros Hinv (Hrt & Hsnd & Hnc) Hs. pose proof (server_call_returns s Hinv) as Hret.
  destruct Hinv as (_ & _ & Hu).
  destruct Hs as [m rest q snd t a t' q' Hb Hr|m rest q snd t e t' Hb
                 |data inb rt q q1 r t t' Hg Hb]; unfold server_alive in *;
    simpl in *.
  - split; [done|]. split; [done|]. by inversion Hnc.
  - exfalso. inversion Hnc as [|? ? Hm Hrest]; subst.
    destruct (server_body_cases m o t) as [(raw & Hw & Hb')|(Hw & r & Hb' & _ & Hok)];
      rewrite Hb in Hb'; [done|].
    injection Hb' as <- _. by destruct (Hok Hm).
  - split; [done|]. split; [|done].
    destruct (server_send_body data q1 o t) as (r' & Hb' & _ & Hok).
    rewrite Hb in Hb'. injection Hb' as <- _.
    rewrite (get_items _ _ _ Hg) in Hret, Hu.
    assert (unfinished_tasks q1 = unfinished_tasks q) as Hu1.
    { unfold get in Hg. destruct (items q); [done|]. by injection Hg as _ <-. }
    destruct Hok as [q2 ->]; [by apply Hret|simpl in Hu; rewrite Hu1, Hu; done|done].
Qed.

Hypothesis Hframes : not_cancelled frames.

Lemma server_alive_reachable s :
  reachable o frames s -> server_alive s.
Proof.
  intros Hr. cut (server_pipeline_inv frames s /\ server_alive s); [tauto|].
  revert s Hr. apply rtc_ind_r.
  - split; [apply server_pipeline_inv_start|]. repeat split; done.
  - intros s1 s2 _ Hs [Hi Ha]. split.
    + by eapply server_pipeline_inv_step.
    + by eapply server_alive_step.
Qed.

Lemma server_quiescent_done s :
  reachable o frames s -> quiescent o s ->
  calls s = server_calls frames
  /\ items (audio_queue s) = [] /\ unfinished_tasks (audio_queue s) = O.
Proof.
  intros Hr Hq.
  pose proof (server_pipeline_inv_reachable s Hr) as (Hc & Hm & Hu).
  destruct (server_alive_reachable s Hr) as (Hrt & Hsnd & Hnc).
  destruct s as [inb rt q snd t]. unfold server_pending in *. simpl in *. subst rt snd.
  assert (items q = []) as Hi.
  { destruct (items q) as [|data rest] eqn:Hi; [done|]. exfalso.
    destruct (Server.process_and_send_audio_body data
                (Queue (maxsize q) rest (unfinished_tasks q)) o t) as [r t'] eqn:Hb.
    eapply Hq. eapply step_send; [|exact Hb]. unfold get. by rewrite Hi. }
  assert (inb = []) as ->.
  { destruct inb as [|m rest]; [done|]. exfalso.
    inversion Hnc as [|? ? Hmc Hrest]; subst.
    destruct (server_body_cases m o t) as [(raw & Hw & Hb)|(Hw & r & Hb & _ & Hok)].
    - destruct (put_unbounded q raw) as [q' Hp]; [lia|].
      eapply Hq. eapply step_route; [exact Hb|exact Hp].
    - destruct (Hok Hmc) as [a ->].
      destruct a as [raw| |].
      + destruct (put_unbounded q raw) as [q' Hp]; [lia|].
        eapply Hq. eapply step_route; [exact Hb|exact Hp].
      + eapply Hq. eapply step_route; [exact Hb|reflexivity].
      + eapply Hq. eapply step_route; [exact Hb|reflexivity]. }
  rewrite Hi in Hc, Hu. simpl in Hc. rewrite app_nil_r in Hc.
  split; [done|]. split; [done|]. by apply Hu.
Qed.

End ServerPipelineFacts.

(** X11. [server.py] forwards the audio in arrival order under every
    schedule of its router and its sender, and whatever the session does:
    the calls issued are at any time a prefix of one
    [send_realtime_input] per binary frame, in the order of the frames,
    nothing else being sent to the session; every schedule ends; and when
    no send raises, a schedule that has ended has forwarded every binary
    frame and left the queue empty with every chunk marked done. *)
Theorem server_forwards_in_arrival_order (o : oracle) (frames : list frame) :
  (forall s, ServerPipeline.reachable o frames s ->
     ServerPipeline.calls s `prefix_of` server_calls frames)
  /\ (forall s s', ServerPipeline.step o s s' ->
        (ServerPipeline.fuel s' < ServerPipeline.fuel s)%nat)
  /\ (returns_from o [] (length (binaries frames)) -> not_cancelled frames ->
      forall s, ServerPipeline.reachable o frames s -> ServerPipeline.quiescent o s ->
        ServerPipeline.calls s = server_calls frames
        /\ items (ServerPipeline.audio_queue s) = []
        /\ unfinished_tasks (ServerPipeline.audio_queue s) = O).
Proof.
  refine (conj _ (conj _ _)).
  - intros s Hr. destruct (server_pipeline_inv_reachable o frames s Hr) as (Hc & _).
    rewrite Hc. by eexists.
  - apply server_step_fuel.
  - intros Hret Hnc s Hr Hq. by apply (server_quiescent_done o frames).
Qed.

Lemma server_final_reachable :
  ServerPipeline.reachable all_return server_frames server_final.
Proof.
  unfold ServerPipeline.reachable, ServerPipeline.start, server_frames, server_final.
  eapply rtc_l; [eapply ServerPipeline.step_route; reflexivity|]. simpl.
  eapply rtc_l; [eapply ServerPipeline.step_send; reflexivity|]. simpl.
  eapply rtc_l; [eapply ServerPipeline.step_route; reflexivity|]. simpl.
  eapply rtc_l; [eapply ServerPipeline.step_route; reflexivity|]. simpl.
  eapply rtc_l; [eapply ServerPipeline.step_route; reflexivity|]. simpl.
  eapply rtc_l; [eapply ServerPipeline.step_route; reflexivity|]. simpl.
  eapply rtc_l; [eapply ServerPipeline.step_send; reflexivity|]. simpl.
  apply rtc_refl.
Qed.

Lemma server_final_quiescent : ServerPipeline.quiescent all_return server_final.
Proof. intros s' Hs. inversion Hs; subst; discriminate. Qed.

Lemma server_forwards_in_arrival_order_witness :
  ServerPipeline.calls server_final = server_calls server_frames.
Proof.
  destruct (server_forwards_in_arrival_order all_return server_frames)
    as (_ & _ & Hdone).
  destruct (Hdone (fun i _ => eq_refl)) with (s := server_final) as (Hc & _).
  - unfold not_cancelled, server_frames. repeat constructor; discriminate.
  - apply server_final_reachable.
  - apply server_final_quiescent.
  - exact Hc.
Defined.

(** ** Failures of awaited calls *)

Section FailFast.
Context (own : exn -> Prop).

Lemma ff_ret {A} (a : A) : fail_fast own (ret a).
Proof.
  intros o t. exists []. simpl. rewrite app_nil_r.
  split; [done|]. split; [intros; lia|done].
Qed.

Lemma ff_raise {A} e : own e -> fail_fast own (@raise A e).
Proof.
  intros He o t. exists []. simpl. rewrite app_nil_r.
  split; [done|]. split; [intros; lia|].
  intros e' [= <-]. right. split; [done|]. intros; lia.
Qed.

Lemma ff_await ev : fail_fast own (await ev).
Proof.
  intros o t. exists [ev]. unfold await. simpl. split; [done|]. split.
  - intros i e Hi Ho. assert (i = 0)%nat as -> by lia.
    rewrite Nat.add_0_r in Ho. by rewrite Ho.
  - intros e He. left. exists 0%nat. split; [done|]. rewrite Nat.add_0_r.
    destruct (o (length t)); [by injection He as ->|done].
Qed.

Lemma ff_bind {A B} (m : M A) (f : A -> M B) :
  fail_fast own m -> (forall a, fail_fast own (f a)) -> fail_fast own (bind m f).
Proof.
  intros Hm Hf o t. unfold bind.
  destruct (Hm o t) as (l1 & Ht1 & Hc1 & Hr1).
  destruct (m o t) as [[a|e] t1]; simpl in *; subst t1.
  - destruct (Hf a o (t ++ l1)) as (l2 & Ht2 & Hc2 & Hr2).
    assert (forall i, (i < length l1)%nat -> o (length t + i)%nat = None) as Hall.
    { intros i Hi. destruct (o (length t + i)%nat) as [e|] eqn:Ho; [|done].
      by destruct (Hc1 i e Hi Ho). }
    exists (l1 ++ l2). rewrite Ht2, app_assoc. split; [done|].
    rewrite length_app in Hc2, Hr2. split.
    + intros i e Hi Ho. rewrite length_app in Hi |- *.
      destruct (decide (i < length l1)%nat) as [Hlt|Hge].
      * rewrite (Hall i Hlt) in Ho. done.
      * destruct (Hc2 (i - length l1)%nat e); [lia| |].
        { rewrite <- Ho. f_equal. lia. }
        split; [done|lia].
    + intros e He. destruct (Hr2 e He) as [(i & Hi & Ho)|(Ho & Hret)].
      * left. exists (length l1 + i)%nat. rewrite length_app. split; [lia|].
        rewrite <- Ho. f_equal. lia.
      * right. split; [done|]. intros i Hi. rewrite length_app in Hi.
        destruct (decide (i < length l1)%nat) as [Hlt|Hge]; [by apply Hall|].
        rewrite <- (Hret (i - length l1)%nat); [f_equal|]; lia.
  - exists l1. split; [done|]. split.
    + intros i e' Hi Ho. by destruct (Hc1 i e' Hi Ho) as [[= ->] ?].
    + intros e' [= <-]. by apply Hr1.
Qed.

Lemma ff_async_for {A} (body : A -> M unit) xs :
  (forall x, fail_fast own (body x)) -> fail_fast own (async_for body xs).
Proof.
  intros Hb. induction xs as [|x xs IH]; simpl.
  - apply ff_ret.
  - apply ff_bind; [apply Hb|]. intros _. apply IH.
Qed.

End FailFast.

Lemma ff_weaken {A} (own own' : exn -> Prop) (m : M A) :
  (forall e, own e -> own' e) -> fail_fast own m -> fail_fast own' m.
Proof.
  intros Hsub Hm o t. destruct (Hm o t) as (l & Hl & Hc & Hr).
  exists l. split; [done|]. split; [done|]. intros e He.
  destruct (Hr e He) as [?|[? ?]]; [by left|right; auto].
Qed.

Lemma ff_async_for_stream own body s :
  (forall r, fail_fast own (body r)) ->
  (forall e, failure s = Some e -> own e) ->
  fail_fast own (async_for_stream body s).
Proof.
  intros Hb Hf. unfold async_for_stream.
  apply ff_bind; [by apply ff_async_for|]. intros _.
  destruct (failure s) as [e|]; [apply ff_raise; by apply Hf|apply ff_ret].
Qed.

Lemma async_for_stream_ends body s o t :
  failure s = None -> async_for_stream body s o t = async_for body (yielded s) o t.
Proof.
  intros Hf. unfold async_for_stream, bind. rewrite Hf.
  by destruct (async_for body (yielded s) o t) as [[[]|e] t'].
Qed.

(** Computations in which nothing is caught. *)
Ltac ff :=
  repeat first
    [ exact (ff_ret _ _)
    | exact (ff_await _ _)
    | apply ff_raise; reflexivity
    | apply ff_async_for; intros ?
    | apply ff_bind; [|intros ?]
    | match goal with
      | |- fail_fast _ (match ?x with _ => _ end) => destruct x
      end ].

Lemma server_body_fails_fast r :
  fail_fast (fun e => e = TypeError) (Server.receive_and_play_body r).
Proof.
  unfold Server.receive_and_play_body.
  apply ff_bind; [ff|intros _].
  apply ff_bind; [ff|intros _].
  apply ff_bind; [|intros _; ff].
  destruct (content r) as [sc|]; [|ff].
  destruct (model_turn sc) as [[parts|]|]; [|ff..].
  apply ff_async_for. intros p. unfold Server.send_part. ff.
Qed.

(** X12. The receiver of [server.py] catches nothing: a send to the client
    that raises is the last thing it does, the rest of the response and
    every later response is dropped, and the exception is the one the task
    fails with; besides a failed send, the only exceptions it raises are the
    [TypeError] of a model turn without parts or of a part whose inline
    data is [None], and the exception with which the stream of the session
    fails.  While no stream fails it does what the loop over the responses
    alone does. *)
Theorem server_receiver_fails_fast (turns : list stream) :
  fail_fast (fun e => e = TypeError \/ fails_with turns e)
            (ServerTasks.receive_and_play turns)
  /\ (Forall (fun s => failure s = None) turns ->
      forall o t,
        ServerTasks.receive_and_play turns o t
        = Server.receive_and_play (map yielded turns) o t).
Proof.
  split.
  - unfold ServerTasks.receive_and_play.
    induction turns as [|s turns IH]; simpl; [apply ff_ret|].
    apply ff_bind.
    + apply ff_async_for_stream.
      * intros r. eapply ff_weaken; [|apply server_body_fails_fast].
        intros e ->. by left.
      * intros e He. right. exists s. split; [by left|done].
    + intros _. eapply ff_weaken; [|exact IH].
      intros e [->|(s' & Hin & Hf)]; [by left|].
      right. exists s'. split; [by right|done].
  - intros Hall. unfold ServerTasks.receive_and_play, Server.receive_and_play.
    induction Hall as [|s turns Hs Hall IH]; intros o t; simpl; [done|].
    unfold bind. rewrite (async_for_stream_ends _ s o t Hs).
    destruct (async_for Server.receive_and_play_body (yielded s) o t) as [[[]|e] t'];
      [apply IH|done].
Qed.

(** X13. On [archive/main.py] a failed send of audio to the client costs
    that frame only: the exception is caught on the spot and the receiver
    goes on with the transcript and the turn boundary of the same response
    as if the response had carried no audio; and the receiver task itself
    never fails, whatever is raised inside it. *)
Theorem archive_receiver_survives_failed_audio (r : response) (d : bytes)
    (o : oracle) (t : list event) (e : exn) :
  data r = Some d ->
  o (length t) = Some e ->
  is_Exception e = true ->
  Archive.model_receiver_body r o t
  = Archive.model_receiver_body (without_data r) o (t ++ [WsSend (OAudio d)])
  /\ forall responses o' t', fst (Archive.model_receiver responses o' t') = Ret tt.
Proof.
  intros Hd Ho He. split.
  - unfold Archive.model_receiver_body, without_data, bind, try_except, await. simpl.
    rewrite Hd, Ho, He. reflexivity.
  - intros responses o' t'. unfold Archive.model_receiver, try_except.
    by destruct (async_for _ _ _ _) as [[[]|e'] t1].
Qed.

Lemma archive_receiver_survives_failed_audio_witness :
  Archive.model_receiver_body audio_response (fails_at 0 ConnectionClosedError) []
  = (Ret tt, [WsSend (OAudio zeros)])
  /\ fst (Archive.model_receiver [audio_response; turn_complete_response]
            (fails_at 1 CancelledError) []) = Ret tt.
Proof.
  destruct (archive_receiver_survives_failed_audio audio_response zeros
              (fails_at 0 ConnectionClosedError) [] ConnectionClosedError)
    as [Hbody Hnever]; [reflexivity..|].
  split; [rewrite Hbody; reflexivity|apply Hnever].
Defined.

(** ** [archive/main2.py] *)

Lemma main2_client_loop messages o t :
  raises_only_exceptions o ->
  not_cancelled (received messages) ->
  Main2Tasks.client_loop messages o t
  = (Ret tt, t ++ map Main2Tasks.forward (binaries (received messages))).
Proof.
  intros Ho. revert t. induction messages as [|[|m] rest IH]; intros t Hnc; simpl.
  - by rewrite app_nil_r.
  - unfold bind. simpl. by rewrite app_nil_r.
  - inversion Hnc as [|? ? Hm Hrest]; subst. unfold bind.
    unfold binaries. simpl. unfold isinstance_bytes.
    destruct (wire_of m) as [raw|] eqn:Hw; simpl.
    + unfold bind, try_except, await.
      destruct (o (length t)) as [e|] eqn:Hc.
      * rewrite (Ho _ _ Hc). simpl. rewrite (IH _ Hrest), <- app_assoc. done.
      * simpl. rewrite (IH _ Hrest), <- app_assoc. done.
    + destruct (json_loads m) as [text_data|e].
      * destruct (dict_get text_data "type" JNull) as [ty|e] eqn:Hg; simpl.
        -- by rewrite (IH _ Hrest).
        -- destruct text_data; simpl in Hg; try discriminate;
             injection Hg as <-; simpl; by rewrite (IH _ Hrest).
      * destruct e; simpl; try by rewrite (IH _ Hrest). done.
Qed.

(** X14. [archive/main2.py] has no queue between the client and the
    session: every binary frame received before the disconnect is sent on
    at once, declared as PCM at 16000 Hz, in arrival order, also after a
    send that failed, a failed send being logged and skipped; text frames
    are only logged, nothing is read after the disconnect, and the pump
    returns normally. *)
Theorem main2_forwards_every_binary_frame (messages : list Main2.asgi_message)
    (o : oracle) (t : list event) :
  raises_only_exceptions o ->
  not_cancelled (received messages) ->
  Main2Tasks.pump_client_to_gemini messages o t
  = (Ret tt,
     t ++ map (fun raw => SendRealtimeInput raw (Mime 16000 None))
              (binaries (received messages))).
Proof.
  intros Ho Hnc. unfold Main2Tasks.pump_client_to_gemini, try_except.
  by rewrite (main2_client_loop messages o t Ho Hnc).
Qed.

Lemma fails_at_exception k e :
  is_Exception e = true -> raises_only_exceptions (fails_at k e).
Proof.
  intros He n e'. unfold fails_at. destruct (n =? k)%nat; [|done].
  by intros [= <-].
Qed.

Lemma main2_forwards_every_binary_frame_witness :
  Main2Tasks.pump_client_to_gemini main2_messages
    (fails_at 0 ConnectionClosedError) []
  = (Ret tt, [SendRealtimeInput riff_bytes (Mime 16000 None);
              SendRealtimeInput riff_bytes (Mime 16000 None)]).
Proof.
  apply (main2_forwards_every_binary_frame main2_messages
           (fails_at 0 ConnectionClosedError) []).
  - by apply fails_at_exception.
  - unfold not_cancelled, main2_messages. simpl. repeat constructor; discriminate.
Defined.

Lemma main2_body_fails_fast own r :
  fail_fast own (Main2.pump_gemini_to_client_body r).
Proof.
  unfold Main2.pump_gemini_to_client_body.
  apply ff_bind; [ff|intros _]. destruct (content r) as [sc|]; [|ff].
  apply ff_bind; [ff|intros _; ff].
Qed.

Lemma main2_receiver_loop_never_closes s :
  adds is_close_call (async_for_stream Main2.pump_gemini_to_client_body s) 0.
Proof.
  unfold async_for_stream. apply (adds_bind _ _ _ 0 0); [|intros _; adds0].
  apply adds_async_for_0. intros r. unfold Main2.pump_gemini_to_client_body.
  apply (adds_bind _ _ _ 0 0).
  - destruct (data r); [exact (adds_await _ _)|adds0].
  - intros _. destruct (content r) as [sc|]; [|adds0].
    apply (adds_bind _ _ _ 0 0); [|intros _].
    + destruct (transcript_text _); [exact (adds_await _ _)|adds0].
    + destruct (transcript_text _); [exact (adds_await _ _)|adds0].
Qed.

(** X15. The pump from the session to the client of [archive/main2.py]
    stops at the first send that fails, or when the stream of the session
    fails, and then closes the client's socket, once, as the last thing it
    does, and returns normally, also when the close itself fails; when
    every send returns and the stream ends without failing it never closes
    the socket; and a stream that ends by a cancellation cancels the pump,
    the socket left as it is. *)
Theorem main2_receiver_closes_on_failure (s : stream) (o : oracle)
    (t : list event) :
  raises_only_exceptions o ->
  exists l,
    total is_close_call l = O
    /\ (((forall i, (i < length l)%nat -> o (length t + i)%nat = None)
         /\ failure s = None
         /\ Main2Tasks.pump_gemini_to_client s o t = (Ret tt, t ++ l))
        \/ (((exists i e, S i = length l /\ o (length t + i)%nat = Some e)
             \/ ((forall i, (i < length l)%nat -> o (length t + i)%nat = None)
                 /\ exists e, failure s = Some e /\ is_Exception e = true))
            /\ Main2Tasks.pump_gemini_to_client s o t
               = (Ret tt, t ++ l ++ [WsClose]))
        \/ ((forall i, (i < length l)%nat -> o (length t + i)%nat = None)
            /\ exists e, failure s = Some e /\ is_Exception e = false
                         /\ Main2Tasks.pump_gemini_to_client s o t
                            = (Raise e, t ++ l))).
Proof.
  intros Ho. unfold Main2Tasks.pump_gemini_to_client, try_except.
  destruct (ff_async_for_stream (fun e => failure s = Some e)
              Main2.pump_gemini_to_client_body s
              (main2_body_fails_fast _) (fun e He => He) o t) as (l & Hl & Hc & Hr).
  destruct (main2_receiver_loop_never_closes s o t) as (l' & Hl' & Hle & _).
  rewrite Hl in Hl'. apply app_inv_head in Hl'. subst l'.
  exists l. split; [lia|].
  destruct (async_for_stream Main2.pump_gemini_to_client_body s o t) as [[[]|e] t1]
    eqn:Hrun; simpl in *; subst t1.
  - left.
    assert (forall i, (i < length l)%nat -> o (length t + i)%nat = None) as Hall.
    { intros i Hi. destruct (o (length t + i)%nat) as [e|] eqn:Hoi; [|done].
      by destruct (Hc i e Hi Hoi). }
    split; [done|]. split; [|done].
    destruct (failure s) as [e|] eqn:Hf; [|done]. exfalso.
    unfold async_for_stream, bind in Hrun. rewrite Hf in Hrun.
    by destruct (async_for Main2.pump_gemini_to_client_body (yielded s) o t)
      as [[[]|e'] t'].
  - assert (forall e', o (length (t ++ l)) = Some e' ->
              (if is_Exception e' then (Ret tt, (t ++ l) ++ [WsClose])
               else (Raise e', (t ++ l) ++ [WsClose]))
              = (@Ret unit tt, t ++ l ++ [WsClose])) as Hclose.
    { intros e' He'. rewrite (Ho _ _ He'). by rewrite <- app_assoc. }
    destruct (Hr e eq_refl) as [(i & Hi & Hoi)|[Hf Hall]].
    + right. left. split; [left; by exists i, e|].
      rewrite (Ho _ _ Hoi). unfold await.
      destruct (o (length (t ++ l))) as [e'|] eqn:Hcl; [by apply Hclose|].
      by rewrite <- app_assoc.
    + destruct (is_Exception e) eqn:He.
      * right. left. split; [right; split; [done|by exists e]|].
        unfold await.
        destruct (o (length (t ++ l))) as [e'|] eqn:Hcl; [by apply Hclose|].
        by rewrite <- app_assoc.
      * right. right. split; [done|]. by exists e.
Qed.

Lemma main2_receiver_closes_on_failure_witness :
  Main2Tasks.pump_gemini_to_client
    (Stream [audio_response] (Some ConnectionClosedError)) all_return []
  = (Ret tt, [WsSend (OBinary zeros); WsClose])
  /\ exists l,
    total is_close_call l = O
    /\ (((forall i, (i < length l)%nat ->
            fails_at 0 ConnectionClosedError (length (@nil event) + i)%nat = None)
         /\ failure (Stream [audio_response; audio_response] None) = None
         /\ Main2Tasks.pump_gemini_to_client
              (Stream [audio_response; audio_response] None)
              (fails_at 0 ConnectionClosedError) [] = (Ret tt, [] ++ l))
        \/ (((exists i e, S i = length l
                /\ fails_at 0 ConnectionClosedError (length (@nil event) + i)%nat
                   = Some e)
             \/ ((forall i, (i < length l)%nat ->
                    fails_at 0 ConnectionClosedError (length (@nil event) + i)%nat
                    = None)
                 /\ exists e, failure (Stream [audio_response; audio_response] None)
                              = Some e /\ is_Exception e = true))
            /\ Main2Tasks.pump_gemini_to_client
                 (Stream [audio_response; audio_response] None)
                 (fails_at 0 ConnectionClosedError) []
               = (Ret tt, [] ++ l ++ [WsClose]))
        \/ ((forall i, (i < length l)%nat ->
               fails_at 0 ConnectionClosedError (length (@nil event) + i)%nat = None)
            /\ exists e, failure (Stream [audio_response; audio_response] None)
                         = Some e /\ is_Exception e = false
                         /\ Main2Tasks.pump_gemini_to_client
                              (Stream [audio_response; audio_response] None)
                              (fails_at 0 ConnectionClosedError) []
                            = (Raise e, [] ++ l))).
Proof.
  split; [reflexivity|].
  apply (main2_receiver_closes_on_failure
           (Stream [audio_response; audio_response] None)
           (fails_at 0 ConnectionClosedError) []).
  by apply fails_at_exception.
Defined.

Lemma main2_pump_stream_ends s o t :
  failure s = None ->
  Main2Tasks.pump_gemini_to_client s o t
  = Main2.pump_gemini_to_client (yielded s) o t.
Proof.
  intros Hf. unfold Main2Tasks.pump_gemini_to_client, Main2.pump_gemini_to_client,
    try_except. by rewrite (async_for_stream_ends _ s o t Hf).
Qed.

(** ** The count of unfinished tasks on [archive/main.py] *)

Section InFlightFacts.
Import Archive InFlight.
Variable o : oracle.

Lemma get_unfinished {A} (q : queue A) x q1 :
  get q = Some (x, q1) -> unfinished_tasks q1 = unfinished_tasks q.
Proof. unfold get. destruct (items q); [done|]. by intros [= _ <-]. Qed.

Lemma put_unfinished {A} (q : queue A) x q' :
  put q x = Some q' -> unfinished_tasks q' = S (unfinished_tasks q).
Proof. unfold put. destruct (full q); [done|]. by intros [= <-]. Qed.

Lemma in_flight_balanced_step s s' :
  step o s s' ->
  unfinished_tasks (audio_queue s)
  = (length (items (audio_queue s)) + in_flight (send_task s))%nat ->
  unfinished_tasks (audio_queue s')
  = (length (items (audio_queue s')) + in_flight (send_task s'))%nat.
Proof.
  intros Hs IH.
  destruct Hs as [m rest csr q snd t r t' Hb|it csr inb q q' snd t Hp
                 |it inb rd q q1 t Hg|it issued inb rd q t g q' t' Hb]; simpl in *.
  - done.
  - rewrite (put_items _ _ _ Hp), (put_unfinished _ _ _ Hp), length_app. simpl. lia.
  - rewrite (get_unfinished _ _ _ Hg). rewrite (get_items _ _ _ Hg) in IH.
    simpl in IH. lia.
  - apply audio_sender_body_spec in Hb as (_ & _ & Hi & Hu & _).
    rewrite Hi. destruct g; simpl; destruct Hu as [Hu|(Hu & _)]; lia.
Qed.

Lemma in_flight_balanced frames s :
  reachable o frames s ->
  unfinished_tasks (audio_queue s)
  = (length (items (audio_queue s)) + in_flight (send_task s))%nat.
Proof.
  unfold reachable. revert s. apply rtc_ind_r; [done|].
  intros s1 s2 _ Hs IH. by eapply in_flight_balanced_step.
Qed.

(** An iteration of the sender in [Pipeline] is a [get] and the end of the
    call here; the steps of the reader are the same. *)
Lemma between_step s s' :
  Pipeline.step o s s' -> rtc (step o) (between s) (between s').
Proof.
  intros Hs.
  destruct Hs as [m rest csr q snd t r t' Hb|it csr inb q q' snd t Hp
                 |it inb rd q q1 q2 g t t' Hg Hb]; unfold between; simpl.
  - apply rtc_once. by apply step_read.
  - apply rtc_once. by apply step_put.
  - eapply rtc_l; [by apply step_get|].
    pose proof (audio_sender_body_spec o it q1 t g q2 t' Hb) as (-> & _).
    apply rtc_once. by eapply step_done.
Qed.

Lemma between_reachable frames s :
  Pipeline.reachable o frames s -> reachable o frames (between s).
Proof.
  unfold Pipeline.reachable, reachable. revert s. apply rtc_ind_r; [apply rtc_refl|].
  intros s1 s2 _ Hs IH. eapply rtc_trans; [exact IH|]. by apply between_step.
Qed.

End InFlightFacts.

(** X16. The sender of [archive/main.py] marks every item it takes as done,
    whether the call for it returned or raised.  Under every schedule, the
    reader running while the sender is in a call, and whatever the session
    does: the queue counts as unfinished the items it holds, and one more
    while the sender is between its [get] and its [task_done]; the
    [task_done] that ends a call never raises [ValueError]; and between
    two iterations of the sender the count is the number of items held. *)
Theorem archive_every_item_marked_done (o : oracle) (frames : list frame) :
  (forall s, InFlight.reachable o frames s ->
     unfinished_tasks (InFlight.audio_queue s)
     = (length (items (InFlight.audio_queue s))
        + InFlight.in_flight (InFlight.send_task s))%nat
     /\ (InFlight.in_flight (InFlight.send_task s) = 1%nat ->
         exists q', task_done (InFlight.audio_queue s) = Ret q'
                    /\ unfinished_tasks q' = length (items q')))
  /\ (forall s, Pipeline.reachable o frames s ->
        InFlight.reachable o frames (InFlight.between s)
        /\ unfinished_tasks (Pipeline.audio_queue s)
           = length (items (Pipeline.audio_queue s))).
Proof.
  split.
  - intros s Hr. pose proof (in_flight_balanced o frames s Hr) as Hu.
    split; [done|]. intros Hf. rewrite Hf in Hu. unfold task_done. rewrite Hu.
    rewrite Nat.add_1_r. eexists. split; [reflexivity|done].
  - intros s Hr. pose proof (between_reachable o frames s Hr) as Hb.
    split; [done|]. pose proof (in_flight_balanced o frames _ Hb) as Hu.
    simpl in Hu. rewrite Hu. by destruct (Pipeline.send_task s); simpl; lia.
Qed.

Lemma in_flight_state_reachable :
  InFlight.reachable all_return nine_frames in_flight_state.
Proof.
  unfold InFlight.reachable, InFlight.start, nine_frames, in_flight_state. simpl.
  eapply rtc_l; [eapply InFlight.step_read; reflexivity|]. simpl.
  eapply rtc_l; [eapply InFlight.step_put; reflexivity|]. simpl.
  eapply rtc_l; [eapply InFlight.step_get; reflexivity|]. simpl.
  do 8 (eapply rtc_l; [eapply InFlight.step_read; reflexivity|]; simpl;
        eapply rtc_l; [eapply InFlight.step_put; reflexivity|]; simpl).
  apply rtc_refl.
Qed.

Lemma archive_every_item_marked_done_witness :
  length (items (InFlight.audio_queue in_flight_state)) = 8%nat
  /\ unfinished_tasks (InFlight.audio_queue in_flight_state) = 9%nat
  /\ exists q', task_done (InFlight.audio_queue in_flight_state) = Ret q'
                /\ unfinished_tasks q' = length (items q').
Proof.
  destruct (archive_every_item_marked_done all_return nine_frames) as [Hfine _].
  destruct (Hfine in_flight_state in_flight_state_reachable) as [Hu Hdone].
  split; [reflexivity|]. split; [exact Hu|]. by apply Hdone.
Defined.

(** ** A connection and the registry *)

Section Registry.
Import Common Lifecycle Inv.
Variable w : websocket.

Lemma handle_client_registry s s' id :
  handle_client w s s' -> id <> py_id w ->
  active_clients s' !! id = active_clients s !! id.
Proof.
  intros Hs Hne. destruct Hs as [s Hpc|s Hpc|s Hpc|s e Hpc|s Hpc]; simpl; try done.
  - by apply lookup_insert_ne.
  - by apply cleanup_lookup_ne.
Qed.

Lemma own_step_registry s s' id :
  own_step w s s' -> id <> py_id w ->
  active_clients s' !! id = active_clients s !! id.
Proof.
  intros [Hs|[Hs|[Hs|[Hs|Hs]]]] Hne.
  - destruct Hs as [s s' Hc|s Hpc|s Hpc|s Hpc|s Hpc|s Hpc|s Hpc Hd|s Hpc|s Hpc Hd|s r Hpc];
      [by eapply handle_client_registry|done..].
  - destruct Hs as [s s' Hc|s Hpc|s e Hpc|s Hpc|s Hpc Hf Hr|s Hpc Hd|s r Hpc];
      [by eapply handle_client_registry|done..].
  - destruct Hs as [s t outcome Hst]. by destruct t.
  - destruct Hs as [s Hst|s t Hst|s t Hst]; [done|by destruct t..].
  - by destruct Hs.
Qed.

End Registry.

(** X17. A connection writes to the shared registry under its own
    identifier only: whatever its supervising coroutine and its tasks do, on
    either server and from registration to the [finally] of [handle_client],
    the entry of every other client is as it was. *)
Theorem connection_touches_only_its_entry (w : Common.websocket)
    (s s' : Lifecycle.state) (id : Z) :
  rtc (own_step w) s s' ->
  id <> Common.py_id w ->
  Lifecycle.active_clients s' !! id = Lifecycle.active_clients s !! id.
Proof.
  intros Hr Hne. induction Hr as [s|s1 s2 s3 Hs Hr IH]; [done|].
  rewrite IH. by eapply own_step_registry.
Qed.

Lemma connection_touches_only_its_entry_witness :
  Lifecycle.active_clients registered_state !! 7 = Some peer_socket.
Proof.
  rewrite (connection_touches_only_its_entry sample_socket registering_state
             registered_state 7).
  - reflexivity.
  - apply rtc_once. left. apply Lifecycle.a_common.
    exact (Lifecycle.registers sample_socket registering_state eq_refl).
  - discriminate.
Defined.

(** ** What [handle_client] logs *)

Section Logs.
Import Common Lifecycle Inv.
Variable w : websocket.

Lemma in_task_notes n t outcome :
  In n (task_notes t outcome) -> n = TaskError t \/ n = Finished t.
Proof.
  unfold task_notes. rewrite in_app_iff. simpl. intros [H|[H|[]]]; [|by right].
  destruct outcome as [e|]; [|done].
  destruct (archive_handlers t e); simpl in H; [done| |done].
  destruct H as [H|[]]. by left.
Qed.

Lemma not_in_cancel_notes s n :
  is_cancel n = false -> ~ In n (cancel_notes s).
Proof.
  intros Hn. unfold cancel_notes, cancel_note. rewrite !in_app_iff.
  destruct (ws_task s), (send_task s), (recv_task s); simpl;
    intros H; repeat destruct H as [H|H]; try done; by subst n.
Qed.

Ltac logs :=
  simpl in *; rewrite ?in_app_iff in *; simpl in *;
  repeat match goal with
         | H : In _ (cancel_notes _) |- _ => by apply not_in_cancel_notes in H
         | H : In _ (task_notes _ _) |- _ => apply in_task_notes in H
         | H : In _ (if ?b then _ else _) |- _ => destruct b; simpl in H
         | H : _ \/ _ |- _ => destruct H
         | H : False |- _ => destruct H
         end;
  try done; try discriminate; try congruence; auto.

Lemma archive_step_logs s s' :
  archive_step w s s' -> (forall e, pc s <> AtExcept e) ->
  In LoggedDisconnect (trace s') -> In LoggedDisconnect (trace s).
Proof.
  intros [Hs|[Hs|[Hs|Hs]]] Hne Hin.
  - destruct Hs as [s s' Hc|s Hpc|s Hpc|s Hpc|s Hpc|s Hpc|s Hpc Hd|s Hpc|s Hpc Hd|s r Hpc];
      [destruct Hc as [s Hpc|s Hpc|s Hpc|s e Hpc|s Hpc]|..]; logs.
  - destruct Hs as [s t outcome Hst]. destruct t; logs.
  - destruct Hs as [s f Hrun]. logs.
  - destruct Hs as [s w' Hn|s w' Hn]; logs.
Qed.

Lemma server_step_disconnect_inv s s' :
  disconnect_inv s -> server_step w s s' -> disconnect_inv s'.
Proof.
  intros (Hd & He & Hx) [Hs|[Hs|[Hs|Hs]]]; unfold disconnect_inv.
  - destruct Hs as [s s' Hc|s Hpc|s e Hpc|s Hpc|s Hpc Hf Hr|s Hpc Hd'|s r Hpc];
      [destruct Hc as [s Hpc|s Hpc|s Hpc|s e Hpc|s Hpc]|..];
      (split; [|split]); try (intros e' Hpc'); try (intros Hin); logs.
    all: try (injection Hpc' as <-).
    all: try (destruct (any_failed s); by injection Hpc').
    all: try (destruct r as [e''|]; [injection Hpc' as <-|done];
              left; by apply Hx).
    all: try (destruct (He e Hpc) as [->|?]; [discriminate|auto]).
    all: try (destruct e; simpl in *; logs).
    all: try (left; destruct (He _ Hpc) as [?|?]; [discriminate|done]).
    all: try (by destruct r).
  - destruct Hs as [s Hst|s t Hst|s t Hst]; try destruct t;
      (split; [|split]); try (intros e' Hpc'); try (intros Hin); logs.
    all: try (destruct (He e' Hpc'); auto).
    all: try by apply Hx.
  - destruct Hs as [s f Hrun].
    (split; [|split]); try (intros e' Hpc'); try (intros Hin); logs.
    all: try (destruct (He e' Hpc'); auto).
    all: try by apply Hx.
  - destruct Hs as [s w' Hn|s w' Hn];
      (split; [|split]); try (intros e' Hpc'); try (intros Hin); logs.
    all: try by apply Hx.
Qed.

End Logs.

(** X18. The [Client disconnected] line of [handle_client] is all but dead
    code.  On [archive/main.py] it is never logged: [process_audio] lets no
    exception out.  On [server.py] what leaves the task group is an
    exception group, which [except ConnectionClosed] does not match, so a
    client that goes away during the session is reported as an error; the
    line is logged only when opening the session itself failed (the session
    block is taken to raise nothing of its own when it is left). *)
Theorem disconnect_logged_only_on_connect_failure (w : Common.websocket)
    (active : gmap Z Common.websocket) :
  (forall s, rtc (Lifecycle.archive_step w) (Lifecycle.start active) s ->
     ~ In Lifecycle.LoggedDisconnect (Lifecycle.trace s))
  /\ (forall s, rtc (Lifecycle.server_step w) (Lifecycle.start active) s ->
        (In Lifecycle.LoggedDisconnect (Lifecycle.trace s) ->
         In Lifecycle.ConnectFailed (Lifecycle.trace s))
        /\ (forall e, Lifecycle.pc s = Lifecycle.AtExcept e ->
              e = ExceptionGroup \/ In Lifecycle.ConnectFailed (Lifecycle.trace s))).
Proof.
  split.
  - apply (rtc_ind_r (fun s => ~ In Lifecycle.LoggedDisconnect (Lifecycle.trace s))).
    + simpl. tauto.
    + intros s1 s2 Hr Hs IH Hin. apply IH.
      apply (archive_step_logs w s1 s2 Hs); [|done].
      by destruct (archive_quiet_reachable w active s1 Hr) as (Hne & _).
  - intros s Hr. cut (disconnect_inv s); [unfold disconnect_inv; tauto|].
    revert s Hr. apply rtc_ind_r.
    + unfold disconnect_inv. simpl. repeat split; intros; done.
    + intros s1 s2 _ Hs IH. by eapply server_step_disconnect_inv.
Qed.

(** ** A task of [server.py] fails *)

Lemma server_failure_run (w : Common.websocket) (s : Lifecycle.state) :
  Lifecycle.pc s = Lifecycle.AtJoin ->
  Lifecycle.any_failed s = true ->
  Inv.tasks Inv.created s ->
  exists s', rtc (Lifecycle.server_teardown_step w) s s'
             /\ Lifecycle.pc s' = Lifecycle.Returned
             /\ Lifecycle.session s' = Lifecycle.Closed
             /\ Lifecycle.all_done s' = true
             /\ Lifecycle.count Lifecycle.is_cancel (Lifecycle.trace s')
                = (Lifecycle.count Lifecycle.is_cancel (Lifecycle.trace s)
                   + Lifecycle.running_tasks s)%nat
             /\ Lifecycle.count Lifecycle.is_error (Lifecycle.trace s')
                = S (S (Lifecycle.count Lifecycle.is_error (Lifecycle.trace s))).
Proof.
  intros Hpc Hf (Hw & Hs & Hr).
  destruct s as [p reg sess ws snd rcv tr]. simpl in *. subst p.
  destruct ws as [| | |[|]], snd as [| | |[|]], rcv as [| | |[|]]; try discriminate;
    (eexists; split;
     [ try (eapply rtc_l; [left; by apply Lifecycle.s_abort|]; cbn);
       try (eapply rtc_l;
            [right; apply (Lifecycle.s_observes _ Lifecycle.WsTask); reflexivity|];
            cbn);
       try (eapply rtc_l;
            [right; apply (Lifecycle.s_observes _ Lifecycle.SendTask); reflexivity|];
            cbn);
       try (eapply rtc_l;
            [right; apply (Lifecycle.s_observes _ Lifecycle.RecvTask); reflexivity|];
            cbn);
       eapply rtc_l; [left; by apply Lifecycle.s_join|]; cbn;
       eapply rtc_l; [left; by eapply Lifecycle.s_exit|]; cbn;
       eapply rtc_l; [left; apply Lifecycle.s_common; by eapply Lifecycle.excepts|]; cbn;
       eapply rtc_once; left; apply Lifecycle.s_common; by apply Lifecycle.finally
     | cbn; repeat split; try done;
       rewrite !count_app; destruct (Common.removes _ _); simpl; lia ]).
Qed.

Lemma server_teardown_run_included (w : Common.websocket) s s' :
  rtc (Lifecycle.server_teardown_step w) s s' -> rtc (Lifecycle.server_step w) s s'.
Proof.
  induction 1 as [|s1 s2 s3 Hs Hr IH]; [done|].
  eapply rtc_l; [|done]. destruct Hs as [Hs|Hs]; [by left|].
  right. left. destruct Hs as [s t Hst]. by apply Lifecycle.s_cancelled.
Qed.

(** X19. On [server.py] a task that fails brings the connection down, the
    supervising coroutine doing it all by itself: from any state in which a
    task has failed, with no other task ending on its own, the group
    cancels every task that is still running, each once; the cancelled
    tasks observe it, the session is closed once, [handle_client] logs the
    failure with its two calls of [logger.error] (the message, then the
    traceback), removes the client from the registry and returns. *)
Theorem server_task_failure_tears_down (w : Common.websocket)
    (active : gmap Z Common.websocket) (s : Lifecycle.state) :
  rtc (Lifecycle.server_step w) (Lifecycle.start active) s ->
  Lifecycle.pc s = Lifecycle.AtJoin ->
  Lifecycle.any_failed s = true ->
  exists s', rtc (Lifecycle.server_teardown_step w) s s'
             /\ Lifecycle.pc s' = Lifecycle.Returned
             /\ Lifecycle.session s' = Lifecycle.Closed
             /\ Lifecycle.all_done s' = true
             /\ Lifecycle.count Lifecycle.is_cancel (Lifecycle.trace s')
                = (Lifecycle.count Lifecycle.is_cancel (Lifecycle.trace s)
                   + Lifecycle.running_tasks s)%nat
             /\ Lifecycle.count Lifecycle.is_error (Lifecycle.trace s') = 2%nat
             /\ Lifecycle.count Lifecycle.is_close (Lifecycle.trace s') = 1%nat
             /\ Lifecycle.active_clients s' !! Common.py_id w = None.
Proof.
  intros Hr Hpc Hf. pose proof (at_point_server w active s Hr) as Hinv.
  assert (Inv.tasks Inv.created s
          /\ Lifecycle.count Lifecycle.is_error (Lifecycle.trace s) = O) as [Ht He].
  { unfold Inv.at_point in Hinv. rewrite Hpc in Hinv.
    destruct Hinv as (_ & (_ & _ & He) & _ & _ & Ht). done. }
  destruct (server_failure_run w s Hpc Hf Ht) as (s' & Hr' & Hp & Hs & Ha & Hc & He').
  exists s'. rewrite He' , He.
  assert (Inv.at_point w s') as Hinv'.
  { eapply at_point_server. eapply rtc_trans; [exact Hr|].
    by apply server_teardown_run_included. }
  destruct (at_point_returned w s' Hinv' Hp) as (_ & Hreg & Hcl).
  repeat split; try done. apply Hcl. by rewrite Hs.
Qed.

Lemma receiver_failed_reachable :
  rtc (Lifecycle.server_step sample_socket) (Lifecycle.start ∅) receiver_failed_state.
Proof.
  unfold Lifecycle.start, receiver_failed_state.
  supervisor_step ltac:(apply Lifecycle.s_common; apply Lifecycle.ready_sent).
  supervisor_step ltac:(apply Lifecycle.s_common; apply Lifecycle.registers).
  supervisor_step ltac:(apply Lifecycle.s_connect_ok).
  supervisor_step ltac:(apply Lifecycle.s_create).
  eapply rtc_l;
    [right; left; apply (Lifecycle.s_fails _ Lifecycle.RecvTask); reflexivity|]; cbn.
  apply rtc_refl.
Qed.

Lemma server_task_failure_tears_down_witness :
  exists s', rtc (Lifecycle.server_teardown_step sample_socket)
               receiver_failed_state s'
             /\ Lifecycle.pc s' = Lifecycle.Returned
             /\ Lifecycle.count Lifecycle.is_cancel (Lifecycle.trace s') = 2%nat
             /\ Lifecycle.count Lifecycle.is_error (Lifecycle.trace s') = 2%nat.
Proof.
  destruct (server_task_failure_tears_down sample_socket ∅ receiver_failed_state
              receiver_failed_reachable eq_refl eq_refl)
    as (s' & Hr & Hp & _ & _ & Hc & He & _).
  exists s'. split; [exact Hr|]. split; [exact Hp|]. split; [exact Hc|exact He].
Defined.

(** ** What the client is told when the session cannot be opened *)

Section OnlyReady.
Import Common Lifecycle Inv.
Variable w : websocket.

Lemma sent_app tr1 tr2 : sent (tr1 ++ tr2) = sent tr1 ++ sent tr2.
Proof. apply omap_app. Qed.

Lemma sent_cancel_notes s : sent (cancel_notes s) = [].
Proof.
  unfold cancel_notes, cancel_note.
  by destruct (ws_task s), (send_task s), (recv_task s).
Qed.

Ltac only_ready :=
  simpl in *; rewrite ?in_app_iff, ?sent_app, ?sent_cancel_notes in *; simpl in *;
  repeat match goal with
         | H : In _ (cancel_notes _) |- _ => by apply not_in_cancel_notes in H
         | H : In _ (if ?b then _ else _) |- _ => destruct b; simpl in H
         | H : _ \/ _ |- _ => destruct H
         | H : False |- _ => destruct H
         | H : exists _, _ |- _ => destruct H
         end;
  try done; try discriminate; try congruence.

Lemma only_ready_handle_client s s' :
  at_point w s -> only_ready_inv s -> handle_client w s s' -> only_ready_inv s'.
Proof.
  intros Hinv (H1 & H2) Hs.
  destruct Hs as [s Hpc|s Hpc|s Hpc|s e Hpc|s Hpc]; unfold only_ready_inv;
    unfold at_point in Hinv; rewrite Hpc in Hinv; rewrite Hpc in H1, H2; simpl.
  - destruct Hinv as (Ht & _ & _ & _ & Hr). rewrite Ht.
    split; [|intros Hin; only_ready]. intros _. simpl. split; [done|].
    by destruct (recv_task s).
  - destruct Hinv as (Ht & _). rewrite Ht. split; intros Hin; only_ready.
  - split; [intros _; apply H1; by left|]. intros Hin. simpl in Hin.
    destruct (H2 Hin) as [[? ?]|[?|?]]; done.
  - split.
    + intros Hin. assert (In ConnectFailed (trace s)) as Hcf.
      { simpl in Hin. rewrite in_app_iff in Hin.
        destruct Hin as [?|[?|[Hin|Hin]]]; try done.
        unfold except_note in Hin.
        destruct (is_ConnectionClosed e); [by destruct Hin as [?|[]]|].
        destruct (is_Exception e); [by destruct Hin as [?|[]]|done]. }
      destruct H1 as [Hs Hr]; [auto|]. simpl. rewrite sent_app, Hs.
      split; [|done]. unfold except_note.
      destruct (is_ConnectionClosed e); [done|]. by destruct (is_Exception e).
    + intros _. simpl. auto.
  - split.
    + intros Hin. assert (In ConnectFailed (trace s)) as Hcf.
      { simpl in Hin. rewrite in_app_iff in Hin.
        destruct Hin as [?|[?|[Hin|Hin]]]; try done.
        destruct (removes _ _); [by destruct Hin as [?|[]]|done]. }
      destruct H1 as [Hs Hr]; [auto|]. simpl. rewrite sent_app, Hs.
      split; [|done]. by destruct (removes _ _).
    + intros _. simpl. auto.
Qed.

Lemma only_ready_tasks s t st n :
  only_ready_inv s -> st <> Running -> sent n = [] -> ~ In ConnectFailed n ->
  only_ready_inv (set_status s t st n).
Proof.
  intros (H1 & H2) Hst Hn Hnin. unfold only_ready_inv.
  assert (pc (set_status s t st n) = pc s) as Hpc by (by destruct t).
  assert (trace (set_status s t st n) = trace s ++ n) as Htr by (by destruct t).
  rewrite Hpc, Htr. split.
  - intros Hin. rewrite in_app_iff in Hin.
    destruct H1 as [Hs Hr]; [tauto|]. rewrite sent_app, Hs, Hn.
    split; [done|]. by destruct t.
  - intros Hin. rewrite in_app_iff in Hin. apply H2. tauto.
Qed.

Lemma only_ready_rest s s' :
  only_ready_inv s -> receiver_sends s s' \/ peers w s s' -> only_ready_inv s'.
Proof.
  intros (H1 & H2) [Hs|Hs].
  - destruct Hs as [s f Hrun]. unfold only_ready_inv. simpl. split.
    + intros Hin. rewrite in_app_iff in Hin. simpl in Hin.
      destruct H1 as [_ Hr]; [|done].
      destruct Hin as [?|[?|[?|[?|[]]]]]; auto. discriminate.
    + intros Hin. rewrite in_app_iff in Hin. simpl in Hin. apply H2.
      destruct Hin as [?|[?|[]]]; [done|discriminate].
  - by destruct Hs as [s w' Hn|s w' Hn].
Qed.

Lemma only_ready_archive_step s s' :
  at_point w s -> only_ready_inv s -> archive_step w s s' -> only_ready_inv s'.
Proof.
  intros Hinv Hi [Hs|[Hs|Hs]].
  - destruct Hs as [s s' Hc|s Hpc|s Hpc|s Hpc|s Hpc|s Hpc|s Hpc Hd|s Hpc|s Hpc Hd|s r Hpc];
      [by eapply only_ready_handle_client|..];
      destruct Hi as (H1 & H2); unfold only_ready_inv; rewrite Hpc in *;
      (split; [intros Hin|intros Hin]); only_ready.
    all: try (destruct H2 as [[? ?]|[?|?]]; done).
    all: try (destruct H1 as [Hs Hr]; [auto|]; by rewrite Hs).
    all: auto.
  - destruct Hs as [s t outcome Hst]. apply only_ready_tasks; try done.
    + unfold task_notes. rewrite sent_app.
      destruct outcome as [e|]; [destruct (archive_handlers t e)|]; done.
    + intros Hin. apply in_task_notes in Hin as [?|?]; discriminate.
  - by eapply only_ready_rest.
Qed.

Lemma only_ready_server_step s s' :
  at_point w s -> only_ready_inv s -> server_step w s s' -> only_ready_inv s'.
Proof.
  intros Hinv Hi [Hs|[Hs|Hs]].
  - destruct Hs as [s s' Hc|s Hpc|s e Hpc|s Hpc|s Hpc Hf Hr|s Hpc Hd|s r Hpc];
      [by eapply only_ready_handle_client|..];
      destruct Hi as (H1 & H2); unfold only_ready_inv; rewrite Hpc in *;
      (split; [intros Hin|intros Hin]); only_ready.
    all: try (destruct H2 as [[? ?]|[?|?]]; done).
    all: try (destruct H1 as [Hs Hr]; [auto|]; by rewrite Hs).
    all: try (by destruct r).
    all: eauto.
  - destruct Hs as [s Hst|s t Hst|s t Hst]; apply only_ready_tasks; try done;
      simpl; intros [?|[]]; discriminate.
  - by eapply only_ready_rest.
Qed.

End OnlyReady.

Lemma only_ready_start (active : gmap Z Common.websocket) :
  only_ready_inv (Lifecycle.start active).
Proof.
  unfold only_ready_inv. simpl. split; intros H; by repeat destruct H as [H|H].
Qed.

Lemma only_ready_archive (w : Common.websocket) active s :
  rtc (Lifecycle.archive_step w) (Lifecycle.start active) s -> only_ready_inv s.
Proof.
  intros Hr. cut (Inv.at_point w s /\ only_ready_inv s); [tauto|].
  revert s Hr. apply rtc_ind_r.
  - split; [apply at_point_start|apply only_ready_start].
  - intros s1 s2 _ Hs [Hi Ho]. split.
    + by eapply at_point_archive_step.
    + by eapply only_ready_archive_step.
Qed.

Lemma only_ready_server (w : Common.websocket) active s :
  rtc (Lifecycle.server_step w) (Lifecycle.start active) s -> only_ready_inv s.
Proof.
  intros Hr. cut (Inv.at_point w s /\ only_ready_inv s); [tauto|].
  revert s Hr. apply rtc_ind_r.
  - split; [apply at_point_start|apply only_ready_start].
  - intros s1 s2 _ Hs [Hi Ho]. split.
    + by eapply at_point_server_step.
    + by eapply only_ready_server_step.
Qed.

(** X20. When the remote session cannot be opened, on either server, the
    client is told nothing about it: [ready] is the only frame it is ever
    sent on that connection, before the failure and after it. *)
Theorem connect_failure_is_silent (w : Common.websocket)
    (active : gmap Z Common.websocket) (s : Lifecycle.state) :
  rtc (Lifecycle.archive_step w) (Lifecycle.start active) s
  \/ rtc (Lifecycle.server_step w) (Lifecycle.start active) s ->
  In Lifecycle.ConnectFailed (Lifecycle.trace s) ->
  Lifecycle.sent (Lifecycle.trace s) = [OReady].
Proof.
  intros Hr Hin.
  assert (only_ready_inv s) as (H1 & _).
  { destruct Hr; [by eapply only_ready_archive|by eapply only_ready_server]. }
  destruct H1 as [Hs _]; [|done]. right. by right.
Qed.

Lemma connect_failure_is_silent_witness :
  Lifecycle.sent (Lifecycle.trace connect_failed_state) = [OReady].
Proof.
  apply (connect_failure_is_silent sample_socket ∅ connect_failed_state
           (or_introl connect_failed_reachable)).
  simpl. tauto.
Defined.
